(** * CyberEther / Jetstream compute scheduler

    A shallow embedding of [Jetstream::Scheduler] (the implementation of
    jetstream/compute/scheduler.hh):
    the prune phase [removeInactive], the ordering phase [arrangeDependencyOrder],
    the executor assembly [createExecutionGraphs], the mutation entry points
    [addModule] / [removeModule] / [destroy], the [compute] and [present]
    passes, and the statements of [compute], [present] and [lockState] taken
    in turns by three threads.

    Conventions of the embedding.
    - [U64] values (record hashes, locale hashes, cluster ids, degrees) are [Z];
      the one place where the source relies on unsigned wrap-around (the
      pre-decrement of [degrees]) spells the wrap out with [wrap64].
    - [std::unordered_map<std::string, T>] objects that the source iterates are
      association lists, the list order being the iteration order of the
      container; theorems quantify over every such order.
    - C++ maps that are only read and written through [operator[]] are total
      functions carrying the value-initialised default ([DMap]).
    - The ready set [queue] is a duplicate-free list; the order in which the
      source's range-for visits it is supplied by an oracle [queueIter]. *)

From Stdlib Require Import String List ZArith Lia Bool Arith Permutation Sorted.
Import ListNotations.

Local Open Scope string_scope.
Local Open Scope Z_scope.
Local Open Scope list_scope.

(** ** Result codes and device tags *)

(** Modelled from the spec: [enum class Result] is declared in
    jetstream/types.hh, which is not part of the sources at hand.  The codes
    are the ones the scheduler names ([SUCCESS], [FATAL], [TIMEOUT], [SKIP],
    [ERROR]). *)
Inductive Result : Type :=
| SUCCESS
| ERROR
| FATAL
| SKIP
| TIMEOUT.

(** Modelled from the spec: [enum class Device] and its [operator&] are declared
    in jetstream/types.hh, which is not part of the sources at hand.  The spec
    lists the tags and says that grouping treats equality on the tag; the tags
    are one-bit flags, so that [(a & b) != b] holds exactly when [a] and [b]
    differ. *)
Inductive Device : Type :=
| Device_None
| Device_CPU
| Device_CUDA
| Device_Metal
| Device_Vulkan.

Definition Device_bits (d : Device) : Z :=
  match d with
  | Device_None => 1
  | Device_CPU => 2
  | Device_CUDA => 4
  | Device_Metal => 8
  | Device_Vulkan => 16
  end.

Definition Device_eqb (a b : Device) : bool :=
  Device_bits a =? Device_bits b.

(** [(a & b) != b] of the source. *)
Definition Device_and_neq (a b : Device) : bool :=
  negb (Z.land (Device_bits a) (Device_bits b) =? Device_bits b).

(** ** Containers *)

(** A C++ map used through [operator[]] only: a total function that answers
    the value-initialised default on a key never written. *)
Definition DMap (K V : Type) : Type := K -> V.

Definition dsetZ {V : Type} (m : DMap Z V) (k : Z) (v : V) : DMap Z V :=
  fun k' => if k' =? k then v else m k'.

Definition dsetS {V : Type} (m : DMap string V) (k : string) (v : V)
  : DMap string V :=
  fun k' => if String.eqb k' k then v else m k'.

(** [std::unordered_map<std::string, V>] with an iteration order. *)
Definition Map (V : Type) : Type := list (string * V).

Fixpoint find {V : Type} (k : string) (m : Map V) : option V :=
  match m with
  | [] => None
  | (k', v) :: rest => if String.eqb k k' then Some v else find k rest
  end.

(** [m[k] = v]: overwrite the entry of [k] or create it. *)
Fixpoint assign {V : Type} (k : string) (v : V) (m : Map V) : Map V :=
  match m with
  | [] => [(k, v)]
  | (k', v') :: rest =>
      if String.eqb k k' then (k, v) :: rest else (k', v') :: assign k v rest
  end.

Definition erase {V : Type} (k : string) (m : Map V) : Map V :=
  filter (fun e => negb (String.eqb k (fst e))) m.

Definition keys {V : Type} (m : Map V) : list string := map fst m.

(** [std::unordered_set<std::string>]. *)
Definition sset_contains (k : string) (s : list string) : bool :=
  existsb (String.eqb k) s.

Definition sset_emplace (k : string) (s : list string) : list string :=
  if sset_contains k s then s else s ++ [k].

Definition sset_erase (k : string) (s : list string) : list string :=
  filter (fun x => negb (String.eqb k x)) s.

(** ** Records and module states *)

(** A tensor-port descriptor.  Only the two identities the scheduler reads are
    kept: [meta.hash] and [meta.locale.hash()]; data type, shape, device and
    data pointer are only logged. *)
Record Record_ : Type := mkRecord {
  hash : Z;
  localeHash : Z
}.

Definition RecordMap : Type := Map Record_.

(** [activeInputs] / [activeOutputs] hold [const Record*] into the maps of the
    same state; the embedding stores the record pointed to. *)
Record ComputeModuleState : Type := mkComputeModuleState {
  module : nat;
  device : Device;
  inputMap : RecordMap;
  outputMap : RecordMap;
  activeInputs : RecordMap;
  activeOutputs : RecordMap;
  clusterId : Z
}.

Definition defaultComputeModuleState : ComputeModuleState :=
  mkComputeModuleState 0%nat Device_None [] [] [] [] 0.

Record PresentModuleState : Type := mkPresentModuleState {
  present_module : nat;
  present_inputMap : RecordMap;
  present_outputMap : RecordMap
}.

(** [m[k]] read on a map of compute states. *)
Definition at_ (m : Map ComputeModuleState) (k : string) : ComputeModuleState :=
  match find k m with Some s => s | None => defaultComputeModuleState end.

(** ** Graph executors *)

(** Modelled from the spec: [class Graph] (jetstream/compute/graph/base.hh) is
    not part of the sources at hand.  Per the spec the four setters accumulate
    bookkeeping sets of locale hashes and [setModule] appends to the ordered
    run; the sets are ordered sets ([std::set<U64>]: strictly increasing
    lists), which is what [std::ranges::set_intersection] requires of its
    arguments. *)
Record Graph : Type := mkGraph {
  graph_device : Device;
  wiredInputs : list Z;
  wiredOutputs : list Z;
  externallyWiredInputs : list Z;
  externallyWiredOutputs : list Z;
  graph_modules : list nat
}.

Definition NewGraph (d : Device) : Graph := mkGraph d [] [] [] [] [].

Fixpoint uset_insert (x : Z) (s : list Z) : list Z :=
  match s with
  | [] => [x]
  | y :: rest =>
      if x <? y then x :: s
      else if x =? y then s
      else y :: uset_insert x rest
  end.

Definition setWiredInput (x : Z) (g : Graph) : Graph :=
  mkGraph (graph_device g) (uset_insert x (wiredInputs g)) (wiredOutputs g)
    (externallyWiredInputs g) (externallyWiredOutputs g) (graph_modules g).

Definition setWiredOutput (x : Z) (g : Graph) : Graph :=
  mkGraph (graph_device g) (wiredInputs g) (uset_insert x (wiredOutputs g))
    (externallyWiredInputs g) (externallyWiredOutputs g) (graph_modules g).

Definition setExternallyWiredInput (x : Z) (g : Graph) : Graph :=
  mkGraph (graph_device g) (wiredInputs g) (wiredOutputs g)
    (uset_insert x (externallyWiredInputs g)) (externallyWiredOutputs g)
    (graph_modules g).

Definition setExternallyWiredOutput (x : Z) (g : Graph) : Graph :=
  mkGraph (graph_device g) (wiredInputs g) (wiredOutputs g)
    (externallyWiredInputs g) (uset_insert x (externallyWiredOutputs g))
    (graph_modules g).

Definition setModule (m : nat) (g : Graph) : Graph :=
  mkGraph (graph_device g) (wiredInputs g) (wiredOutputs g)
    (externallyWiredInputs g) (externallyWiredOutputs g)
    (graph_modules g ++ [m]).

(** [std::ranges::set_intersection] over two ordered ranges: the merge walk of
    the standard library. *)
Fixpoint set_intersection (a : list Z) : list Z -> list Z :=
  match a with
  | [] => fun _ => []
  | x :: a' =>
      fix inner (b : list Z) : list Z :=
        match b with
        | [] => []
        | y :: b' =>
            if x <? y then set_intersection a' b
            else if y <? x then inner b'
            else x :: set_intersection a' b'
        end
  end.

(** The results of the calls into the executors, which the scheduler only
    inspects: [destroy], [create] and [compute] per graph, and [computeReady]
    per poll (the [n]-th call of the current [compute()] invocation). *)
Record Executors : Type := mkExecutors {
  graph_destroy : Graph -> Result;
  graph_create : Graph -> Result;
  graph_computeReady : nat -> Graph -> Result;
  graph_compute : Graph -> Result
}.

(** ** The scheduler object *)

Record Scheduler : Type := mkScheduler {
  running : bool;
  computeModuleStates : Map ComputeModuleState;
  presentModuleStates : Map PresentModuleState;
  validComputeModuleStates : Map ComputeModuleState;
  validPresentModuleStates : Map PresentModuleState;
  executionOrder : list string;
  deviceExecutionOrder : list (Device * list string);
  graphs : list Graph;
  computeHalt : bool;
  presentHalt : bool;
  computeWait : bool;
  computeSync : bool;
  presentSync : bool
}.

Definition emptyScheduler : Scheduler :=
  mkScheduler false [] [] [] [] [] [] [] false false false false false.

(** What a call does: it returns, it never returns (a loop that does not
    leave, counted out by the fuel of the embedding, or a wait that nothing
    ends), or it steps outside defined behaviour. *)
Inductive Outcome (A : Type) : Type :=
| Returns (a : A)
| Diverges
| Undefined.

Arguments Returns {A} a.
Arguments Diverges {A}.
Arguments Undefined {A}.

(** ** Phase 1: [Scheduler::removeInactive] *)

(** [valid[meta.hash]++] for every port of one map whose hash is non-zero.
    The counter counts map nodes held in memory and cannot overflow 64 bits. *)
Definition countHashes (valid : DMap Z nat) (m : RecordMap) : DMap Z nat :=
  fold_left
    (fun valid e =>
       let meta := snd e in
       if hash meta =? 0 then valid
       else dsetZ valid (hash meta) (S (valid (hash meta))))
    m valid.

Definition countAll (cms : Map ComputeModuleState) : DMap Z nat :=
  fold_left
    (fun valid e =>
       let state := snd e in
       countHashes (countHashes valid (inputMap state)) (outputMap state))
    cms (fun _ => 0%nat).

(** One of the two loops that fill [activeInputs] / [activeOutputs]. *)
Definition activate (valid : DMap Z nat) (ports active : RecordMap) : RecordMap :=
  fold_left
    (fun active e =>
       if (1 <? valid (hash (snd e)))%nat then assign (fst e) (snd e) active
       else active)
    ports active.

Definition activateState (valid : DMap Z nat) (state : ComputeModuleState)
  : ComputeModuleState :=
  mkComputeModuleState
    (module state) (device state) (inputMap state) (outputMap state)
    (activate valid (inputMap state) (activeInputs state))
    (activate valid (outputMap state) (activeOutputs state))
    (clusterId state).

Definition isEmpty {A : Type} (l : list A) : bool :=
  match l with [] => true | _ => false end.

Definition isStale (state : ComputeModuleState) : bool :=
  isEmpty (activeInputs state) && isEmpty (activeOutputs state).

Definition staleModules (cms : Map ComputeModuleState) : list string :=
  fold_left
    (fun stale e => if isStale (snd e) then sset_emplace (fst e) stale else stale)
    cms [].

(** The two loops that fill [validComputeModuleStates] and
    [validPresentModuleStates], which [removeInactive] has just cleared.  The
    entries are those of the source map that are not stale; the order of the
    list is the order in which they were written, which stands for the
    iteration order of the new map.  The code relates the iteration orders of
    two maps in no way: what is stated of the valid maps below is stated of
    their entries, and what is stated of the phases that iterate them holds
    for every order. *)
Definition keepValid {V : Type} (stale : list string) (ms : Map V) : Map V :=
  fold_left
    (fun valid e =>
       if sset_contains (fst e) stale then valid
       else assign (fst e) (snd e) valid)
    ms [].

Definition set_maps (s : Scheduler)
    (cms : Map ComputeModuleState) (vcs : Map ComputeModuleState)
    (vps : Map PresentModuleState) : Scheduler :=
  mkScheduler (running s) cms (presentModuleStates s) vcs vps
    (executionOrder s) (deviceExecutionOrder s) (graphs s)
    (computeHalt s) (presentHalt s) (computeWait s)
    (computeSync s) (presentSync s).

Definition removeInactive (s : Scheduler) : Result * Scheduler :=
  let valid := countAll (computeModuleStates s) in
  let cms :=
    map (fun e => (fst e, activateState valid (snd e))) (computeModuleStates s) in
  let stale := staleModules cms in
  (SUCCESS,
   set_maps s cms (keepValid stale cms) (keepValid stale (presentModuleStates s))).

(** The compute states as [removeInactive] leaves them. *)
Definition activated (cms : Map ComputeModuleState) : Map ComputeModuleState :=
  map (fun e => (fst e, activateState (countAll cms) (snd e))) cms.

(** ** Phases 2 to 4: [Scheduler::arrangeDependencyOrder] *)

Definition wrap64 (z : Z) : Z := z mod 2 ^ 64.

(** [degrees] and the initial [queue] (the first loop over the valid states):
    the body of the loop, then the loop. *)
Definition initDegreesStep (acc : DMap string Z * list string)
    (e : string * ComputeModuleState) : DMap string Z * list string :=
  let size := Z.of_nat (length (activeInputs (snd e))) in
  (dsetS (fst acc) (fst e) size,
   if size =? 0 then sset_emplace (fst e) (snd acc) else snd acc).

Definition initDegrees (vs : Map ComputeModuleState)
  : DMap string Z * list string :=
  fold_left initDegreesStep vs (fun _ => 0, []).

(** [moduleInputCache[inputMeta->locale.hash()].push_back(name)]. *)
Definition buildInputCache (vs : Map ComputeModuleState) : DMap Z (list string) :=
  fold_left
    (fun cache e =>
       fold_left
         (fun cache p =>
            let lh := localeHash (snd p) in
            dsetZ cache lh (cache lh ++ [fst e]))
         (activeInputs (snd e)) cache)
    vs (fun _ => []).

(** [moduleOutputCache[outputMeta->locale.hash()] = name]. *)
Definition buildOutputCache (vs : Map ComputeModuleState) : DMap Z string :=
  fold_left
    (fun cache e =>
       fold_left
         (fun cache p => dsetZ cache (localeHash (snd p)) (fst e))
         (activeOutputs (snd e)) cache)
    vs (fun _ => "").

(** [moduleEdgesCache]: per module the set of its neighbours. *)
Definition buildEdgesCache (vs : Map ComputeModuleState)
    (moduleInputCache : DMap Z (list string)) (moduleOutputCache : DMap Z string)
  : DMap string (list string) :=
  fold_left
    (fun cache e =>
       let edges1 :=
         fold_left
           (fun edges p => sset_emplace (moduleOutputCache (localeHash (snd p))) edges)
           (activeInputs (snd e)) (cache (fst e)) in
       let edges2 :=
         fold_left
           (fun edges p =>
              fold_left (fun edges m => sset_emplace m edges)
                (moduleInputCache (localeHash (snd p))) edges)
           (activeOutputs (snd e)) edges1 in
       dsetS cache (fst e) edges2)
    vs (fun _ => []).

(** The range-for over [queue]: the first module whose device equals
    [lastDevice] (adopting the device of the first module visited when
    [lastDevice] is [Device::None]); [nextName] stays empty when none matches. *)
Fixpoint scanQueue (vs : Map ComputeModuleState) (names : list string)
    (lastDevice : Device) : Device * string :=
  match names with
  | [] => (lastDevice, "")
  | name :: rest =>
      let dev := device (at_ vs name) in
      let lastDevice :=
        if Device_eqb lastDevice Device_None then dev else lastDevice in
      if Device_eqb dev lastDevice then (dev, name)
      else scanQueue vs rest lastDevice
  end.

(** [if (--degrees[inputModuleName] == 0) queue.emplace(inputModuleName)]. *)
Definition decrement (acc : DMap string Z * list string) (inputModuleName : string)
  : DMap string Z * list string :=
  let d := wrap64 (fst acc inputModuleName - 1) in
  (dsetS (fst acc) inputModuleName d,
   if d =? 0 then sset_emplace inputModuleName (snd acc) else snd acc).

(** The loop over the active outputs of the module just scheduled. *)
Definition release (vs : Map ComputeModuleState)
    (moduleInputCache : DMap Z (list string)) (nextName : string)
    (acc : DMap string Z * list string) : DMap string Z * list string :=
  fold_left
    (fun acc p => fold_left decrement (moduleInputCache (localeHash (snd p))) acc)
    (activeOutputs (at_ vs nextName)) acc.

Record OrderState : Type := mkOrderState {
  queue : list string;
  degrees : DMap string Z;
  lastDevice : Device;
  order : list string
}.

(** One pass through the body of [while (!queue.empty())]; [visit] is the
    order in which this pass walks [queue]. *)
Definition orderStep (vs : Map ComputeModuleState)
    (moduleInputCache : DMap Z (list string)) (visit : list string)
    (st : OrderState) : OrderState :=
  let '(dev, nextName) := scanQueue vs visit (lastDevice st) in
  if String.eqb nextName "" then
    mkOrderState (queue st) (degrees st) Device_None (order st)
  else
    let acc :=
      release vs moduleInputCache nextName
        (degrees st, sset_erase nextName (queue st)) in
    mkOrderState (snd acc) (fst acc) dev (order st ++ [nextName]).

(** The [while] loop; [k] numbers its passes for the oracle. *)
Fixpoint orderLoop (queueIter : nat -> list string -> list string)
    (vs : Map ComputeModuleState) (moduleInputCache : DMap Z (list string))
    (fuel k : nat) (st : OrderState) : option OrderState :=
  match queue st with
  | [] => Some st
  | _ :: _ =>
      match fuel with
      | O => None
      | S fuel' =>
          orderLoop queueIter vs moduleInputCache fuel' (S k)
            (orderStep vs moduleInputCache (queueIter k (queue st)) st)
      end
  end.

Definition initOrderState (vs : Map ComputeModuleState) : OrderState :=
  let dq := initDegrees vs in
  mkOrderState (snd dq) (fst dq) Device_None [].

(** Phase 3.  [validComputeModuleStates[current].clusterId = clusterCount]. *)
Definition setClusterId (state : ComputeModuleState) (c : Z) : ComputeModuleState :=
  mkComputeModuleState (module state) (device state) (inputMap state)
    (outputMap state) (activeInputs state) (activeOutputs state) c.

Definition setCluster (vs : Map ComputeModuleState) (current : string) (c : Z)
  : Map ComputeModuleState :=
  assign current (setClusterId (at_ vs current) c) vs.

(** The stack walk of one component: [while (!stack.empty())]. *)
Fixpoint walkCluster (moduleEdgesCache : DMap string (list string))
    (clusterCount : Z) (fuel : nat) (stack visited : list string)
    (vs : Map ComputeModuleState)
  : option (list string * Map ComputeModuleState) :=
  match stack with
  | [] => Some (visited, vs)
  | current :: rest =>
      match fuel with
      | O => None
      | S fuel' =>
          let stack' :=
            fold_left
              (fun stack neighbor =>
                 if sset_contains neighbor visited then stack
                 else neighbor :: stack)
              (moduleEdgesCache current) rest in
          if sset_contains current visited then
            walkCluster moduleEdgesCache clusterCount fuel' stack' visited vs
          else
            walkCluster moduleEdgesCache clusterCount fuel' stack'
              (sset_emplace current visited) (setCluster vs current clusterCount)
      end
  end.

(** The loop over the valid states that starts one walk per unvisited module. *)
Fixpoint assignClusters (moduleEdgesCache : DMap string (list string))
    (fuel : nat) (names : list string) (clusterCount : Z)
    (visited : list string) (vs : Map ComputeModuleState)
  : option (Map ComputeModuleState) :=
  match names with
  | [] => Some vs
  | name :: rest =>
      if sset_contains name visited then
        assignClusters moduleEdgesCache fuel rest clusterCount visited vs
      else
        match walkCluster moduleEdgesCache clusterCount fuel [name] visited vs with
        | None => None
        | Some (visited', vs') =>
            assignClusters moduleEdgesCache fuel rest (clusterCount + 1) visited' vs'
        end
  end.

(** Phase 4.  [deviceExecutionOrder.back().second.push_back(name)]; [back()]
    of an empty vector is undefined. *)
Fixpoint pushToBack (name : string) (deo : list (Device * list string))
  : option (list (Device * list string)) :=
  match deo with
  | [] => None
  | [(d, run)] => Some [(d, run ++ [name])]
  | e :: rest =>
      match pushToBack name rest with
      | Some rest' => Some (e :: rest')
      | None => None
      end
  end.

Record SplitState : Type := mkSplitState {
  split_lastDevice : Device;
  split_lastCluster : Z;
  split_deo : list (Device * list string)
}.

Definition splitStep (vs : Map ComputeModuleState) (st : SplitState)
    (name : string) : option SplitState :=
  let state := at_ vs name in
  let currentCluster := clusterId state in
  let currentDevice := device state in
  let deo :=
    if Device_and_neq currentDevice (split_lastDevice st)
       || negb (currentCluster =? split_lastCluster st)
    then split_deo st ++ [(currentDevice, [])]
    else split_deo st in
  match pushToBack name deo with
  | Some deo' => Some (mkSplitState currentDevice currentCluster deo')
  | None => None
  end.

Fixpoint splitLoop (vs : Map ComputeModuleState) (names : list string)
    (st : SplitState) : option SplitState :=
  match names with
  | [] => Some st
  | name :: rest =>
      match splitStep vs st name with
      | Some st' => splitLoop vs rest st'
      | None => None
      end
  end.

Definition splitRuns (vs : Map ComputeModuleState) (names : list string)
  : option (list (Device * list string)) :=
  match splitLoop vs names (mkSplitState Device_None 0 []) with
  | Some st => Some (split_deo st)
  | None => None
  end.

Definition set_order (s : Scheduler) (vcs : Map ComputeModuleState)
    (eo : list string) (deo : list (Device * list string)) : Scheduler :=
  mkScheduler (running s) (computeModuleStates s) (presentModuleStates s)
    vcs (validPresentModuleStates s) eo deo (graphs s)
    (computeHalt s) (presentHalt s) (computeWait s)
    (computeSync s) (presentSync s).

(** [fuel] bounds the passes of the ordering loop and of each stack walk. *)
Definition arrangeDependencyOrder (queueIter : nat -> list string -> list string)
    (fuel : nat) (s : Scheduler) : Outcome (Result * Scheduler) :=
  let vs := validComputeModuleStates s in
  let moduleInputCache := buildInputCache vs in
  let moduleOutputCache := buildOutputCache vs in
  let moduleEdgesCache := buildEdgesCache vs moduleInputCache moduleOutputCache in
  match orderLoop queueIter vs moduleInputCache fuel 0 (initOrderState vs) with
  | None => Diverges
  | Some st =>
      if negb (length (order st) =? length vs)%nat then
        Returns (FATAL, set_order s vs (order st) [])
      else
        match assignClusters moduleEdgesCache fuel (keys vs) 0 [] vs with
        | None => Diverges
        | Some vs' =>
            match splitRuns vs' (order st) with
            | None => Undefined
            | Some deo => Returns (SUCCESS, set_order s vs' (order st) deo)
            end
        end
  end.

(** [Scheduler::checkSequenceValidity] only emits warnings (its
    [return Result::ERROR] is commented out) and leaves the scheduler as it is. *)
Definition checkSequenceValidity (s : Scheduler) : Result := SUCCESS.

(** ** [Scheduler::createExecutionGraphs] *)

Definition wireModule (vs : Map ComputeModuleState) (graph : Graph)
    (blockName : string) : Graph :=
  let state := at_ vs blockName in
  let g1 :=
    fold_left (fun g p => setWiredInput (localeHash (snd p)) g)
      (activeInputs state) graph in
  let g2 :=
    fold_left (fun g p => setWiredOutput (localeHash (snd p)) g)
      (activeOutputs state) g1 in
  setModule (module state) g2.

Definition instantiateGraphs (vs : Map ComputeModuleState)
    (deo : list (Device * list string)) : list Graph :=
  map (fun e => fold_left (wireModule vs) (snd e) (NewGraph (fst e))) deo.

(** One pass of the dependency loop once [previousGraph] is set; the source
    never reassigns [previousGraph], which keeps aliasing the first graph. *)
Definition linkStep (acc : Graph * list Graph) (currentGraph : Graph)
  : Graph * list Graph :=
  let previousGraph := fst acc in
  let commonItems :=
    set_intersection (wiredOutputs previousGraph) (wiredInputs currentGraph) in
  (fold_left (fun g item => setExternallyWiredOutput item g) commonItems previousGraph,
   snd acc ++
     [fold_left (fun g item => setExternallyWiredInput item g) commonItems currentGraph]).

Definition linkGraphs (gs : list Graph) : list Graph :=
  match gs with
  | [] => []
  | first :: rest =>
      let acc := fold_left linkStep rest (first, []) in
      fst acc :: snd acc
  end.

Definition set_graphs (s : Scheduler) (gs : list Graph) : Scheduler :=
  mkScheduler (running s) (computeModuleStates s) (presentModuleStates s)
    (validComputeModuleStates s) (validPresentModuleStates s)
    (executionOrder s) (deviceExecutionOrder s) gs
    (computeHalt s) (presentHalt s) (computeWait s)
    (computeSync s) (presentSync s).

Definition createExecutionGraphs (s : Scheduler) : Result * Scheduler :=
  (SUCCESS,
   set_graphs s
     (linkGraphs
        (instantiateGraphs (validComputeModuleStates s) (deviceExecutionOrder s)))).

(** ** Mutation entry points *)

(** [for (graph : graphs) JST_CHECK(graph->f())]: the first result that is not
    [SUCCESS] is returned at once. *)
Fixpoint checkAll (f : Graph -> Result) (gs : list Graph) : Result :=
  match gs with
  | [] => SUCCESS
  | g :: rest =>
      match f g with
      | SUCCESS => checkAll f rest
      | res => res
      end
  end.

Definition set_flags (s : Scheduler) (ch ph cs ps : bool) : Scheduler :=
  mkScheduler (running s) (computeModuleStates s) (presentModuleStates s)
    (validComputeModuleStates s) (validPresentModuleStates s)
    (executionOrder s) (deviceExecutionOrder s) (graphs s)
    ch ph (computeWait s) cs ps.

(** [Scheduler::lockState], called while the compute and present threads are
    between two calls.  The halt flags are raised first; [computeWait.wait(true)]
    returns at once when [computeWait] is lowered and blocks when it is raised:
    the only [computeWait.clear()] is in [compute()], behind the test of
    [computeHalt], which has just been raised, so nothing ends the wait.  Then
    the sync flags are raised around [func] and all four flags are dropped
    after it. *)
Definition lockState (func : Scheduler -> Outcome (Result * Scheduler))
    (s : Scheduler) : Outcome (Result * Scheduler) :=
  if computeWait s then Diverges
  else
    match func (set_flags s true true true true) with
    | Returns (res, s') => Returns (res, set_flags s' false false false false)
    | Diverges => Diverges
    | Undefined => Undefined
    end.

(** The tail shared by the lambdas of [addModule] and [removeModule]:
    "Process modules into graph" and "Initialize graphs". *)
Definition processModules (ex : Executors)
    (queueIter : nat -> list string -> list string) (fuel : nat)
    (s : Scheduler) : Outcome (Result * Scheduler) :=
  match removeInactive s with
  | (SUCCESS, s1) =>
      match arrangeDependencyOrder queueIter fuel s1 with
      | Returns (SUCCESS, s2) =>
          match checkSequenceValidity s2 with
          | SUCCESS =>
              match createExecutionGraphs s2 with
              | (SUCCESS, s3) => Returns (checkAll (graph_create ex) (graphs s3), s3)
              | (res, s3) => Returns (res, s3)
              end
          | res => Returns (res, s2)
          end
      | other => other
      end
  | (res, s1) => Returns (res, s1)
  end.

Definition set_running (s : Scheduler) (b : bool) : Scheduler :=
  mkScheduler b (computeModuleStates s) (presentModuleStates s)
    (validComputeModuleStates s) (validPresentModuleStates s)
    (executionOrder s) (deviceExecutionOrder s) (graphs s)
    (computeHalt s) (presentHalt s) (computeWait s)
    (computeSync s) (presentSync s).

Definition set_states (s : Scheduler) (cms : Map ComputeModuleState)
    (pms : Map PresentModuleState) : Scheduler :=
  mkScheduler (running s) cms pms
    (validComputeModuleStates s) (validPresentModuleStates s)
    (executionOrder s) (deviceExecutionOrder s) (graphs s)
    (computeHalt s) (presentHalt s) (computeWait s)
    (computeSync s) (presentSync s).

(** The four field writes through [computeModuleStates[locale.shash()]]; the
    other fields of an entry that exists already are left as they are.  Its
    active entries are kept as the records they held: [addModule] goes on only
    when each of them is written again by [removeInactive], with the record of
    the new map. *)
Definition registerCompute (cms : Map ComputeModuleState) (name : string)
    (compute : nat) (dev : Device) (inputs outputs : RecordMap)
  : Map ComputeModuleState :=
  let old := at_ cms name in
  assign name
    (mkComputeModuleState compute dev inputs outputs
       (activeInputs old) (activeOutputs old) (clusterId old))
    cms.

(** Whether the activation loop of [removeInactive] writes [active[pin]]: the
    pin is a port of the map and the hash of the port is counted more than
    once. *)
Definition rewritten (valid : DMap Z nat) (ports : RecordMap) (pin : string)
  : bool :=
  existsb (fun e => String.eqb pin (fst e) && (1 <? valid (hash (snd e)))%nat)
    ports.

(** [inputMap = inputMap] and [outputMap = outputMap] on an entry that exists
    already replace the elements its active entries point into.  The entries
    that [removeInactive] writes again point into the new maps; any other
    entry of [old] is left pointing at an element that is gone, and
    [arrangeDependencyOrder] reads through it ([inputMeta->locale.hash()]). *)
Definition staleRecords (old : ComputeModuleState) (cms : Map ComputeModuleState)
    (inputs outputs : RecordMap) : bool :=
  let valid := countAll cms in
  negb (forallb (fun e => rewritten valid inputs (fst e)) (activeInputs old)
        && forallb (fun e => rewritten valid outputs (fst e)) (activeOutputs old)).

(** [Scheduler::addModule].  [name] is [locale.shash()], [dev] is
    [module->device()], [compute] and [present] are the two optional handles.
    Registering a compute module under a key whose entry holds active records
    that the rebuild does not write again reads through pointers to replaced
    elements: the call is outside defined behaviour. *)
Definition addModule (ex : Executors)
    (queueIter : nat -> list string -> list string) (fuel : nat)
    (name : string) (dev : Device) (inputs outputs : RecordMap)
    (compute present : option nat) (s : Scheduler)
  : Outcome (Result * Scheduler) :=
  lockState
    (fun s =>
       match checkAll (graph_destroy ex) (graphs s) with
       | SUCCESS =>
           let pms :=
             match present with
             | Some p =>
                 assign name (mkPresentModuleState p inputs outputs)
                   (presentModuleStates s)
             | None => presentModuleStates s
             end in
           let cms :=
             match compute with
             | Some c =>
                 registerCompute (computeModuleStates s) name c dev inputs outputs
             | None => computeModuleStates s
             end in
           let dangling :=
             match compute with
             | Some _ =>
                 staleRecords (at_ (computeModuleStates s) name) cms inputs outputs
             | None => false
             end in
           if dangling then Undefined
           else processModules ex queueIter fuel (set_states s cms pms)
       | res => Returns (res, s)
       end)
    (set_running s true).

(** The lambda that [removeModule] hands to [lockState]. *)
Definition removeModuleBody (ex : Executors)
    (queueIter : nat -> list string -> list string) (fuel : nat)
    (name : string) (s : Scheduler) : Outcome (Result * Scheduler) :=
  match checkAll (graph_destroy ex) (graphs s) with
  | SUCCESS =>
      processModules ex queueIter fuel
        (set_states s (erase name (computeModuleStates s))
           (erase name (presentModuleStates s)))
  | res => Returns (res, s)
  end.

(** [Scheduler::removeModule]. *)
Definition removeModule (ex : Executors)
    (queueIter : nat -> list string -> list string) (fuel : nat)
    (name : string) (s : Scheduler) : Outcome (Result * Scheduler) :=
  if negb (running s) then Returns (SUCCESS, s)
  else lockState (removeModuleBody ex queueIter fuel name) s.

(** [Scheduler::destroy]. *)
Definition destroy (ex : Executors) (s : Scheduler) : Outcome (Result * Scheduler) :=
  lockState
    (fun s =>
       let s1 := set_running s false in
       match checkAll (graph_destroy ex) (graphs s1) with
       | SUCCESS =>
           Returns (SUCCESS,
                    mkScheduler false [] [] [] [] [] [] []
                      (computeHalt s1) (presentHalt s1) (computeWait s1)
                      (computeSync s1) (presentSync s1))
       | res => Returns (res, s1)
       end)
    s.

(** ** [Scheduler::compute] *)

(** One walk of the readiness loop, from the label [wait]: [TIMEOUT] asks for
    a restart, any other failure leaves [compute()].  [poll] counts the calls
    of [computeReady]. *)
Fixpoint readyPass (ex : Executors) (poll : nat) (gs : list Graph)
  : Result * nat :=
  match gs with
  | [] => (SUCCESS, poll)
  | g :: rest =>
      match graph_computeReady ex poll g with
      | SUCCESS => readyPass ex (S poll) rest
      | res => (res, S poll)
      end
  end.

Fixpoint readinessBarrier (ex : Executors) (fuel poll : nat) (gs : list Graph)
  : option Result :=
  match readyPass ex poll gs with
  | (TIMEOUT, poll') =>
      match fuel with
      | O => None
      | S fuel' => readinessBarrier ex fuel' poll' gs
      end
  | (res, _) => Some res
  end.

(** The compute pass: [graph->compute()] in order, stopping at the first
    result that is not [SUCCESS]. *)
Fixpoint computePass (ex : Executors) (gs : list Graph) : Result :=
  match gs with
  | [] => SUCCESS
  | g :: rest =>
      match graph_compute ex g with
      | SUCCESS => computePass ex rest
      | res => res
      end
  end.

Definition set_computeWait (s : Scheduler) (b : bool) : Scheduler :=
  mkScheduler (running s) (computeModuleStates s) (presentModuleStates s)
    (validComputeModuleStates s) (validPresentModuleStates s)
    (executionOrder s) (deviceExecutionOrder s) (graphs s)
    (computeHalt s) (presentHalt s) b (computeSync s) (presentSync s).

(** [Scheduler::compute], seen from the compute thread alone. *)
Definition compute (ex : Executors) (fuel : nat) (s : Scheduler)
  : Outcome (Result * Scheduler) :=
  if isEmpty (graphs s) then Returns (SUCCESS, s)
  else if computeHalt s then Returns (SUCCESS, s)
  else
    match readinessBarrier ex fuel 0 (graphs s) with
    | None => Diverges
    | Some SUCCESS =>
        let s' := set_computeWait s false in
        match computePass ex (graphs s) with
        | SUCCESS => Returns (SUCCESS, s')
        | TIMEOUT | SKIP => Returns (SUCCESS, s')
        | res => Returns (res, s')
        end
    | Some res => Returns (res, set_computeWait s true)
    end.

(** What [compute()] returns once the readiness barrier has let it through. *)
Definition classify (res : Result) : Result :=
  match res with
  | TIMEOUT | SKIP => SUCCESS
  | other => other
  end.

(** ** Concrete pipelines used by the examples *)

Definition allSuccess : Executors :=
  mkExecutors (fun _ => SUCCESS) (fun _ => SUCCESS)
    (fun _ _ => SUCCESS) (fun _ => SUCCESS).

(** The ready set visited in insertion order. *)
Definition insertionOrder (k : nat) (q : list string) : list string := q.

Definition resultOf {A : Type} (o : Outcome (Result * A)) : option Result :=
  match o with
  | Returns (res, _) => Some res
  | _ => None
  end.

Definition stateOf (o : Outcome (Result * Scheduler)) : Scheduler :=
  match o with
  | Returns (_, s) => s
  | _ => emptyScheduler
  end.

Definition addCompute (name : string) (dev : Device) (inputs outputs : RecordMap)
    (s : Scheduler) : Outcome (Result * Scheduler) :=
  addModule allSuccess insertionOrder 64 name dev inputs outputs
    (Some (String.length name)) None s.

(** A(CPU) -> B(CUDA) -> C(CPU): the tensor of hash 10 leaves A at locale 100,
    the tensor of hash 20 leaves B at locale 200. *)
Definition chainAB : Scheduler :=
  stateOf
    (addCompute "B" Device_CUDA [("in", mkRecord 10 100)] [("out", mkRecord 20 200)]
       (stateOf
          (addCompute "A" Device_CPU [] [("out", mkRecord 10 100)] emptyScheduler))).

Definition chainABC : Scheduler :=
  stateOf (addCompute "C" Device_CPU [("in", mkRecord 20 200)] [] chainAB).

(** X and Y feed each other; X alone is stale, adding Y closes the cycle. *)
Definition withX (s : Scheduler) : Scheduler :=
  stateOf
    (addCompute "X" Device_CPU [("in", mkRecord 2 20)] [("out", mkRecord 1 10)] s).

Definition addY (s : Scheduler) : Outcome (Result * Scheduler) :=
  addCompute "Y" Device_CPU [("in", mkRecord 1 10)] [("out", mkRecord 2 20)] s.

(** An executor that is never ready: [computeReady] fails, [compute] would
    succeed. *)
Definition failsReady : Executors :=
  mkExecutors (fun _ => SUCCESS) (fun _ => SUCCESS)
    (fun _ _ => ERROR) (fun _ => SUCCESS).

(** Executors whose [compute] answers by device. *)
Definition byDevice (cpu cuda : Result) : Executors :=
  mkExecutors (fun _ => SUCCESS) (fun _ => SUCCESS) (fun _ _ => SUCCESS)
    (fun g =>
       match graph_device g with
       | Device_CPU => cpu
       | Device_CUDA => cuda
       | _ => SUCCESS
       end).

(** An executor that refuses to be destroyed. *)
Definition failsDestroy : Executors :=
  mkExecutors (fun _ => ERROR) (fun _ => SUCCESS)
    (fun _ _ => SUCCESS) (fun _ => SUCCESS).

(** A pipeline written down directly: A(CPU) -> B(CUDA) -> C(CPU) and,
    unconnected to it, P(CPU) -> Q(CPU); U has a single unconnected port. *)
Definition freshState (handle : nat) (dev : Device) (inputs outputs : RecordMap)
  : ComputeModuleState :=
  mkComputeModuleState handle dev inputs outputs [] [] 0.

Definition rawPipeline : Scheduler :=
  set_states emptyScheduler
    [("A", freshState 1 Device_CPU [] [("out", mkRecord 10 100)]);
     ("B", freshState 2 Device_CUDA
             [("in", mkRecord 10 100)] [("out", mkRecord 20 200)]);
     ("C", freshState 3 Device_CPU [("in", mkRecord 20 200)] []);
     ("P", freshState 4 Device_CPU [] [("out", mkRecord 30 300)]);
     ("Q", freshState 5 Device_CPU [("in", mkRecord 30 300)] []);
     ("U", freshState 6 Device_CPU [("in", mkRecord 40 400)] [])]
    [].

Definition prunedPipeline : Scheduler := snd (removeInactive rawPipeline).

Definition orderedPipeline : Scheduler :=
  stateOf (arrangeDependencyOrder insertionOrder 64 prunedPipeline).

(** M hands N a tensor whose record hash is zero. *)
Definition zeroHashPipeline : Scheduler :=
  set_states emptyScheduler
    [("M", freshState 1 Device_CPU [] [("out", mkRecord 0 1)]);
     ("N", freshState 2 Device_CPU [("in", mkRecord 0 1)] [])]
    [].

(** The valid modules of [prunedPipeline]. *)
Definition pipelineStates : Map ComputeModuleState :=
  validComputeModuleStates prunedPipeline.

(** Two connected modules, the first of which is registered under the empty
    key. *)
Definition namelessStates : Map ComputeModuleState :=
  validComputeModuleStates
    (snd (removeInactive
            (set_states emptyScheduler
               [("", freshState 1 Device_CPU [] [("out", mkRecord 5 50)]);
                ("Z", freshState 2 Device_CPU [("in", mkRecord 5 50)] [])]
               []))).

(** Two modules, X and Y, that both declare an active output at locale hash 1,
    read by M. *)
Definition twoProducers : Scheduler :=
  snd (removeInactive
         (set_states emptyScheduler
            [("X", freshState 1 Device_CPU [] [("out", mkRecord 7 1)]);
             ("Y", freshState 2 Device_CPU [] [("out", mkRecord 7 1)]);
             ("M", freshState 3 Device_CPU [("in", mkRecord 7 1)] [])]
            [])).

(** The ready set visited in insertion order on even passes, backwards on odd
    ones. *)
Definition alternating (k : nat) (q : list string) : list string :=
  if Nat.even k then q else rev q.

(** [prunedPipeline] with the entry of B erased: the tensor of hash 10 is then
    carried by the output of A alone. *)
Definition withoutB : Scheduler :=
  set_states prunedPipeline (erase "B" (computeModuleStates prunedPipeline)) [].

(** Two present modules and no compute module. *)
Definition presenting : Scheduler :=
  snd (removeInactive
         (set_states emptyScheduler []
            [("V", mkPresentModuleState 7 [] []);
             ("W", mkPresentModuleState 8 [] [])])).

(** The present module of handle 8 asks to skip the frame. *)
Definition skipsEight (handle : nat) : Result :=
  if (handle =? 8)%nat then SKIP else SUCCESS.

(** The pipeline A -> B -> C pruned again after the entry of B is erased: C
    still lists its input at locale 200 as active, and nothing produces it. *)
Definition danglingC : Scheduler :=
  snd (removeInactive
         (set_states chainABC (erase "B" (computeModuleStates chainABC)) [])).

(** X and Y feed each other. *)
Definition cycleXY : Scheduler :=
  snd (removeInactive
         (set_states emptyScheduler
            [("X", freshState 1 Device_CPU
                     [("in", mkRecord 2 20)] [("out", mkRecord 1 10)]);
             ("Y", freshState 2 Device_CPU
                     [("in", mkRecord 1 10)] [("out", mkRecord 2 20)])]
            [])).

(** The maps on which [removeInactive] runs when C is added to A -> B: B comes
    with its input active and its output, which nothing read so far, not. *)
Definition addingC : Scheduler :=
  set_states chainAB
    (registerCompute (computeModuleStates chainAB) "C" 1 Device_CPU
       [("in", mkRecord 20 200)] [])
    (presentModuleStates chainAB).

(** ** Predicates used to state the properties *)

(** The device and the cluster id of a module, as phase 4 reads them. *)
Definition tagOf (vs : Map ComputeModuleState) (name : string) : Device * Z :=
  (device (at_ vs name), clusterId (at_ vs name)).

(** An entry of [deviceExecutionOrder] is a non-empty run whose modules all
    carry the entry's device and one common cluster id. *)
Definition uniformRun (vs : Map ComputeModuleState) (e : Device * list string)
  : Prop :=
  snd e <> []
  /\ Forall
       (fun name =>
          device (at_ vs name) = fst e
          /\ clusterId (at_ vs name) = clusterId (at_ vs (hd "" (snd e))))
       (snd e).

(** The device of an entry and the cluster of its modules. *)
Definition runKey (vs : Map ComputeModuleState) (e : Device * list string)
  : Device * Z :=
  (fst e, clusterId (at_ vs (hd "" (snd e)))).

(** No two neighbours of the list are equal. *)
Fixpoint adjacentDiffer {A : Type} (l : list A) : Prop :=
  match l with
  | x :: (y :: _) as rest => x <> y /\ adjacentDiffer rest
  | _ => True
  end.

(** The number of ports of one map that carry the record hash [h]. *)
Definition occurrencesIn (h : Z) (m : RecordMap) : nat :=
  length (filter (fun p => hash (snd p) =? h) m).

(** The number of ports, over the inputs and outputs of every compute module,
    that carry the record hash [h]. *)
Definition occurrences (cms : Map ComputeModuleState) (h : Z) : nat :=
  list_sum
    (map (fun e => (occurrencesIn h (inputMap (snd e))
                    + occurrencesIn h (outputMap (snd e)))%nat)
       cms).

(** A port is connected when its hash is not zero and at least two ports carry
    it. *)
Definition connected (cms : Map ComputeModuleState) (meta : Record_) : bool :=
  negb (hash meta =? 0) && (1 <? occurrences cms (hash meta))%nat.

(** What the activation loop leaves under [pin] in an active map: the port of
    that pin when the port is connected, and otherwise what was there. *)
Definition activeAfter (cms : Map ComputeModuleState) (ports active : RecordMap)
    (pin : string) : option Record_ :=
  match find pin ports with
  | Some meta => if connected cms meta then Some meta else find pin active
  | None => find pin active
  end.

(** The keys of the two port maps of a module are pairwise distinct. *)
Definition distinctPins (state : ComputeModuleState) : Prop :=
  NoDup (keys (inputMap state)) /\ NoDup (keys (outputMap state)).

(** The locale hashes of the active inputs / outputs of a valid module. *)
Definition inLhs (vs : Map ComputeModuleState) (name : string) : list Z :=
  map (fun p => localeHash (snd p)) (activeInputs (at_ vs name)).

Definition outLhs (vs : Map ComputeModuleState) (name : string) : list Z :=
  map (fun p => localeHash (snd p)) (activeOutputs (at_ vs name)).

(** The modules whose degree is decremented, one entry per decrement, when
    [name] is scheduled. *)
Definition targets (vs : Map ComputeModuleState) (name : string) : list string :=
  flat_map (buildInputCache vs) (outLhs vs name).

(** The number of decrements [name] has received once the modules of [done]
    are scheduled. *)
Definition decrements (vs : Map ComputeModuleState) (done : list string)
    (name : string) : nat :=
  count_occ string_dec (flat_map (targets vs) done) name.

(** The 64-bit counters of the ordering loop are wide enough: the number of
    active inputs of a module, and the number of decrements it can receive
    when every module is scheduled once, are below [2^64]. *)
Definition fitsU64 (vs : Map ComputeModuleState) : Prop :=
  forall name,
    In name (keys vs) ->
    Z.of_nat (length (activeInputs (at_ vs name))) < 2 ^ 64
    /\ Z.of_nat (decrements vs (keys vs) name) < 2 ^ 64.

(** The number of active inputs of every valid module is a 64-bit size. *)
Definition sizesFitU64 (vs : Map ComputeModuleState) : Prop :=
  forall name,
    In name (keys vs) ->
    Z.of_nat (length (activeInputs (at_ vs name))) < 2 ^ 64.

(** One producer per locale hash: no locale hash sits on two active outputs of
    the valid modules. *)
Definition uniqueProducers (vs : Map ComputeModuleState) : Prop :=
  NoDup (flat_map (outLhs vs) (keys vs)).

(** [before l x y]: [x] occurs in [l] strictly before an occurrence of [y]. *)
Definition before (l : list string) (x y : string) : Prop :=
  exists pre post, l = pre ++ y :: post /\ In x pre.

(** The initial degree of a module: the number of its active inputs. *)
Definition degreeOf (vs : Map ComputeModuleState) (name : string) : Z :=
  Z.of_nat (length (activeInputs (at_ vs name))).

(** The invariant of the ordering loop.  The modules scheduled so far and the
    ready modules are distinct valid modules; the counter of a module is its
    initial degree less the decrements received so far; a module is ready or
    scheduled exactly when it has received as many decrements as it has
    active inputs. *)
Record orderInv (vs : Map ComputeModuleState) (st : OrderState) : Prop :=
  mkOrderInv {
    inv_order_nodup : NoDup (order st);
    inv_queue_nodup : NoDup (queue st);
    inv_disjoint : forall x, In x (queue st) -> ~ In x (order st);
    inv_keys : forall x, In x (queue st) \/ In x (order st) -> In x (keys vs);
    inv_degrees :
      forall x, In x (keys vs) ->
        degrees st x
        = wrap64 (degreeOf vs x - Z.of_nat (decrements vs (order st) x));
    inv_ready :
      forall x, In x (keys vs) ->
        (In x (queue st) \/ In x (order st))
        <-> degreeOf vs x <= Z.of_nat (decrements vs (order st) x)
  }.

(** The pass that finds no module on [lastDevice]: the device is reset. *)
Definition resetOf (st : OrderState) : OrderState :=
  mkOrderState (queue st) (degrees st) Device_None (order st).

(** The pass from [st] to [st'] schedules a ready module: it is appended to
    the order and is no longer ready. *)
Definition selects (st st' : OrderState) : Prop :=
  exists name,
    In name (queue st)
    /\ order st' = order st ++ [name]
    /\ ~ In name (queue st').

(** What bounds the passes left: two per module still to schedule, one more
    while a device is being followed. *)
Definition passesLeft (vs : Map ComputeModuleState) (st : OrderState) : nat :=
  2 * (length vs - length (order st))
  + (if Device_eqb (lastDevice st) Device_None then 0 else 1).

(** Membership of a locale hash in a list of locale hashes. *)
Definition memZ (l : list Z) (x : Z) : bool := existsb (Z.eqb x) l.

(** Every module of the order comes after modules that produce all its active
    inputs. *)
Definition topoInv (vs : Map ComputeModuleState) (st : OrderState) : Prop :=
  forall pre name post lh,
    order st = pre ++ name :: post ->
    In lh (inLhs vs name) ->
    exists producer, In producer pre /\ In lh (outLhs vs producer).

(** What the split loop maintains: the entries built so far are uniform runs
    that spell the modules walked so far, neighbouring entries differ in
    device or cluster, and [lastDevice] / [lastCluster] are those of the last
    entry. *)
Definition splitInv (vs : Map ComputeModuleState) (done : list string)
    (st : SplitState) : Prop :=
  concat (map snd (split_deo st)) = done
  /\ Forall (uniformRun vs) (split_deo st)
  /\ adjacentDiffer (map (runKey vs) (split_deo st))
  /\ ((split_deo st = [] /\ split_lastDevice st = Device_None
       /\ split_lastCluster st = 0)
      \/ exists front e,
           split_deo st = front ++ [e]
           /\ runKey vs e = (split_lastDevice st, split_lastCluster st)).

(** The consumers of a locale hash, one entry per active input that reads it. *)
Definition consumersOf (lh : Z) (e : string * ComputeModuleState) : list string :=
  map (fun _ => fst e)
    (filter (fun p => localeHash (snd p) =? lh) (activeInputs (snd e))).

(** [dependsOn vs producer consumer]: a valid module has an active input whose
    locale hash [moduleOutputCache] attributes to [producer]. *)
Definition dependsOn (vs : Map ComputeModuleState) (producer consumer : string)
  : Prop :=
  In consumer (keys vs)
  /\ exists pin meta,
       In (pin, meta) (activeInputs (at_ vs consumer))
       /\ buildOutputCache vs (localeHash meta) = producer.

(** A chain of dependencies from [a] to [b], of one link at least. *)
Inductive dependsChain (vs : Map ComputeModuleState) : string -> string -> Prop :=
| chain_link a b : dependsOn vs a b -> dependsChain vs a b
| chain_step a b c : dependsOn vs a b -> dependsChain vs b c -> dependsChain vs a c.

(** ** [Scheduler::present] *)

(** The loop over [validPresentModuleStates]: [JST_CHECK(state.module->present())],
    [pr] giving the result of [present()] per module handle. *)
Fixpoint presentPass (pr : nat -> Result) (ms : Map PresentModuleState) : Result :=
  match ms with
  | [] => SUCCESS
  | e :: rest =>
      match pr (present_module (snd e)) with
      | SUCCESS => presentPass pr rest
      | res => res
      end
  end.

Definition set_presentSync (s : Scheduler) (b : bool) : Scheduler :=
  mkScheduler (running s) (computeModuleStates s) (presentModuleStates s)
    (validComputeModuleStates s) (validPresentModuleStates s)
    (executionOrder s) (deviceExecutionOrder s) (graphs s)
    (computeHalt s) (presentHalt s) (computeWait s) (computeSync s) b.

(** [Scheduler::present], seen from the present thread alone: [presentSync]
    is raised before the loop and lowered after it; the [JST_CHECK] inside the
    loop returns from the function with the flag still raised. *)
Definition present (pr : nat -> Result) (s : Scheduler) : Result * Scheduler :=
  if isEmpty (validPresentModuleStates s) then (SUCCESS, s)
  else if presentHalt s then (SUCCESS, s)
  else
    match presentPass pr (validPresentModuleStates s) with
    | SUCCESS => (SUCCESS, set_presentSync s false)
    | res => (res, set_presentSync s true)
    end.

(** ** [Scheduler::drawDebugMessage] *)

(** The values the five rows show: the number of graphs, the number of stale
    blocks (an unsigned difference of two sizes), the numbers of present and
    compute blocks, and per entry of [deviceExecutionOrder] the printed index,
    the device and the number of blocks.  [count] is never incremented in the
    source. *)
Record DebugRows : Type := mkDebugRows {
  debug_pipeline : nat;
  debug_stale : Z;
  debug_present : nat;
  debug_compute : nat;
  debug_graphs : list (Z * Device * nat)
}.

Definition drawDebugMessage (s : Scheduler) : DebugRows :=
  let count := 0 in
  mkDebugRows
    (length (graphs s))
    (wrap64 (Z.of_nat (length (computeModuleStates s))
             - Z.of_nat (length (validComputeModuleStates s))))
    (length (validPresentModuleStates s))
    (length (validComputeModuleStates s))
    (map (fun e => (count, fst e, length (snd e))) (deviceExecutionOrder s)).

(** ** Predicates for the executor assembly *)

(** The two wired sets of a graph are strictly increasing lists. *)
Definition wiredSorted (g : Graph) : Prop :=
  StronglySorted Z.lt (wiredInputs g) /\ StronglySorted Z.lt (wiredOutputs g).

(** What the dependency loop does to a graph other than the first. *)
Definition linkOne (wiredOutputsOfFirst : list Z) (currentGraph : Graph) : Graph :=
  fold_left (fun g item => setExternallyWiredInput item g)
    (set_intersection wiredOutputsOfFirst (wiredInputs currentGraph))
    currentGraph.

(** ** Predicates for the cluster phase *)

(** The cluster id a map of states gives to a name. *)
Definition clusterOf (vs : Map ComputeModuleState) (name : string) : Z :=
  clusterId (at_ vs name).

(** The neighbours the stack walk pushes: those not visited yet. *)
Definition pushNeighbors (visited : list string) (neighbors stack : list string)
  : list string :=
  fold_left
    (fun stack neighbor =>
       if sset_contains neighbor visited then stack else neighbor :: stack)
    neighbors stack.

(** What a stack walk maintains, [visited0] and [vs0] being the visited set
    and the states at its start and [c] its cluster: the modules visited by
    this walk have cluster [c], the others keep their cluster, and every
    neighbour of a module visited by this walk is visited or on the stack. *)
Definition walkInv (edges : DMap string (list string)) (visited0 : list string)
    (vs0 : Map ComputeModuleState) (c : Z)
    (stack visited : list string) (vs : Map ComputeModuleState) : Prop :=
  incl visited0 visited
  /\ (forall x, In x visited -> ~ In x visited0 -> clusterOf vs x = c)
  /\ (forall x, In x visited0 -> clusterOf vs x = clusterOf vs0 x)
  /\ (forall w n, In w visited -> ~ In w visited0 -> In n (edges w) ->
                  In n visited \/ In n stack).

(** The visited modules are closed under the edges and neighbours share their
    cluster. *)
Definition clustersClosed (edges : DMap string (list string))
    (visited : list string) (vs : Map ComputeModuleState) : Prop :=
  forall w n, In w visited -> In n (edges w) ->
              In n visited /\ clusterOf vs n = clusterOf vs w.

(** A state with its cluster id blanked: what phase 3 must not change. *)
Definition eraseCluster (e : string * ComputeModuleState)
  : string * ComputeModuleState :=
  (fst e, setClusterId (snd e) 0).

(** ** The three threads

    [compute()], [present()] and [lockState()] run on three threads over one
    scheduler object.  Each call is cut into the statements that read or write
    the shared flags, the mutex or the maps; a thread is at the statement it
    executes next, and a step executes that statement.  A statement that
    waits ([wait(true)] on a raised flag, [lock()] on a held mutex) has no
    step while it has to wait; a thread parked in the wait of a condition
    variable goes on once the mutex is free and tests its condition again, as
    a wait may wake at any time.  The calls into the executors of one walk
    over [graphs] are taken together, the scheduler touching no flag between
    them, and so is the run of [func], which has the mutex and both sync
    flags.  The notifications change no flag and are left out. *)

Inductive Thread : Type :=
| ComputeThread
| PresentThread
| MutatingThread.

(** The statements of [Scheduler::compute]. *)
Inductive ComputePc : Type :=
| CIdle                     (* between two calls *)
| CTestEmpty                (* [if (graphs.empty())] *)
| CTestHalt                 (* [if (computeHalt.test())] *)
| CHalted                   (* [computeHalt.wait(true)] *)
| CRaiseWait                (* [computeWait.test_and_set()] *)
| CReadiness                (* the loop of [computeReady()], from [wait:] *)
| CClearWait                (* [computeWait.clear()] *)
| CLock                     (* [std::unique_lock lock(sharedMutex)] *)
| CAwaitPresent             (* [computeCond.wait(lock, !presentSync)], mutex held *)
| CParked                   (* inside that wait, mutex released *)
| CRaiseSync                (* [computeSync = true] *)
| CPass                     (* the loop of [graph->compute()] *)
| CLowerSync (res : Result) (* [computeSync = false] *)
| CUnlock (res : Result).   (* the end of the scope of [lock] *)

(** The statements of [Scheduler::present]. *)
Inductive PresentPc : Type :=
| PIdle
| PTestEmpty                (* [if (validPresentModuleStates.empty())] *)
| PTestHalt                 (* [if (presentHalt.test())] *)
| PRaiseSync                (* [presentSync = true] *)
| PLock                     (* [std::unique_lock lock(sharedMutex)] *)
| PAwaitCompute             (* [presentCond.wait(lock, !computeSync)], mutex held *)
| PParked                   (* inside that wait, mutex released *)
| PPass                     (* the loop of [state.module->present()] *)
| PLowerSync                (* [presentSync = false] *)
| PUnlock.                  (* the end of the scope of [lock] *)

(** The statements of [Scheduler::lockState]. *)
Inductive MutatePc : Type :=
| MIdle
| MRaiseComputeHalt         (* [computeHalt.test_and_set()] *)
| MRaisePresentHalt         (* [presentHalt.test_and_set()] *)
| MAwaitCompute             (* [computeWait.wait(true)] *)
| MLock                     (* [sharedMutex.lock()] *)
| MRaisePresentSync         (* [presentSync = true] *)
| MRaiseComputeSync         (* [computeSync = true] *)
| MFunc                     (* [Result res = func()] *)
| MLowerComputeSync (res : Result)
| MLowerPresentSync (res : Result)
| MUnlock (res : Result)    (* [sharedMutex.unlock()] *)
| MClearComputeHalt (res : Result)
| MClearPresentHalt (res : Result).

(** What an observer of the three threads sees, in the order it happens. *)
Inductive Event : Type :=
| ComputeEnters
| ComputePolls (polled : list Graph)  (* one walk of [computeReady()] over these *)
| ComputeRuns (ran : list Graph)      (* the pass of [compute()] over these *)
| ComputeLeaves (res : Result)
| PresentEnters
| PresentRuns
| PresentLeaves (res : Result)
| MutationEnters
| MutationRuns                        (* [func()] *)
| MutationLeaves (res : Result).

Record World : Type := mkWorld {
  shared : Scheduler;
  mutex : option Thread;       (* the owner of [sharedMutex] *)
  pcC : ComputePc;
  pcP : PresentPc;
  pcM : MutatePc;
  polls : nat;                 (* calls of [computeReady()] in this call *)
  trace : list Event
}.

Definition set_shared (w : World) (s : Scheduler) : World :=
  mkWorld s (mutex w) (pcC w) (pcP w) (pcM w) (polls w) (trace w).

Definition set_mutex (w : World) (m : option Thread) : World :=
  mkWorld (shared w) m (pcC w) (pcP w) (pcM w) (polls w) (trace w).

Definition set_pcC (w : World) (pc : ComputePc) : World :=
  mkWorld (shared w) (mutex w) pc (pcP w) (pcM w) (polls w) (trace w).

Definition set_pcP (w : World) (pc : PresentPc) : World :=
  mkWorld (shared w) (mutex w) (pcC w) pc (pcM w) (polls w) (trace w).

Definition set_pcM (w : World) (pc : MutatePc) : World :=
  mkWorld (shared w) (mutex w) (pcC w) (pcP w) pc (polls w) (trace w).

Definition set_polls (w : World) (n : nat) : World :=
  mkWorld (shared w) (mutex w) (pcC w) (pcP w) (pcM w) n (trace w).

Definition observe (w : World) (e : Event) : World :=
  mkWorld (shared w) (mutex w) (pcC w) (pcP w) (pcM w) (polls w) (trace w ++ [e]).

Definition set_computeHalt (s : Scheduler) (b : bool) : Scheduler :=
  set_flags s b (presentHalt s) (computeSync s) (presentSync s).

Definition set_presentHalt (s : Scheduler) (b : bool) : Scheduler :=
  set_flags s (computeHalt s) b (computeSync s) (presentSync s).

Definition set_computeSync (s : Scheduler) (b : bool) : Scheduler :=
  set_flags s (computeHalt s) (presentHalt s) b (presentSync s).

(** [lock()]: taken when the mutex is free, otherwise the thread waits. *)
Definition acquire (t : Thread) (w : World) : option World :=
  match mutex w with
  | None => Some (set_mutex w (Some t))
  | Some _ => None
  end.

(** One statement of [Scheduler::compute]. *)
Definition stepCompute (ex : Executors) (w : World) : option World :=
  let s := shared w in
  match pcC w with
  | CIdle => Some (observe (set_pcC w CTestEmpty) ComputeEnters)
  | CTestEmpty =>
      if isEmpty (graphs s)
      then Some (observe (set_pcC w CIdle) (ComputeLeaves SUCCESS))
      else Some (set_pcC w CTestHalt)
  | CTestHalt =>
      if computeHalt s then Some (set_pcC w CHalted)
      else Some (set_pcC w CRaiseWait)
  | CHalted =>
      if computeHalt s then None
      else Some (observe (set_pcC w CIdle) (ComputeLeaves SUCCESS))
  | CRaiseWait =>
      Some (set_polls (set_pcC (set_shared w (set_computeWait s true)) CReadiness)
              0%nat)
  | CReadiness =>
      match readyPass ex (polls w) (graphs s) with
      | (SUCCESS, n) =>
          Some (observe (set_polls (set_pcC w CClearWait) n)
                  (ComputePolls (graphs s)))
      | (TIMEOUT, n) =>
          Some (observe (set_polls w n) (ComputePolls (graphs s)))
      | (res, n) =>
          Some (observe
                  (observe (set_polls (set_pcC w CIdle) n)
                     (ComputePolls (graphs s)))
                  (ComputeLeaves res))
      end
  | CClearWait =>
      Some (set_pcC (set_shared w (set_computeWait s false)) CLock)
  | CLock => acquire ComputeThread (set_pcC w CAwaitPresent)
  | CAwaitPresent =>
      if presentSync s then Some (set_mutex (set_pcC w CParked) None)
      else Some (set_pcC w CRaiseSync)
  | CParked => acquire ComputeThread (set_pcC w CAwaitPresent)
  | CRaiseSync => Some (set_pcC (set_shared w (set_computeSync s true)) CPass)
  | CPass =>
      Some (observe (set_pcC w (CLowerSync (computePass ex (graphs s))))
              (ComputeRuns (graphs s)))
  | CLowerSync res =>
      Some (set_pcC (set_shared w (set_computeSync s false)) (CUnlock res))
  | CUnlock res =>
      Some (observe (set_mutex (set_pcC w CIdle) None)
              (ComputeLeaves (classify res)))
  end.

(** One statement of [Scheduler::present]; the [JST_CHECK] inside the loop
    leaves the function, which unlocks the mutex and leaves [presentSync] as
    it is. *)
Definition stepPresent (pr : nat -> Result) (w : World) : option World :=
  let s := shared w in
  match pcP w with
  | PIdle => Some (observe (set_pcP w PTestEmpty) PresentEnters)
  | PTestEmpty =>
      if isEmpty (validPresentModuleStates s)
      then Some (observe (set_pcP w PIdle) (PresentLeaves SUCCESS))
      else Some (set_pcP w PTestHalt)
  | PTestHalt =>
      if presentHalt s
      then Some (observe (set_pcP w PIdle) (PresentLeaves SUCCESS))
      else Some (set_pcP w PRaiseSync)
  | PRaiseSync => Some (set_pcP (set_shared w (set_presentSync s true)) PLock)
  | PLock => acquire PresentThread (set_pcP w PAwaitCompute)
  | PAwaitCompute =>
      if computeSync s then Some (set_mutex (set_pcP w PParked) None)
      else Some (set_pcP w PPass)
  | PParked => acquire PresentThread (set_pcP w PAwaitCompute)
  | PPass =>
      match presentPass pr (validPresentModuleStates s) with
      | SUCCESS => Some (observe (set_pcP w PLowerSync) PresentRuns)
      | res =>
          Some (observe
                  (observe (set_mutex (set_pcP w PIdle) None) PresentRuns)
                  (PresentLeaves res))
      end
  | PLowerSync => Some (set_pcP (set_shared w (set_presentSync s false)) PUnlock)
  | PUnlock =>
      Some (observe (set_mutex (set_pcP w PIdle) None) (PresentLeaves SUCCESS))
  end.

(** One statement of [Scheduler::lockState]; [func] is the lambda it is given.
    A [func] that does not return leaves the thread where it is. *)
Definition stepMutate (func : Scheduler -> Outcome (Result * Scheduler))
    (w : World) : option World :=
  let s := shared w in
  match pcM w with
  | MIdle => Some (observe (set_pcM w MRaiseComputeHalt) MutationEnters)
  | MRaiseComputeHalt =>
      Some (set_pcM (set_shared w (set_computeHalt s true)) MRaisePresentHalt)
  | MRaisePresentHalt =>
      Some (set_pcM (set_shared w (set_presentHalt s true)) MAwaitCompute)
  | MAwaitCompute =>
      if computeWait s then None else Some (set_pcM w MLock)
  | MLock => acquire MutatingThread (set_pcM w MRaisePresentSync)
  | MRaisePresentSync =>
      Some (set_pcM (set_shared w (set_presentSync s true)) MRaiseComputeSync)
  | MRaiseComputeSync =>
      Some (set_pcM (set_shared w (set_computeSync s true)) MFunc)
  | MFunc =>
      match func s with
      | Returns (res, s') =>
          Some (observe (set_pcM (set_shared w s') (MLowerComputeSync res))
                  MutationRuns)
      | _ => None
      end
  | MLowerComputeSync res =>
      Some (set_pcM (set_shared w (set_computeSync s false)) (MLowerPresentSync res))
  | MLowerPresentSync res =>
      Some (set_pcM (set_shared w (set_presentSync s false)) (MUnlock res))
  | MUnlock res => Some (set_pcM (set_mutex w None) (MClearComputeHalt res))
  | MClearComputeHalt res =>
      Some (set_pcM (set_shared w (set_computeHalt s false)) (MClearPresentHalt res))
  | MClearPresentHalt res =>
      Some (observe (set_pcM (set_shared w (set_presentHalt s false)) MIdle)
              (MutationLeaves res))
  end.

(** What the three threads run: the executors, the present modules and the
    lambda handed to [lockState]. *)
Record Programs : Type := mkPrograms {
  executors : Executors;
  presenters : nat -> Result;
  mutation : Scheduler -> Outcome (Result * Scheduler)
}.

Definition step (p : Programs) (t : Thread) (w : World) : option World :=
  match t with
  | ComputeThread => stepCompute (executors p) w
  | PresentThread => stepPresent (presenters p) w
  | MutatingThread => stepMutate (mutation p) w
  end.

(** The thread chosen executes its statement, or stays where it is when the
    statement has to wait. *)
Definition exec (p : Programs) (w : World) (t : Thread) : World :=
  match step p t w with
  | Some w' => w'
  | None => w
  end.

(** An interleaving: the threads take turns as the schedule says. *)
Definition run (p : Programs) (schedule : list Thread) (w : World) : World :=
  fold_left (exec p) schedule w.

(** All three threads between two calls, the mutex free. *)
Definition idleWorld (s : Scheduler) : World :=
  mkWorld s None CIdle PIdle MIdle 0%nat [].

(** The statements at which a thread owns the mutex. *)
Definition holdsC (pc : ComputePc) : bool :=
  match pc with
  | CAwaitPresent | CRaiseSync | CPass | CLowerSync _ | CUnlock _ => true
  | _ => false
  end.

Definition holdsP (pc : PresentPc) : bool :=
  match pc with
  | PAwaitCompute | PPass | PLowerSync | PUnlock => true
  | _ => false
  end.

Definition holdsM (pc : MutatePc) : bool :=
  match pc with
  | MRaisePresentSync | MRaiseComputeSync | MFunc
  | MLowerComputeSync _ | MLowerPresentSync _ | MUnlock _ => true
  | _ => false
  end.

(** The compute pass: the statements of [compute()] at which it has raised
    [computeSync]. *)
Definition inComputePass (w : World) : bool :=
  match pcC w with
  | CPass | CLowerSync _ => true
  | _ => false
  end.

(** The present pass: the statements of [present()] at which it has raised
    [presentSync] and holds the mutex. *)
Definition inPresentPass (w : World) : bool :=
  match pcP w with
  | PAwaitCompute | PPass | PLowerSync => true
  | _ => false
  end.

(** The mutation: the statements of [lockState()] from the lock to the
    unlock. *)
Definition inMutation (w : World) : bool := holdsM (pcM w).

(** The mutex has the owner that the places of the threads say. *)
Definition lockInv (w : World) : Prop :=
  (holdsC (pcC w) = true <-> mutex w = Some ComputeThread)
  /\ (holdsP (pcP w) = true <-> mutex w = Some PresentThread)
  /\ (holdsM (pcM w) = true <-> mutex w = Some MutatingThread).

(** A call of [compute()] straddles a call of [lockState()]: it polls its
    executors, the whole of a mutation follows, and then it runs its pass,
    all within the one call. *)
Definition noComputeBoundary (tr : list Event) : Prop :=
  ~ In ComputeEnters tr /\ forall res, ~ In (ComputeLeaves res) tr.

Definition straddles (tr : list Event) : Prop :=
  exists pre polled between res beyond ran rest,
    tr = pre ++ ComputePolls polled :: between
             ++ MutationEnters :: MutationRuns :: MutationLeaves res :: beyond
             ++ ComputeRuns ran :: rest
    /\ noComputeBoundary between
    /\ noComputeBoundary beyond.

(** The lambda of [removeModule] for the module C, on executors that always
    succeed. *)
Definition removingC : Programs :=
  mkPrograms allSuccess (fun _ => SUCCESS)
    (removeModuleBody allSuccess insertionOrder 64 "C").

(** [compute()] gets as far as lowering [computeWait]; a whole [lockState()]
    follows; [compute()] goes on to the end. *)
Definition lateMutation : list Thread :=
  repeat ComputeThread 6 ++ repeat MutatingThread 13 ++ repeat ComputeThread 6.

(** [compute()] passes the test of [computeHalt]; [lockState()] gets as far
    as [func]; [compute()] raises [computeWait] and polls its executors. *)
Definition earlyMutation : list Thread :=
  repeat ComputeThread 3 ++ repeat MutatingThread 7 ++ repeat ComputeThread 2.

(** How many of the compute pass, the present pass and the mutation are under
    way. *)
Definition busyRegions (w : World) : nat :=
  (Nat.b2n (inComputePass w) + Nat.b2n (inPresentPass w)
   + Nat.b2n (inMutation w))%nat.

(** [lockState()] has raised the halt flags and waits for [computeWait], which
    is raised, while [compute()] has not passed its test of [computeHalt]. *)
Definition deadlocked (w : World) : Prop :=
  pcM w = MAwaitCompute
  /\ computeWait (shared w) = true
  /\ computeHalt (shared w) = true
  /\ (pcC w = CIdle \/ pcC w = CTestEmpty \/ pcC w = CTestHalt \/ pcC w = CHalted).

(** Proof steps for the statements of the threads: [open_step] takes a step
    apart along the tests of its statement, [close_lockInv] settles who owns
    the mutex afterwards. *)
Ltac open_step H :=
  repeat match type of H with
         | context [if ?b then _ else _] => destruct b eqn:?
         | context [match ?x with _ => _ end] => destruct x eqn:?
         end;
  try discriminate H;
  try (injection H as <-).

Ltac close_lockInv :=
  unfold lockInv in *; simpl in *;
  repeat match goal with
         | H : _ /\ _ |- _ => destruct H
         | m : option Thread |- _ => destruct m as [[]|]
         end;
  repeat split; intros; try discriminate; try reflexivity;
  repeat match goal with
         | H : _ <-> _ |- _ => destruct H
         end;
  try congruence;
  try solve [auto];
  try (exfalso;
       match goal with
       | H : ?a = ?a -> _ |- _ =>
           let K := fresh in pose proof (H eq_refl) as K; discriminate K
       | H : _ -> ?a = ?b, K : _ = true |- _ =>
           let J := fresh in pose proof (H K) as J; discriminate J
       end).

(** ** Facts on the containers *)

Section MapFacts.

Context {V : Type}.

Lemma find_assign_same (k : string) (v : V) (m : Map V) :
  find k (assign k v m) = Some v.
Proof.
  induction m as [|[k' v'] rest IH]; simpl.
  - rewrite String.eqb_refl. reflexivity.
  - destruct (String.eqb k k') eqn:E; simpl.
    + rewrite String.eqb_refl. reflexivity.
    + rewrite E. exact IH.
Qed.

Lemma find_assign_other (k k' : string) (v : V) (m : Map V) :
  k' <> k -> find k' (assign k v m) = find k' m.
Proof.
  intros Hne. induction m as [|[k0 v0] rest IH]; simpl.
  - destruct (String.eqb k' k) eqn:E; [apply String.eqb_eq in E; congruence|].
    reflexivity.
  - destruct (String.eqb k k0) eqn:E; simpl.
    + apply String.eqb_eq in E. subst k0.
      destruct (String.eqb k' k) eqn:E'; [apply String.eqb_eq in E'; congruence|].
      reflexivity.
    + destruct (String.eqb k' k0); [reflexivity|exact IH].
Qed.

Lemma find_map_values {W : Type} (f : V -> W) (k : string) (m : Map V) :
  find k (map (fun e => (fst e, f (snd e))) m) = option_map f (find k m).
Proof.
  induction m as [|[k' v'] rest IH]; simpl.
  - reflexivity.
  - destruct (String.eqb k k'); [reflexivity|exact IH].
Qed.

Lemma assign_find_same (k : string) (v : V) (m : Map V) :
  find k m = Some v -> assign k v m = m.
Proof.
  induction m as [|[k' v'] rest IH]; simpl; intros H.
  - discriminate.
  - destruct (String.eqb k k') eqn:E.
    + apply String.eqb_eq in E. congruence.
    + rewrite (IH H). reflexivity.
Qed.

Lemma keys_assign_in (k : string) (v : V) (m : Map V) :
  In k (keys m) -> keys (assign k v m) = keys m.
Proof.
  induction m as [|[k' v'] rest IH]; simpl; intros H.
  - contradiction.
  - destruct (String.eqb k k') eqn:E; simpl.
    + apply String.eqb_eq in E. congruence.
    + destruct H as [H|H]; [subst; rewrite String.eqb_refl in E; discriminate|].
      f_equal. exact (IH H).
Qed.

Lemma keys_assign_fresh (k : string) (v : V) (m : Map V) :
  ~ In k (keys m) -> assign k v m = m ++ [(k, v)].
Proof.
  induction m as [|[k' v'] rest IH]; simpl; intros H.
  - reflexivity.
  - destruct (String.eqb k k') eqn:E.
    + apply String.eqb_eq in E. subst. exfalso. apply H. now left.
    + rewrite IH; [reflexivity|]. intros Hin. apply H. now right.
Qed.

Lemma find_In (k : string) (v : V) (m : Map V) :
  find k m = Some v -> In (k, v) m.
Proof.
  induction m as [|[k' v'] rest IH]; simpl; intros H.
  - discriminate.
  - destruct (String.eqb k k') eqn:E.
    + apply String.eqb_eq in E. left. congruence.
    + right. exact (IH H).
Qed.

Lemma In_find (k : string) (v : V) (m : Map V) :
  NoDup (keys m) -> In (k, v) m -> find k m = Some v.
Proof.
  induction m as [|[k' v'] rest IH]; simpl; intros Hnd Hin.
  - contradiction.
  - inversion Hnd as [|? ? Hnotin Hnd']; subst.
    destruct Hin as [Heq|Hin].
    + inversion Heq; subst. rewrite String.eqb_refl. reflexivity.
    + destruct (String.eqb k k') eqn:E.
      * apply String.eqb_eq in E. subst k'. exfalso. apply Hnotin.
        change (In (fst (k, v)) (map fst rest)). apply in_map. exact Hin.
      * exact (IH Hnd' Hin).
Qed.

Lemma find_None_keys (k : string) (m : Map V) :
  find k m = None <-> ~ In k (keys m).
Proof.
  induction m as [|[k' v'] rest IH]; simpl.
  - tauto.
  - destruct (String.eqb k k') eqn:E.
    + apply String.eqb_eq in E. subst. split; [discriminate|]. intros H.
      exfalso. apply H. now left.
    + apply String.eqb_neq in E. rewrite IH. unfold keys. split.
      * intros H [H'|H']; [congruence|tauto].
      * intros H H'. apply H. now right.
Qed.

End MapFacts.

(** The ready set and the other sets of names. *)

Lemma sset_contains_In (k : string) (s : list string) :
  sset_contains k s = true <-> In k s.
Proof.
  unfold sset_contains. rewrite existsb_exists. split.
  - intros [x [Hin Heq]]. apply String.eqb_eq in Heq. congruence.
  - intros Hin. exists k. split; [exact Hin|apply String.eqb_refl].
Qed.

Lemma sset_contains_false (k : string) (s : list string) :
  sset_contains k s = false <-> ~ In k s.
Proof.
  rewrite <- sset_contains_In. destruct (sset_contains k s); split; congruence.
Qed.

Lemma sset_emplace_In (k x : string) (s : list string) :
  In x (sset_emplace k s) <-> x = k \/ In x s.
Proof.
  unfold sset_emplace. destruct (sset_contains k s) eqn:E.
  - apply sset_contains_In in E. split; [tauto|]. intros [->|H]; assumption.
  - rewrite in_app_iff. simpl. split; intros H; intuition congruence.
Qed.

Lemma sset_erase_In (k x : string) (s : list string) :
  In x (sset_erase k s) <-> In x s /\ x <> k.
Proof.
  unfold sset_erase. rewrite filter_In.
  destruct (String.eqb k x) eqn:E; simpl.
  - apply String.eqb_eq in E. split; [intros [_ H]; discriminate|].
    intros [_ H]. congruence.
  - apply String.eqb_neq in E. split; [intros [H _]|intros [H _]]; split; congruence.
Qed.

Lemma sset_emplace_NoDup (k : string) (s : list string) :
  NoDup s -> NoDup (sset_emplace k s).
Proof.
  intros Hnd. unfold sset_emplace. destruct (sset_contains k s) eqn:E.
  - exact Hnd.
  - apply sset_contains_false in E.
    apply NoDup_rev in Hnd. rewrite <- (rev_involutive (s ++ [k])).
    apply NoDup_rev. rewrite rev_app_distr. simpl. constructor.
    + rewrite <- in_rev. exact E.
    + exact Hnd.
Qed.

Lemma sset_erase_NoDup (k : string) (s : list string) :
  NoDup s -> NoDup (sset_erase k s).
Proof. intros Hnd. unfold sset_erase. apply NoDup_filter. exact Hnd. Qed.

(** ** The compute pass *)







(** ** The mutation entry points *)

Lemma arrangeDependencyOrder_frame queueIter fuel s res s' :
  arrangeDependencyOrder queueIter fuel s = Returns (res, s') ->
  running s' = running s
  /\ computeModuleStates s' = computeModuleStates s
  /\ presentModuleStates s' = presentModuleStates s
  /\ graphs s' = graphs s.
Proof.
  unfold arrangeDependencyOrder.
  destruct (orderLoop _ _ _ _ _ _) as [st|]; [|discriminate].
  destruct (negb _).
  - intros H. inversion H; subst. simpl. auto.
  - destruct (assignClusters _ _ _ _ _ _) as [vs'|]; [|discriminate].
    destruct (splitRuns _ _) as [deo|]; [|discriminate].
    intros H. inversion H; subst. simpl. auto.
Qed.

Lemma processModules_frame ex queueIter fuel s res s' :
  processModules ex queueIter fuel s = Returns (res, s') ->
  running s' = running s
  /\ computeModuleStates s' = activated (computeModuleStates s)
  /\ presentModuleStates s' = presentModuleStates s.
Proof.
  unfold processModules, removeInactive.
  destruct (arrangeDependencyOrder _ _ _) as [[r2 s2]| |] eqn:Harr;
    try discriminate.
  apply arrangeDependencyOrder_frame in Harr. simpl in Harr.
  destruct Harr as (Hr & Hc & Hp & _).
  destruct r2; unfold checkSequenceValidity, createExecutionGraphs;
    intros H; inversion H; subst; simpl; auto.
Qed.

Lemma lockState_returns func s res s' :
  lockState func s = Returns (res, s') ->
  exists s1, func (set_flags s true true true true) = Returns (res, s1)
             /\ s' = set_flags s1 false false false false.
Proof.
  unfold lockState. destruct (computeWait s); [discriminate|].
  destruct (func _) as [[r s1]| |]; try discriminate.
  intros H. inversion H; subst. eauto.
Qed.

Lemma lockState_blocked func s :
  computeWait s = true -> lockState func s = Diverges.
Proof. unfold lockState. intros ->. reflexivity. Qed.

Lemma lockState_returns_lowered func s res s' :
  lockState func s = Returns (res, s') -> computeWait s = false.
Proof.
  unfold lockState. destruct (computeWait s); [discriminate|reflexivity].
Qed.

Lemma addModule_running ex queueIter fuel name dev inputs outputs c p s res s' :
  addModule ex queueIter fuel name dev inputs outputs c p s = Returns (res, s') ->
  running s' = true.
Proof.
  unfold addModule. intros H.
  apply lockState_returns in H. destruct H as (s1 & Hf & ->).
  simpl. destruct (checkAll _ _).
  - match type of Hf with
    | (if ?b then _ else _) = _ => destruct b; [discriminate|]
    end.
    apply processModules_frame in Hf. simpl in Hf. tauto.
  - inversion Hf; subst; reflexivity.
  - inversion Hf; subst; reflexivity.
  - inversion Hf; subst; reflexivity.
  - inversion Hf; subst; reflexivity.
Qed.

Lemma addModule_registers ex queueIter fuel name dev inputs outputs c p s res s' :
  checkAll (graph_destroy ex) (graphs s) = SUCCESS ->
  addModule ex queueIter fuel name dev inputs outputs c p s = Returns (res, s') ->
  (forall h, c = Some h ->
     exists state,
       find name (computeModuleStates s') = Some state
       /\ module state = h /\ device state = dev
       /\ inputMap state = inputs /\ outputMap state = outputs)
  /\ (forall h, p = Some h ->
        find name (presentModuleStates s')
        = Some (mkPresentModuleState h inputs outputs)).
Proof.
  unfold addModule. intros Hd H.
  apply lockState_returns in H. destruct H as (s1 & Hf & ->).
  simpl in Hf. rewrite Hd in Hf.
  match type of Hf with
  | (if ?b then _ else _) = _ => destruct b; [discriminate|]
  end.
  apply processModules_frame in Hf. simpl in Hf.
  destruct Hf as (_ & Hc & Hp). simpl. split.
  - intros h ->. rewrite Hc. unfold activated.
    rewrite find_map_values. unfold registerCompute.
    rewrite find_assign_same. simpl. eexists. split; [reflexivity|].
    simpl. auto.
  - intros h ->. rewrite Hp. apply find_assign_same.
Qed.

(** C9 (as amended).  [addModule] raises [running] before anything else and
    never lowers it, so whatever it returns a later [removeModule] takes the
    rebuilding path and not the not-running early return; and when the
    teardown of the existing executors succeeds, the module's entries are
    written before the rebuild phases and stay registered whatever those
    phases return (no rollback). *)
Theorem addModule_no_rollback ex queueIter fuel name dev inputs outputs c p s res s' :
  addModule ex queueIter fuel name dev inputs outputs c p s = Returns (res, s') ->
  running s' = true
  /\ (forall ex' queueIter' fuel' name',
        removeModule ex' queueIter' fuel' name' s'
        = lockState (removeModuleBody ex' queueIter' fuel' name') s')
  /\ (checkAll (graph_destroy ex) (graphs s) = SUCCESS ->
      (forall h, c = Some h ->
         exists state,
           find name (computeModuleStates s') = Some state
           /\ module state = h /\ device state = dev
           /\ inputMap state = inputs /\ outputMap state = outputs)
      /\ (forall h, p = Some h ->
            find name (presentModuleStates s')
            = Some (mkPresentModuleState h inputs outputs))).
Proof.
  intros H. pose proof (addModule_running _ _ _ _ _ _ _ _ _ _ _ _ H) as Hrun.
  split; [exact Hrun|]. split.
  - intros. unfold removeModule. rewrite Hrun. reflexivity.
  - intros Hd. exact (addModule_registers _ _ _ _ _ _ _ _ _ _ _ _ Hd H).
Qed.

Lemma addModule_no_rollback_witness :
  resultOf (addY (withX chainABC)) = Some FATAL
  /\ running (stateOf (addY (withX chainABC))) = true
  /\ exists state,
       find "Y" (computeModuleStates (stateOf (addY (withX chainABC)))) = Some state
       /\ inputMap state = [("in", mkRecord 1 10)].
Proof.
  split; [vm_compute; reflexivity|].
  destruct (addModule_no_rollback allSuccess insertionOrder 64 "Y" Device_CPU
              [("in", mkRecord 1 10)] [("out", mkRecord 2 20)] (Some 1%nat) None
              (withX chainABC) FATAL (stateOf (addY (withX chainABC))))
    as (Hrun & _ & Hreg).
  - vm_compute. reflexivity.
  - split; [exact Hrun|].
    destruct (proj1 (Hreg eq_refl) 1%nat eq_refl) as (state & Hf & _ & _ & Hi & _).
    exists state. split; assumption.
Defined.

(** C9 (as stated) fails: when the teardown of an existing executor fails,
    [addModule] returns the failure before it has written the module's
    entries, so the module of the failed call is not registered. *)
Lemma addModule_destroy_failure_unregistered :
  let r := addModule failsDestroy insertionOrder 64 "D" Device_CPU
             [("in", mkRecord 20 200)] [] (Some 1%nat) None chainABC in
  resultOf r = Some ERROR
  /\ running (stateOf r) = true
  /\ find "D" (computeModuleStates (stateOf r)) = None.
Proof. vm_compute. auto. Qed.

(** ** Executor assembly and failed rebuilds *)

Lemma linkStep_previous_wired (acc : Graph * list Graph) (g : Graph) :
  wiredOutputs (fst (linkStep acc g)) = wiredOutputs (fst acc).
Proof.
  unfold linkStep. simpl.
  generalize (set_intersection (wiredOutputs (fst acc)) (wiredInputs g)).
  intros items. generalize (fst acc). induction items as [|x items IH]; intros p.
  - reflexivity.
  - simpl. rewrite IH. reflexivity.
Qed.

Lemma linkStep_tail_outputs (rest : list Graph) (acc : Graph * list Graph) :
  map externallyWiredOutputs (snd (fold_left linkStep rest acc))
  = map externallyWiredOutputs (snd acc) ++ map externallyWiredOutputs rest.
Proof.
  revert acc. induction rest as [|g rest IH]; intros acc; simpl.
  - rewrite app_nil_r. reflexivity.
  - rewrite IH. unfold linkStep. simpl. rewrite map_app, <- app_assoc.
    simpl. do 2 f_equal.
    generalize (set_intersection (wiredOutputs (fst acc)) (wiredInputs g)).
    intros items. generalize g. induction items as [|x items IHi]; intros g0.
    + reflexivity.
    + simpl. rewrite IHi. reflexivity.
Qed.

(** The dependency loop marks externally wired outputs on the first graph
    only: every later graph leaves [createExecutionGraphs] with the (empty)
    set it got from [NewGraph]. *)
Lemma linkGraphs_later_outputs_untouched (first : Graph) (rest : list Graph) :
  map externallyWiredOutputs (tl (linkGraphs (first :: rest)))
  = map externallyWiredOutputs rest.
Proof. unfold linkGraphs. simpl. rewrite linkStep_tail_outputs. reflexivity. Qed.

(** C3, at the pipeline A(CPU) -> B(CUDA) -> C(CPU).  The executors of B and C
    are adjacent and locale hash 200 is in the intersection of B's wired
    outputs and C's wired inputs, yet [createExecutionGraphs] marks it neither
    as an externally wired output of B's executor nor as an externally wired
    input of C's: [previousGraph] is never advanced past the first graph. *)
Theorem createExecutionGraphs_misses_adjacent_pair :
  exists gA gB gC,
    graphs (snd (createExecutionGraphs chainABC)) = [gA; gB; gC]
    /\ In 200 (set_intersection (wiredOutputs gB) (wiredInputs gC))
    /\ ~ In 200 (externallyWiredOutputs gB)
    /\ ~ In 200 (externallyWiredInputs gC)
    /\ externallyWiredOutputs gA = [100]
    /\ externallyWiredInputs gB = [100].
Proof.
  do 3 eexists. split; [vm_compute; reflexivity|].
  simpl. repeat split; try tauto.
Qed.

Lemma processModules_cycle_keeps_graphs ex queueIter fuel s s2 :
  arrangeDependencyOrder queueIter fuel (snd (removeInactive s))
  = Returns (FATAL, s2) ->
  processModules ex queueIter fuel s = Returns (FATAL, s2)
  /\ graphs s2 = graphs s.
Proof.
  intros H. unfold processModules.
  destruct (removeInactive s) as [r1 s1] eqn:Hrm.
  unfold removeInactive in Hrm. inversion Hrm; subst. simpl in H.
  rewrite H. split; [reflexivity|].
  apply arrangeDependencyOrder_frame in H. simpl in H. tauto.
Qed.

(** C2, at a running pipeline A -> B -> C to which the modules X and Y, which
    feed each other, are added.  The ordering loop schedules A, B and C only,
    the size check fails and [addModule] returns [FATAL]; the executors of the
    previous pipeline, destroyed at the start of the call, are still listed in
    [graphs], because the early return skips the [graphs.clear()] of
    [createExecutionGraphs]. *)
Theorem addModule_cycle_leaves_graphs :
  resultOf (addY (withX chainABC)) = Some FATAL
  /\ executionOrder (stateOf (addY (withX chainABC))) = ["A"; "B"; "C"]
  /\ length (validComputeModuleStates (stateOf (addY (withX chainABC)))) = 5%nat
  /\ graphs (stateOf (addY (withX chainABC))) = graphs chainABC
  /\ length (graphs (stateOf (addY (withX chainABC)))) = 3%nat.
Proof. vm_compute. auto. Qed.

(** ** Phase 4: the split into device runs *)

Lemma Device_eqb_eq (a b : Device) : Device_eqb a b = true <-> a = b.
Proof. destruct a, b; vm_compute; split; congruence. Qed.

Lemma Device_and_neq_spec (a b : Device) :
  Device_and_neq a b = true <-> a <> b.
Proof. destruct a, b; vm_compute; split; congruence. Qed.

Lemma pushToBack_snoc name front d run :
  pushToBack name (front ++ [(d, run)]) = Some (front ++ [(d, run ++ [name])]).
Proof.
  induction front as [|e front IH]; simpl.
  - reflexivity.
  - rewrite IH. destruct e as [d' run'].
    destruct (front ++ [(d, run)]) eqn:E.
    + destruct front; discriminate.
    + reflexivity.
Qed.

Lemma adjacentDiffer_snoc {A : Type} (l : list A) (x y : A) :
  adjacentDiffer (l ++ [x]) -> x <> y -> adjacentDiffer ((l ++ [x]) ++ [y]).
Proof.
  induction l as [|a l IH]; simpl; intros H Hxy.
  - auto.
  - destruct l as [|b l]; simpl in *.
    + destruct H as [Hab _]. auto.
    + destruct H as [Hab H]. split; [exact Hab|]. apply IH; assumption.
Qed.

Lemma splitStep_inv vs done st name st' :
  splitInv vs done st ->
  splitStep vs st name = Some st' ->
  splitInv vs (done ++ [name]) st'.
Proof.
  intros (Hcat & Hruns & Hadj & Hlast). subst done. unfold splitStep.
  destruct (Device_and_neq _ _ || negb _) eqn:Hnew.
  - (* a new entry is started *)
    rewrite pushToBack_snoc. intros H. injection H as <-.
    unfold splitInv. simpl. repeat split.
    + rewrite map_app, concat_app. simpl. reflexivity.
    + apply Forall_app. split; [exact Hruns|]. constructor; [|constructor].
      split; simpl; [discriminate|]. constructor; [auto|constructor].
    + destruct Hlast as [(Hnil & Hd & Hc)|(front & e & Hdeo & Hkey)].
      * rewrite Hnil. simpl. exact I.
      * rewrite Hdeo in *. rewrite !map_app. simpl.
        rewrite map_app in Hadj. simpl in Hadj.
        apply adjacentDiffer_snoc; [exact Hadj|].
        rewrite Hkey. unfold runKey. simpl. intros Heq.
        inversion Heq as [[Hd Hc]].
        apply orb_true_iff in Hnew. destruct Hnew as [Hnew|Hnew].
        -- apply Device_and_neq_spec in Hnew. congruence.
        -- apply negb_true_iff, Z.eqb_neq in Hnew. congruence.
    + right. exists (split_deo st), (device (at_ vs name), [name]).
      split; reflexivity.
  - (* the module joins the current entry *)
    apply orb_false_iff in Hnew. destruct Hnew as [Hdev Hcl].
    apply negb_false_iff, Z.eqb_eq in Hcl.
    assert (Hd : device (at_ vs name) = split_lastDevice st).
    { destruct (Device_and_neq_spec (device (at_ vs name)) (split_lastDevice st))
        as [_ Hn].
      destruct (Device_eqb (device (at_ vs name)) (split_lastDevice st)) eqn:E.
      - apply Device_eqb_eq in E. exact E.
      - assert (Hne : device (at_ vs name) <> split_lastDevice st).
        { intros Heq. apply Device_eqb_eq in Heq. congruence. }
        apply Hn in Hne. congruence. }
    destruct Hlast as [(Hnil & _ & _)|(front & [d run] & Hdeo & Hkey)].
    + rewrite Hnil. simpl. discriminate.
    + rewrite Hdeo. rewrite pushToBack_snoc. intros H. injection H as <-.
      unfold runKey in Hkey. simpl in Hkey. inversion Hkey as [[Hkd Hkc]].
      rewrite Hdeo in Hruns, Hadj.
      apply Forall_app in Hruns. destruct Hruns as [Hfront Hrun].
      inversion Hrun as [|? ? [Hne Hall] _]; subst. simpl in Hne, Hall.
      assert (Hhd : hd "" (run ++ [name]) = hd "" run).
      { destruct run; [congruence|reflexivity]. }
      unfold splitInv. simpl. repeat split.
      * rewrite !map_app, !concat_app. simpl.
        rewrite !app_nil_r, app_assoc. reflexivity.
      * apply Forall_app. split; [exact Hfront|]. constructor; [|constructor].
        split; simpl.
        -- destruct run; discriminate.
        -- rewrite Hhd. apply Forall_app. split; [exact Hall|].
           constructor; [|constructor]. split; congruence.
      * rewrite map_app in *. simpl in *. unfold runKey in *. simpl in *.
        rewrite Hhd. exact Hadj.
      * right. exists front, (split_lastDevice st, run ++ [name]).
        split; [reflexivity|]. unfold runKey. simpl. rewrite Hhd.
        rewrite Hd, Hcl, Hkc. reflexivity.
Qed.

Lemma splitLoop_inv vs names : forall done st st',
  splitInv vs done st ->
  splitLoop vs names st = Some st' ->
  splitInv vs (done ++ names) st'.
Proof.
  induction names as [|name rest IH]; intros done st st' Hinv; simpl.
  - intros H. inversion H; subst. rewrite app_nil_r. exact Hinv.
  - destruct (splitStep vs st name) as [st1|] eqn:Hstep; [|discriminate].
    intros H. replace (done ++ name :: rest) with ((done ++ [name]) ++ rest)
      by (rewrite <- app_assoc; reflexivity).
    eapply IH; [|exact H]. eapply splitStep_inv; eassumption.
Qed.

Lemma splitRuns_spec vs names deo :
  splitRuns vs names = Some deo ->
  concat (map snd deo) = names
  /\ Forall (uniformRun vs) deo
  /\ adjacentDiffer (map (runKey vs) deo).
Proof.
  unfold splitRuns.
  destruct (splitLoop _ _ _) as [st|] eqn:Hloop; [|discriminate].
  intros H. inversion H; subst.
  assert (Hinit : splitInv vs [] (mkSplitState Device_None 0 [])).
  { unfold splitInv. simpl. repeat split; auto. }
  destruct (splitLoop_inv vs names [] _ _ Hinit Hloop) as (H1 & H2 & H3 & _).
  auto.
Qed.

(** C5.  After a rebuild that succeeds, [deviceExecutionOrder] cuts
    [executionOrder] into non-empty runs; every module of a run carries the
    device of its entry (and the cluster id of the run's first module), and two
    consecutive entries differ in device or in cluster: an entry is started
    exactly where the device or the cluster id changes from one module to the
    next. *)
Theorem deviceExecutionOrder_runs queueIter fuel s s' :
  arrangeDependencyOrder queueIter fuel s = Returns (SUCCESS, s') ->
  concat (map snd (deviceExecutionOrder s')) = executionOrder s'
  /\ Forall (uniformRun (validComputeModuleStates s')) (deviceExecutionOrder s')
  /\ adjacentDiffer
       (map (runKey (validComputeModuleStates s')) (deviceExecutionOrder s')).
Proof.
  unfold arrangeDependencyOrder.
  destruct (orderLoop _ _ _ _ _ _) as [st|]; [|discriminate].
  destruct (negb _); [discriminate|].
  destruct (assignClusters _ _ _ _ _ _) as [vs'|]; [|discriminate].
  destruct (splitRuns vs' (order st)) as [deo|] eqn:Hsplit; [|discriminate].
  intros H. inversion H; subst. simpl.
  apply splitRuns_spec. exact Hsplit.
Qed.

Lemma deviceExecutionOrder_runs_witness :
  deviceExecutionOrder orderedPipeline
  = [(Device_CPU, ["A"]); (Device_CPU, ["P"; "Q"]); (Device_CUDA, ["B"]);
     (Device_CPU, ["C"])]
  /\ concat (map snd (deviceExecutionOrder orderedPipeline))
     = executionOrder orderedPipeline
  /\ Forall (uniformRun (validComputeModuleStates orderedPipeline))
       (deviceExecutionOrder orderedPipeline)
  /\ adjacentDiffer
       (map (runKey (validComputeModuleStates orderedPipeline))
          (deviceExecutionOrder orderedPipeline)).
Proof.
  split; [vm_compute; reflexivity|].
  apply (deviceExecutionOrder_runs insertionOrder 64 prunedPipeline).
  vm_compute. reflexivity.
Defined.

(** ** Phase 1: pruning *)

Lemma countHashes_spec (m : RecordMap) : forall (valid : DMap Z nat) (h : Z),
  countHashes valid m h
  = if h =? 0 then valid h else (valid h + occurrencesIn h m)%nat.
Proof.
  unfold countHashes, occurrencesIn.
  induction m as [|[pin meta] rest IH]; intros valid h; simpl.
  - destruct (h =? 0); lia.
  - rewrite IH. destruct (h =? 0) eqn:Hz.
    + destruct (hash meta =? 0) eqn:Hm; [reflexivity|].
      unfold dsetZ. destruct (h =? hash meta) eqn:E; [|reflexivity].
      apply Z.eqb_eq in E. apply Z.eqb_eq in Hz. apply Z.eqb_neq in Hm. lia.
    + destruct (hash meta =? 0) eqn:Hm.
      * destruct (hash meta =? h) eqn:E; [|reflexivity].
        apply Z.eqb_eq in E. apply Z.eqb_eq in Hm. apply Z.eqb_neq in Hz. lia.
      * unfold dsetZ. rewrite (Z.eqb_sym (hash meta) h).
        destruct (h =? hash meta) eqn:E; simpl; [|reflexivity].
        apply Z.eqb_eq in E. subst h. lia.
Qed.

Lemma countFrom_spec (cms : Map ComputeModuleState) :
  forall (valid : DMap Z nat) (h : Z),
    fold_left
      (fun valid e =>
         countHashes (countHashes valid (inputMap (snd e))) (outputMap (snd e)))
      cms valid h
    = if h =? 0 then valid h else (valid h + occurrences cms h)%nat.
Proof.
  unfold occurrences.
  induction cms as [|[name state] rest IH]; intros valid h; simpl.
  - destruct (h =? 0); lia.
  - rewrite IH, !countHashes_spec. destruct (h =? 0); lia.
Qed.

(** [valid] holds, per non-zero hash, the number of ports that carry it; the
    zero hash is never counted. *)
Lemma countAll_spec (cms : Map ComputeModuleState) (h : Z) :
  countAll cms h = if h =? 0 then 0%nat else occurrences cms h.
Proof. unfold countAll. rewrite countFrom_spec. destruct (h =? 0); reflexivity. Qed.

Lemma countAll_connected (cms : Map ComputeModuleState) (meta : Record_) :
  (1 <? countAll cms (hash meta))%nat = connected cms meta.
Proof.
  unfold connected. rewrite countAll_spec.
  destruct (hash meta =? 0); reflexivity.
Qed.

Lemma countAll_activated (cms : Map ComputeModuleState) (valid : DMap Z nat) :
  countAll (map (fun e => (fst e, activateState valid (snd e))) cms)
  = countAll cms.
Proof.
  unfold countAll. generalize (fun _ : Z => 0%nat).
  induction cms as [|[name state] rest IH]; intros acc; simpl.
  - reflexivity.
  - apply IH.
Qed.

Lemma activate_find_other valid pin (ports : RecordMap) : forall active,
  ~ In pin (keys ports) ->
  find pin (activate valid ports active) = find pin active.
Proof.
  unfold activate.
  induction ports as [|[k v] rest IH]; intros active Hnotin; simpl.
  - reflexivity.
  - simpl in Hnotin. rewrite IH by tauto.
    destruct (1 <? valid (hash v))%nat; [|reflexivity].
    apply find_assign_other. intros ->. tauto.
Qed.

Lemma activate_find valid pin meta (ports : RecordMap) : forall active,
  NoDup (keys ports) ->
  In (pin, meta) ports ->
  (1 <? valid (hash meta))%nat = true ->
  find pin (activate valid ports active) = Some meta.
Proof.
  induction ports as [|[k v] rest IH]; intros active Hnd Hin Hc.
  - contradiction.
  - simpl in Hnd. inversion Hnd as [|? ? Hnotin Hnd']; subst.
    destruct Hin as [Heq|Hin].
    + inversion Heq; subst. unfold activate. simpl. rewrite Hc.
      fold (activate valid rest (assign pin meta active)).
      rewrite activate_find_other by exact Hnotin. apply find_assign_same.
    + unfold activate. simpl.
      match goal with |- find pin (fold_left ?f rest ?a) = _ =>
        change (find pin (activate valid rest a) = Some meta) end.
      apply IH; assumption.
Qed.

(** Filling the active map a second time writes what is there already. *)
Lemma activate_again valid (ports : RecordMap) active :
  NoDup (keys ports) ->
  activate valid ports (activate valid ports active)
  = activate valid ports active.
Proof.
  intros Hnd. set (A := activate valid ports active).
  assert (Hfix : forall pin meta,
             In (pin, meta) ports -> (1 <? valid (hash meta))%nat = true ->
             find pin A = Some meta).
  { intros pin meta Hin Hc. apply activate_find; assumption. }
  clearbody A. clear Hnd. unfold activate.
  induction ports as [|[k v] rest IH]; simpl.
  - reflexivity.
  - destruct (1 <? valid (hash v))%nat eqn:Hc.
    + rewrite assign_find_same by (apply Hfix; [now left|exact Hc]).
      apply IH. intros pin meta Hin. apply Hfix. now right.
    + apply IH. intros pin meta Hin. apply Hfix. now right.
Qed.

Lemma activateState_again valid (state : ComputeModuleState) :
  distinctPins state ->
  activateState valid (activateState valid state) = activateState valid state.
Proof.
  intros [Hi Ho]. unfold activateState. simpl.
  rewrite !activate_again by assumption. reflexivity.
Qed.

Lemma keys_assign_incl {V : Type} (k x : string) (v : V) (m : Map V) :
  In x (keys (assign k v m)) -> x = k \/ In x (keys m).
Proof.
  induction m as [|[k' v'] rest IH]; simpl.
  - intros [H|[]]. now left.
  - destruct (String.eqb k k') eqn:E; simpl.
    + apply String.eqb_eq in E. subst k'. intros [H|H]; auto.
    + intros [H|H]; [auto|]. destruct (IH H); auto.
Qed.

Lemma keepValid_not_stale {V : Type} (stale : list string) (ms : Map V) (k : string) :
  In k (keys (keepValid stale ms)) -> ~ In k stale.
Proof.
  unfold keepValid.
  assert (Hgen : forall acc,
             In k (keys (fold_left
                           (fun valid e =>
                              if sset_contains (fst e) stale then valid
                              else assign (fst e) (snd e) valid) ms acc)) ->
             In k (keys acc) \/ ~ In k stale).
  { induction ms as [|[name v] rest IH]; intros acc; simpl.
    - auto.
    - intros H. apply IH in H. destruct H as [H|H]; [|now right].
      destruct (sset_contains name stale) eqn:E; [now left|].
      apply keys_assign_incl in H. destruct H as [->|H]; [|now left].
      right. apply sset_contains_false. exact E. }
  intros H. destruct (Hgen [] H) as [[]|Hn]. exact Hn.
Qed.

Lemma staleModules_complete (cms : Map ComputeModuleState) name state :
  In (name, state) cms -> isStale state = true -> In name (staleModules cms).
Proof.
  unfold staleModules.
  assert (Hmono : forall l acc x,
             In x acc ->
             In x (fold_left
                     (fun stale e =>
                        if isStale (snd e) then sset_emplace (fst e) stale
                        else stale) l acc)).
  { induction l as [|[n st] rest IH]; intros acc x Hx; simpl.
    - exact Hx.
    - apply IH. destruct (isStale st); [|exact Hx].
      apply sset_emplace_In. now right. }
  generalize (@nil string).
  induction cms as [|[n st] rest IH]; intros acc Hin Hst; simpl.
  - contradiction.
  - destruct Hin as [Heq|Hin].
    + inversion Heq; subst. rewrite Hst. apply Hmono.
      apply sset_emplace_In. now left.
    + apply IH; assumption.
Qed.

Lemma keys_assign_mono {V : Type} (k x : string) (v : V) (m : Map V) :
  In x (keys m) -> In x (keys (assign k v m)).
Proof.
  induction m as [|[k' v'] rest IH]; simpl.
  - contradiction.
  - destruct (String.eqb k k') eqn:E; simpl.
    + apply String.eqb_eq in E. subst k'. tauto.
    + intros [H|H]; [now left|right; exact (IH H)].
Qed.

(** The loop never erases: a pin that is active stays active. *)
Lemma activate_keys_mono valid (ports : RecordMap) pin : forall active,
  In pin (keys active) -> In pin (keys (activate valid ports active)).
Proof.
  unfold activate.
  induction ports as [|[k v] rest IH]; intros active Hin; simpl.
  - exact Hin.
  - apply IH. destruct (1 <? valid (hash v))%nat; [|exact Hin].
    apply keys_assign_mono. exact Hin.
Qed.

(** An entry is changed only by being written again with a port of its pin. *)
Lemma activate_value valid (ports : RecordMap) pin : forall active meta,
  find pin active = Some meta ->
  find pin (activate valid ports active) = Some meta
  \/ exists meta', In (pin, meta') ports
                   /\ find pin (activate valid ports active) = Some meta'.
Proof.
  unfold activate.
  induction ports as [|[k v] rest IH]; intros active meta Hf; simpl.
  - now left.
  - destruct (1 <? valid (hash v))%nat.
    + destruct (String.eqb pin k) eqn:E.
      * apply String.eqb_eq in E. subst k. right.
        destruct (IH (assign pin v active) v (find_assign_same _ _ _))
          as [H|(meta' & Hin & H)].
        -- exists v. split; [now left|exact H].
        -- exists meta'. split; [now right|exact H].
      * apply String.eqb_neq in E.
        destruct (IH (assign k v active) meta) as [H|(meta' & Hin & H)].
        -- rewrite find_assign_other by exact E. exact Hf.
        -- now left.
        -- right. exists meta'. split; [now right|exact H].
    + destruct (IH active meta Hf) as [H|(meta' & Hin & H)].
      * now left.
      * right. exists meta'. split; [now right|exact H].
Qed.

(** What the loop leaves under each pin of an active map. *)
Lemma activate_lookup valid (ports : RecordMap) pin : forall active,
  NoDup (keys ports) ->
  find pin (activate valid ports active)
  = match find pin ports with
    | Some meta =>
        if (1 <? valid (hash meta))%nat then Some meta else find pin active
    | None => find pin active
    end.
Proof.
  unfold activate.
  induction ports as [|[k v] rest IH]; intros active Hnd; simpl.
  - reflexivity.
  - simpl in Hnd. inversion Hnd as [|? ? Hnotin Hnd']; subst.
    rewrite IH by exact Hnd'.
    destruct (String.eqb pin k) eqn:E.
    + apply String.eqb_eq in E. subst k.
      apply find_None_keys in Hnotin. rewrite Hnotin.
      destruct (1 <? valid (hash v))%nat; [|reflexivity].
      apply find_assign_same.
    + apply String.eqb_neq in E.
      assert (Hother : find pin (if (1 <? valid (hash v))%nat
                                 then assign k v active else active)
                       = find pin active).
      { destruct (1 <? valid (hash v))%nat; [|reflexivity].
        apply find_assign_other. exact E. }
      rewrite Hother. reflexivity.
Qed.

Lemma activate_activeAfter (cms : Map ComputeModuleState)
    (ports active : RecordMap) pin :
  NoDup (keys ports) ->
  find pin (activate (countAll cms) ports active)
  = activeAfter cms ports active pin.
Proof.
  intros Hnd. rewrite activate_lookup by exact Hnd. unfold activeAfter.
  destruct (find pin ports) as [meta|]; [|reflexivity].
  rewrite countAll_connected. reflexivity.
Qed.

Lemma activeAfter_fresh (cms : Map ComputeModuleState) (ports : RecordMap)
    pin meta :
  activeAfter cms ports [] pin = Some meta
  <-> find pin ports = Some meta /\ connected cms meta = true.
Proof.
  unfold activeAfter. simpl. destruct (find pin ports) as [m|].
  - destruct (connected cms m) eqn:E.
    + split; [intros H; inversion H; subst; auto|intros [H _]; exact H].
    + split; [discriminate|]. intros [H Hc]. inversion H; subst. congruence.
  - split; [discriminate|intros [H _]; discriminate].
Qed.

Lemma at_activated (cms : Map ComputeModuleState) valid name state :
  NoDup (keys cms) -> In (name, state) cms ->
  at_ (map (fun e => (fst e, activateState valid (snd e))) cms) name
  = activateState valid state.
Proof.
  intros Hnd Hin. unfold at_. rewrite find_map_values.
  rewrite (In_find _ _ _ Hnd Hin). reflexivity.
Qed.

(** C4 (as amended).  The prune phase counts, for every non-zero record hash,
    the ports that carry it over the inputs and outputs of all compute modules
    (ports of hash zero are not counted).  For every module, whose port maps
    it leaves as they are: under each pin the active map holds the port of
    that pin when the hash of the port is non-zero and carried by more than
    one port, and otherwise what it held when the phase began; so a port
    whose hash is non-zero and counted more than once ends up active, and, in
    a map that is empty when the phase begins, no other port does.  A module
    left with no active input and no active output is in neither
    [validComputeModuleStates] nor [validPresentModuleStates]. *)
Theorem removeInactive_prunes (s : Scheduler) :
  NoDup (keys (computeModuleStates s)) ->
  let cms := computeModuleStates s in
  let s' := snd (removeInactive s) in
  (forall h, countAll cms h = if h =? 0 then 0%nat else occurrences cms h)
  /\ (forall name state,
        In (name, state) cms -> distinctPins state ->
        let state' := at_ (computeModuleStates s') name in
        inputMap state' = inputMap state
        /\ outputMap state' = outputMap state
        /\ (forall pin,
              find pin (activeInputs state')
              = activeAfter cms (inputMap state) (activeInputs state) pin)
        /\ (forall pin,
              find pin (activeOutputs state')
              = activeAfter cms (outputMap state) (activeOutputs state) pin)
        /\ (activeInputs state = [] ->
            forall pin meta,
              find pin (activeInputs state') = Some meta
              <-> find pin (inputMap state) = Some meta
                  /\ connected cms meta = true)
        /\ (activeOutputs state = [] ->
            forall pin meta,
              find pin (activeOutputs state') = Some meta
              <-> find pin (outputMap state) = Some meta
                  /\ connected cms meta = true))
  /\ (forall name state',
        In (name, state') (computeModuleStates s') ->
        activeInputs state' = [] -> activeOutputs state' = [] ->
        ~ In name (keys (validComputeModuleStates s'))
        /\ ~ In name (keys (validPresentModuleStates s'))).
Proof.
  intros Hnd cms s'. split; [apply countAll_spec|]. split.
  - intros name state Hin [Hdi Hdo] state'.
    assert (Hat : state' = activateState (countAll cms) state).
    { unfold state', s', removeInactive. simpl.
      apply at_activated; assumption. }
    rewrite Hat. simpl.
    split; [reflexivity|]. split; [reflexivity|].
    split; [intros pin; apply activate_activeAfter; exact Hdi|].
    split; [intros pin; apply activate_activeAfter; exact Hdo|].
    split.
    + intros Hi pin meta. rewrite activate_activeAfter by exact Hdi.
      rewrite Hi. apply activeAfter_fresh.
    + intros Ho pin meta. rewrite activate_activeAfter by exact Hdo.
      rewrite Ho. apply activeAfter_fresh.
  - intros name state' Hin Hi Ho.
    assert (Hstale : In name (staleModules (computeModuleStates s'))).
    { apply (staleModules_complete _ name state' Hin).
      unfold isStale. rewrite Hi, Ho. reflexivity. }
    split; intros Hk; apply keepValid_not_stale in Hk; apply Hk; exact Hstale.
Qed.

Lemma addingC_keys : keys (computeModuleStates addingC) = ["A"; "B"; "C"].
Proof. vm_compute. reflexivity. Qed.

(** In the add of C to A -> B the output of B, so far read by nothing, is
    made active, B having entered the phase with its input active; U, which
    nothing shares a hash with, is left out of the valid modules. *)
Lemma removeInactive_prunes_witness :
  activeInputs (at_ (computeModuleStates addingC) "B") = [("in", mkRecord 10 100)]
  /\ activeOutputs (at_ (computeModuleStates addingC) "B") = []
  /\ find "out"
       (activeOutputs (at_ (computeModuleStates (snd (removeInactive addingC))) "B"))
     = Some (mkRecord 20 200).
Proof.
  assert (Hnd : NoDup (keys (computeModuleStates addingC))).
  { rewrite addingC_keys.
    repeat (constructor; [simpl; intuition discriminate|]). constructor. }
  assert (Hin : In ("B", mkComputeModuleState 1 Device_CUDA
                           [("in", mkRecord 10 100)] [("out", mkRecord 20 200)]
                           [("in", mkRecord 10 100)] [] 0)
                  (computeModuleStates addingC))
    by (vm_compute; right; left; reflexivity).
  assert (Hpins : distinctPins
                    (mkComputeModuleState 1 Device_CUDA
                       [("in", mkRecord 10 100)] [("out", mkRecord 20 200)]
                       [("in", mkRecord 10 100)] [] 0))
    by (split; simpl; repeat constructor; simpl; tauto).
  split; [vm_compute; reflexivity|]. split; [vm_compute; reflexivity|].
  destruct (removeInactive_prunes addingC Hnd) as (_ & Hact & _).
  destruct (Hact "B" _ Hin Hpins) as (_ & _ & _ & Hout & _).
  rewrite Hout. vm_compute. reflexivity.
Defined.

(** C4 (as stated) fails on the zero hash: it sits on two ports, so its number
    of occurrences exceeds 1, yet neither port is made active. *)
Lemma removeInactive_skips_zero_hash :
  occurrences (computeModuleStates zeroHashPipeline) 0 = 2%nat
  /\ inputMap (at_ (computeModuleStates (snd (removeInactive zeroHashPipeline))) "N")
     = [("in", mkRecord 0 1)]
  /\ activeInputs
       (at_ (computeModuleStates (snd (removeInactive zeroHashPipeline))) "N")
     = []
  /\ activeOutputs
       (at_ (computeModuleStates (snd (removeInactive zeroHashPipeline))) "M")
     = [].
Proof. vm_compute. auto. Qed.

(** C7.  Pruning is idempotent: run on its own result, [removeInactive] gives
    that result again (the same active inputs and outputs for every module, the
    same two maps of valid states), provided the pins of each port map are
    distinct, as the keys of a map are. *)
Theorem removeInactive_idempotent (s : Scheduler) :
  (forall name state, In (name, state) (computeModuleStates s) -> distinctPins state) ->
  removeInactive (snd (removeInactive s)) = removeInactive s.
Proof.
  intros Hpins. unfold removeInactive. simpl.
  rewrite countAll_activated.
  set (valid := countAll (computeModuleStates s)).
  assert (Hfix :
            map (fun e => (fst e, activateState valid (snd e)))
              (map (fun e => (fst e, activateState valid (snd e)))
                 (computeModuleStates s))
            = map (fun e => (fst e, activateState valid (snd e)))
                (computeModuleStates s)).
  { rewrite map_map. apply map_ext_in. intros [name state] Hin. simpl.
    rewrite activateState_again; [reflexivity|].
    exact (Hpins name state Hin). }
  rewrite Hfix. reflexivity.
Qed.

Lemma removeInactive_idempotent_witness :
  removeInactive (snd (removeInactive rawPipeline)) = removeInactive rawPipeline.
Proof.
  apply removeInactive_idempotent. intros name state Hin. simpl in Hin.
  repeat (destruct Hin as [Heq|Hin];
          [inversion Heq; subst; split; simpl; repeat constructor; simpl; tauto|]).
  contradiction.
Defined.

(** [removeInactive] only ever adds to the active maps.  After B is removed
    from the pipeline A -> B, the output of A, which no port shares any longer,
    is still listed as active, and A is still scheduled. *)
Lemma removeModule_keeps_active_entries :
  let s := stateOf (removeModule allSuccess insertionOrder 64 "B" chainAB) in
  occurrences (computeModuleStates s) 10 = 1%nat
  /\ activeOutputs (at_ (computeModuleStates s) "A") = [("out", mkRecord 10 100)]
  /\ executionOrder s = ["A"].
Proof. vm_compute. auto. Qed.

(** ** Phase 2: the caches and the counters *)

Lemma at_In (vs : Map ComputeModuleState) name state :
  NoDup (keys vs) -> In (name, state) vs -> at_ vs name = state.
Proof. intros Hnd Hin. unfold at_. rewrite (In_find _ _ _ Hnd Hin). reflexivity. Qed.

Lemma keys_In {V : Type} (m : Map V) (k : string) :
  In k (keys m) -> exists v, In (k, v) m.
Proof.
  unfold keys. rewrite in_map_iff. intros [[k' v] [Heq Hin]]. simpl in Heq.
  subst. eauto.
Qed.

Lemma In_keys {V : Type} (m : Map V) (k : string) (v : V) :
  In (k, v) m -> In k (keys m).
Proof. intros H. unfold keys. change k with (fst (k, v)). apply in_map. exact H. Qed.

Lemma pushInputs_spec name (ports : RecordMap) :
  forall (cache : DMap Z (list string)) (lh : Z),
    fold_left
      (fun cache p =>
         dsetZ cache (localeHash (snd p)) (cache (localeHash (snd p)) ++ [name]))
      ports cache lh
    = cache lh
      ++ map (fun _ => name) (filter (fun p => localeHash (snd p) =? lh) ports).
Proof.
  induction ports as [|[pin meta] rest IH]; intros cache lh; simpl.
  - rewrite app_nil_r. reflexivity.
  - rewrite IH. unfold dsetZ. rewrite (Z.eqb_sym (localeHash meta) lh).
    destruct (lh =? localeHash meta) eqn:E; simpl.
    + apply Z.eqb_eq in E. subst lh. rewrite <- app_assoc. reflexivity.
    + reflexivity.
Qed.

Lemma buildInputCache_spec (vs : Map ComputeModuleState) (lh : Z) :
  buildInputCache vs lh = flat_map (consumersOf lh) vs.
Proof.
  unfold buildInputCache.
  assert (Hgen : forall cache : DMap Z (list string),
             fold_left
               (fun cache e =>
                  fold_left
                    (fun cache p =>
                       let lh := localeHash (snd p) in
                       dsetZ cache lh (cache lh ++ [fst e]))
                    (activeInputs (snd e)) cache)
               vs cache lh
             = cache lh ++ flat_map (consumersOf lh) vs).
  { induction vs as [|[name state] rest IH]; intros cache; simpl.
    - rewrite app_nil_r. reflexivity.
    - rewrite IH. simpl. rewrite pushInputs_spec, <- app_assoc. reflexivity. }
  rewrite Hgen. reflexivity.
Qed.

Lemma consumers_are_keys (vs : Map ComputeModuleState) (lh : Z) (x : string) :
  In x (buildInputCache vs lh) -> In x (keys vs).
Proof.
  rewrite buildInputCache_spec, in_flat_map.
  intros [[name state] [Hin Hx]]. unfold consumersOf in Hx. simpl in Hx.
  apply in_map_iff in Hx. destruct Hx as [p [Heq _]]. subst x.
  eapply In_keys. exact Hin.
Qed.

Lemma targets_are_keys (vs : Map ComputeModuleState) (name x : string) :
  In x (targets vs name) -> In x (keys vs).
Proof.
  unfold targets. rewrite in_flat_map. intros [lh [_ Hx]].
  eapply consumers_are_keys. exact Hx.
Qed.

Lemma count_consumersOf (lh : Z) (e : string * ComputeModuleState) (x : string) :
  count_occ string_dec (consumersOf lh e) x
  = if String.eqb (fst e) x
    then count_occ Z.eq_dec (map (fun p => localeHash (snd p)) (activeInputs (snd e))) lh
    else 0%nat.
Proof.
  unfold consumersOf. destruct e as [name state]. simpl.
  induction (activeInputs state) as [|[pin meta] rest IH]; simpl.
  - destruct (String.eqb name x); reflexivity.
  - destruct (localeHash meta =? lh) eqn:E; simpl.
    + apply Z.eqb_eq in E. rewrite IH.
      destruct (Z.eq_dec (localeHash meta) lh); [|contradiction].
      destruct (string_dec name x) as [->|Hne].
      * rewrite String.eqb_refl. reflexivity.
      * apply String.eqb_neq in Hne. rewrite Hne. reflexivity.
    + apply Z.eqb_neq in E. rewrite IH.
      destruct (Z.eq_dec (localeHash meta) lh); [contradiction|].
      reflexivity.
Qed.

(** On a map with distinct keys, a module is listed under a locale hash once
    per active input of its own that reads the hash. *)
Lemma count_consumers (vs : Map ComputeModuleState) (lh : Z) (x : string) :
  NoDup (keys vs) ->
  In x (keys vs) ->
  count_occ string_dec (buildInputCache vs lh) x
  = count_occ Z.eq_dec (inLhs vs x) lh.
Proof.
  rewrite buildInputCache_spec. unfold inLhs, at_.
  induction vs as [|[name state] rest IH]; intros Hnd Hin; simpl.
  - contradiction.
  - simpl in Hnd. inversion Hnd as [|? ? Hnotin Hnd']; subst.
    rewrite count_occ_app, count_consumersOf. simpl.
    destruct (String.eqb x name) eqn:E.
    + apply String.eqb_eq in E. subst x. rewrite String.eqb_refl.
      assert (Hz : count_occ string_dec (flat_map (consumersOf lh) rest) name = 0%nat).
      { apply count_occ_not_In. rewrite in_flat_map.
        intros [[n st] [Hin' Hx]]. unfold consumersOf in Hx. simpl in Hx.
        apply in_map_iff in Hx. destruct Hx as [p [Heq _]]. subst n.
        apply Hnotin. eapply In_keys. exact Hin'. }
      rewrite Hz. lia.
    + rewrite String.eqb_sym, E. simpl.
      destruct Hin as [Heq|Hin]; [subst; rewrite String.eqb_refl in E; discriminate|].
      apply IH; assumption.
Qed.

Lemma initDegrees_frame (vs : Map ComputeModuleState) :
  forall acc name,
    ~ In name (keys vs) ->
    fst (fold_left initDegreesStep vs acc) name = fst acc name.
Proof.
  induction vs as [|[n st] rest IH]; intros acc name Hnotin; simpl.
  - reflexivity.
  - simpl in Hnotin. rewrite IH by tauto. unfold initDegreesStep, dsetS. simpl.
    destruct (String.eqb name n) eqn:E; [|reflexivity].
    apply String.eqb_eq in E. subst. tauto.
Qed.

Lemma initDegrees_degrees (vs : Map ComputeModuleState) name :
  NoDup (keys vs) ->
  In name (keys vs) ->
  fst (initDegrees vs) name = Z.of_nat (length (activeInputs (at_ vs name))).
Proof.
  unfold initDegrees. generalize (fun _ : string => 0, @nil string).
  unfold at_.
  induction vs as [|[n st] rest IH]; intros acc Hnd Hin; simpl.
  - contradiction.
  - simpl in Hnd. inversion Hnd as [|? ? Hnotin Hnd']; subst.
    destruct (String.eqb name n) eqn:E.
    + apply String.eqb_eq in E. subst n.
      rewrite initDegrees_frame by exact Hnotin.
      unfold initDegreesStep, dsetS. simpl. rewrite String.eqb_refl. reflexivity.
    + destruct Hin as [Heq|Hin]; [subst; rewrite String.eqb_refl in E; discriminate|].
      apply IH; assumption.
Qed.

Lemma initDegrees_queue (vs : Map ComputeModuleState) :
  forall acc x,
    In x (snd (fold_left initDegreesStep vs acc))
    <-> In x (snd acc)
        \/ exists state, In (x, state) vs /\ activeInputs state = [].
Proof.
  induction vs as [|[n st] rest IH]; intros acc x; simpl.
  - split; [auto|]. intros [H|[state [[] _]]]. exact H.
  - rewrite IH. unfold initDegreesStep at 1. simpl.
    destruct (activeInputs st) as [|p ps] eqn:Hin; simpl.
    + rewrite sset_emplace_In. split.
      * intros [[->|H]|[state [H1 H2]]]; eauto 6.
      * intros [H|[state [[Heq|H1] H2]]]; eauto.
        inversion Heq; subst. auto.
    + split.
      * intros [H|[state [H1 H2]]]; eauto.
      * intros [H|[state [[Heq|H1] H2]]]; eauto.
        inversion Heq; subst. congruence.
Qed.

Lemma initDegrees_queue_NoDup (vs : Map ComputeModuleState) :
  forall acc, NoDup (snd acc) -> NoDup (snd (fold_left initDegreesStep vs acc)).
Proof.
  induction vs as [|[n st] rest IH]; intros acc Hnd; simpl.
  - exact Hnd.
  - apply IH. unfold initDegreesStep. simpl.
    destruct (Z.of_nat (length (activeInputs st)) =? 0); [|exact Hnd].
    apply sset_emplace_NoDup. exact Hnd.
Qed.

(** *** The decrement loop *)

Lemma wrap64_minus (a b : Z) : wrap64 (wrap64 a - b) = wrap64 (a - b).
Proof. unfold wrap64. apply Zminus_mod_idemp_l. Qed.

Lemma release_targets (vs : Map ComputeModuleState) name acc :
  release vs (buildInputCache vs) name acc
  = fold_left decrement (targets vs name) acc.
Proof.
  unfold release, targets, outLhs.
  revert acc. induction (activeOutputs (at_ vs name)) as [|p rest IH];
    intros acc; simpl.
  - reflexivity.
  - rewrite fold_left_app. apply IH.
Qed.

(** After the decrements of [l]: the counter of [x] has gone down by the
    number of occurrences of [x] in [l], modulo [2^64]. *)
Lemma decrement_degrees (l : list string) :
  forall (acc : DMap string Z * list string) x base,
  fst acc x = wrap64 base ->
  fst (fold_left decrement l acc) x
  = wrap64 (base - Z.of_nat (count_occ string_dec l x)).
Proof.
  induction l as [|a l IH]; intros acc x base Hbase; simpl.
  - rewrite Z.sub_0_r. exact Hbase.
  - destruct (string_dec a x) as [->|Hne].
    + rewrite (IH _ x (base - 1)).
      * f_equal. lia.
      * unfold decrement, dsetS. simpl. rewrite String.eqb_refl, Hbase.
        apply wrap64_minus.
    + apply IH. unfold decrement, dsetS. simpl.
      destruct (String.eqb x a) eqn:E; [|exact Hbase].
      apply String.eqb_eq in E. congruence.
Qed.

(** After the decrements of [l], the ready set holds what it held plus the
    modules whose counter reached zero at one of their decrements. *)
Lemma decrement_queue (l : list string) :
  forall (acc : DMap string Z * list string) x base,
  fst acc x = wrap64 base ->
  (In x (snd (fold_left decrement l acc))
   <-> In x (snd acc)
       \/ exists j, (1 <= j <= count_occ string_dec l x)%nat
                    /\ wrap64 (base - Z.of_nat j) = 0).
Proof.
  induction l as [|a l IH]; intros acc x base Hbase; simpl.
  - split; [auto|]. intros [H|[j [Hj _]]]; [exact H|lia].
  - destruct (string_dec a x) as [->|Hne].
    + rewrite (IH _ x (base - 1)).
      2:{ unfold decrement, dsetS. simpl. rewrite String.eqb_refl, Hbase.
          apply wrap64_minus. }
      unfold decrement at 1. simpl. rewrite Hbase, wrap64_minus.
      split.
      * intros [H|[j [Hj Hz]]].
        -- destruct (wrap64 (base - 1) =? 0) eqn:E.
           ++ apply sset_emplace_In in H. destruct H as [_|H]; [|now left].
              right. exists 1%nat. split; [lia|]. apply Z.eqb_eq in E. exact E.
           ++ now left.
        -- right. exists (S j). split; [lia|].
           replace (base - Z.of_nat (S j)) with (base - 1 - Z.of_nat j) by lia.
           exact Hz.
      * intros [H|[j [Hj Hz]]].
        -- left. destruct (wrap64 (base - 1) =? 0); [|exact H].
           apply sset_emplace_In. now right.
        -- destruct (Nat.eq_dec j 1) as [->|Hj1].
           ++ left. change (Z.of_nat 1) with 1 in Hz. rewrite Hz. simpl.
              apply sset_emplace_In. now left.
           ++ right. exists (j - 1)%nat. split; [lia|].
              replace (base - 1 - Z.of_nat (j - 1)) with (base - Z.of_nat j) by lia.
              exact Hz.
    + rewrite (IH _ x base).
      2:{ unfold decrement, dsetS. simpl.
          destruct (String.eqb x a) eqn:E; [|exact Hbase].
          apply String.eqb_eq in E. congruence. }
      unfold decrement at 1. simpl.
      assert (Hq : In x (if wrap64 (fst acc a - 1) =? 0
                         then sset_emplace a (snd acc) else snd acc)
                   <-> In x (snd acc)).
      { destruct (wrap64 (fst acc a - 1) =? 0); [|tauto].
        rewrite sset_emplace_In. split; [intros [H|H]; congruence|auto]. }
      rewrite Hq. tauto.
Qed.

Lemma decrement_queue_NoDup (l : list string) :
  forall acc : DMap string Z * list string,
  NoDup (snd acc) -> NoDup (snd (fold_left decrement l acc)).
Proof.
  induction l as [|a l IH]; intros acc Hnd; simpl.
  - exact Hnd.
  - apply IH. unfold decrement. simpl.
    destruct (wrap64 (fst acc a - 1) =? 0); [|exact Hnd].
    apply sset_emplace_NoDup. exact Hnd.
Qed.

(** ** Phase 2: the invariant of the ordering loop *)

Lemma count_flat_map_incl {A B : Type} (dec : forall x y : B, {x = y} + {x <> y})
    (f : A -> list B) (x : B) (l : list A) : forall l',
  NoDup l -> incl l l' ->
  (count_occ dec (flat_map f l) x <= count_occ dec (flat_map f l') x)%nat.
Proof.
  induction l as [|a l0 IH]; intros l' Hnd Hincl; simpl.
  - lia.
  - inversion Hnd as [|? ? Hnotin Hnd0]; subst.
    assert (Ha : In a l') by (apply Hincl; now left).
    apply in_split in Ha. destruct Ha as (l1 & l2 & ->).
    assert (Hincl0 : incl l0 (l1 ++ l2)).
    { intros y Hy. assert (Hy' : In y (l1 ++ a :: l2)) by (apply Hincl; now right).
      apply in_app_or in Hy'. apply in_or_app.
      destruct Hy' as [H|[H|H]]; auto. subst. contradiction. }
    specialize (IH (l1 ++ l2) Hnd0 Hincl0).
    rewrite !flat_map_app in *. simpl. rewrite !count_occ_app in *. lia.
Qed.

Lemma decrements_bound (vs : Map ComputeModuleState) (done : list string) x :
  NoDup done -> incl done (keys vs) ->
  (decrements vs done x <= decrements vs (keys vs) x)%nat.
Proof. intros. unfold decrements. apply count_flat_map_incl; assumption. Qed.

Lemma decrements_snoc (vs : Map ComputeModuleState) (done : list string) name x :
  decrements vs (done ++ [name]) x
  = (decrements vs done x + count_occ string_dec (targets vs name) x)%nat.
Proof.
  unfold decrements. rewrite flat_map_app, count_occ_app. simpl.
  rewrite app_nil_r. reflexivity.
Qed.

Lemma wrap64_small (z : Z) : 0 <= z < 2 ^ 64 -> wrap64 z = z.
Proof. intros H. unfold wrap64. apply Z.mod_small. exact H. Qed.

Lemma wrap64_zero (z : Z) : - 2 ^ 64 < z < 2 ^ 64 -> wrap64 z = 0 -> z = 0.
Proof.
  unfold wrap64. intros Hr Hz.
  apply Z.mod_divide in Hz; [|lia]. destruct Hz as [q Hq].
  assert (q = 0) by nia. lia.
Qed.

Lemma initOrderState_inv (vs : Map ComputeModuleState) :
  NoDup (keys vs) -> fitsU64 vs -> orderInv vs (initOrderState vs).
Proof.
  intros Hnd Hfit. unfold initOrderState.
  assert (Hq : forall x, In x (snd (initDegrees vs))
                         <-> exists state, In (x, state) vs /\ activeInputs state = []).
  { intros x. unfold initDegrees. rewrite initDegrees_queue. simpl.
    split; [intros [[]|H]; exact H|auto]. }
  constructor; simpl.
  - constructor.
  - apply initDegrees_queue_NoDup. constructor.
  - auto.
  - intros x [H|[]]. apply Hq in H. destruct H as [state [H _]].
    eapply In_keys. exact H.
  - intros x Hx. rewrite initDegrees_degrees by assumption.
    unfold decrements, degreeOf. simpl. rewrite Z.sub_0_r.
    symmetry. apply wrap64_small. destruct (Hfit x Hx) as [H _]. lia.
  - intros x Hx. unfold decrements, degreeOf. simpl. rewrite Hq. split.
    + intros [[state [Hin Hempty]]|[]].
      rewrite (at_In vs x state Hnd Hin), Hempty. simpl. lia.
    + intros Hle. left. destruct (keys_In vs x Hx) as [state Hin].
      exists state. split; [exact Hin|].
      rewrite (at_In vs x state Hnd Hin) in Hle.
      destruct (activeInputs state); [reflexivity|simpl in Hle; lia].
Qed.

Lemma NoDup_snoc {A : Type} (l : list A) (a : A) :
  NoDup l -> ~ In a l -> NoDup (l ++ [a]).
Proof.
  intros Hnd Hnotin. apply NoDup_rev in Hnd.
  rewrite <- (rev_involutive (l ++ [a])). apply NoDup_rev.
  rewrite rev_app_distr. simpl. constructor; [|exact Hnd].
  rewrite <- in_rev. exact Hnotin.
Qed.

Lemma decrement_queue_absent (l : list string) :
  forall (acc : DMap string Z * list string) x,
    ~ In x l ->
    (In x (snd (fold_left decrement l acc)) <-> In x (snd acc)).
Proof.
  induction l as [|a l IH]; intros acc x Hnotin; simpl.
  - tauto.
  - simpl in Hnotin. rewrite IH by tauto. unfold decrement. simpl.
    destruct (wrap64 (fst acc a - 1) =? 0); [|tauto].
    rewrite sset_emplace_In. split; [intros [H|H]|]; auto. subst. tauto.
Qed.

(** Within the range of the counters, a counter reaches zero at one of the
    next [n] decrements exactly when the decrements received pass the initial
    degree. *)
Lemma reaches_zero_iff (d : Z) (c n : nat) :
  0 <= d < 2 ^ 64 -> Z.of_nat (c + n) < 2 ^ 64 ->
  (exists j, (1 <= j <= n)%nat /\ wrap64 (d - Z.of_nat c - Z.of_nat j) = 0)
  <-> Z.of_nat c < d <= Z.of_nat (c + n).
Proof.
  intros Hd Hc. split.
  - intros [j [Hj Hz]]. apply wrap64_zero in Hz; lia.
  - intros H. exists (Z.to_nat (d - Z.of_nat c)). split; [lia|].
    replace (d - Z.of_nat c - Z.of_nat (Z.to_nat (d - Z.of_nat c))) with 0 by lia.
    reflexivity.
Qed.

(** Scheduling a ready module keeps the invariant. *)
Lemma select_inv (vs : Map ComputeModuleState) (st : OrderState)
    (name : string) (dev : Device) :
  fitsU64 vs -> orderInv vs st -> In name (queue st) ->
  orderInv vs
    (mkOrderState
       (snd (release vs (buildInputCache vs) name
               (degrees st, sset_erase name (queue st))))
       (fst (release vs (buildInputCache vs) name
               (degrees st, sset_erase name (queue st))))
       dev (order st ++ [name])).
Proof.
  intros Hfit [Hond Hqnd Hdisj Hkeys Hdeg Hready] Hname.
  rewrite release_targets.
  set (acc0 := (degrees st, sset_erase name (queue st)) : DMap string Z * list string).
  assert (Hnotin : ~ In name (order st)) by (apply Hdisj; exact Hname).
  assert (Hond' : NoDup (order st ++ [name])) by (apply NoDup_snoc; assumption).
  assert (Hincl' : incl (order st ++ [name]) (keys vs)).
  { intros y Hy. apply in_app_or in Hy. destruct Hy as [Hy|[<-|[]]]; auto. }
  assert (Hbound : forall x, In x (keys vs) ->
             0 <= degreeOf vs x < 2 ^ 64
             /\ Z.of_nat (decrements vs (order st) x
                          + count_occ string_dec (targets vs name) x) < 2 ^ 64).
  { intros x Hx. destruct (Hfit x Hx) as [H1 H2]. split.
    - unfold degreeOf. lia.
    - rewrite <- decrements_snoc.
      pose proof (decrements_bound vs (order st ++ [name]) x Hond' Hincl'). lia. }
  assert (Hq : forall x, In x (keys vs) ->
             (In x (snd (fold_left decrement (targets vs name) acc0))
              <-> (In x (queue st) /\ x <> name)
                  \/ Z.of_nat (decrements vs (order st) x) < degreeOf vs x
                     <= Z.of_nat (decrements vs (order st) x
                                  + count_occ string_dec (targets vs name) x))).
  { intros x Hx. destruct (Hbound x Hx) as [Hd Hc].
    rewrite (decrement_queue (targets vs name) acc0 x
               (degreeOf vs x - Z.of_nat (decrements vs (order st) x)))
      by (apply Hdeg; exact Hx).
    simpl. rewrite sset_erase_In. rewrite (reaches_zero_iff _ _ _ Hd Hc). tauto. }
  assert (Hqk : forall x, In x (snd (fold_left decrement (targets vs name) acc0)) ->
                          In x (keys vs)).
  { intros x Hx. destruct (in_dec string_dec x (targets vs name)) as [Hin|Hout].
    - eapply targets_are_keys. exact Hin.
    - apply decrement_queue_absent in Hx; [|exact Hout]. simpl in Hx.
      apply sset_erase_In in Hx. apply Hkeys. left. tauto. }
  constructor; simpl.
  - exact Hond'.
  - apply decrement_queue_NoDup. simpl. apply sset_erase_NoDup. exact Hqnd.
  - intros x Hx Hin. pose proof (Hqk x Hx) as Hxk.
    apply (Hq x Hxk) in Hx. apply in_app_or in Hin.
    destruct Hx as [[Hxq Hne]|Hlt].
    + destruct Hin as [Hin|[Heq|[]]]; [exact (Hdisj x Hxq Hin)|congruence].
    + assert (Hno : ~ (In x (queue st) \/ In x (order st))).
      { rewrite (Hready x Hxk). lia. }
      destruct Hin as [Hin|[Heq|[]]]; [tauto|]. subst x. tauto.
  - intros x [Hx|Hx]; [exact (Hqk x Hx)|exact (Hincl' x Hx)].
  - intros x Hx.
    rewrite (decrement_degrees (targets vs name) acc0 x
               (degreeOf vs x - Z.of_nat (decrements vs (order st) x)))
      by (apply Hdeg; exact Hx).
    rewrite decrements_snoc. f_equal. lia.
  - intros x Hx. rewrite (Hq x Hx), decrements_snoc, in_app_iff. simpl.
    pose proof (Hready x Hx) as Hr. split.
    + intros [[[Hxq _]|Hlt]|[Hxo|[Heq|[]]]].
      * assert (degreeOf vs x <= Z.of_nat (decrements vs (order st) x))
          by (apply Hr; now left). lia.
      * lia.
      * assert (degreeOf vs x <= Z.of_nat (decrements vs (order st) x))
          by (apply Hr; now right). lia.
      * subst x.
        assert (degreeOf vs name <= Z.of_nat (decrements vs (order st) name))
          by (apply Hr; now left). lia.
    + intros Hle.
      destruct (Z_le_gt_dec (degreeOf vs x) (Z.of_nat (decrements vs (order st) x)))
        as [Hold|Hnew].
      * apply Hr in Hold. destruct Hold as [Hxq|Hxo]; [|auto].
        destruct (string_dec x name) as [->|Hne]; [auto|]. left. left. auto.
      * left. right. lia.
Qed.

(** ** Phase 2: progress and termination of the ordering loop *)

Lemma scanQueue_found (vs : Map ComputeModuleState) (names : list string) :
  forall ld dev name,
    scanQueue vs names ld = (dev, name) ->
    name <> "" ->
    In name names /\ dev = device (at_ vs name).
Proof.
  induction names as [|x rest IH]; intros ld dev name Hscan Hne; simpl in Hscan.
  - inversion Hscan; subst. congruence.
  - destruct (Device_eqb (device (at_ vs x))
                (if Device_eqb ld Device_None then device (at_ vs x) else ld)).
    + inversion Hscan; subst. split; [now left|reflexivity].
    + destruct (IH _ _ _ Hscan Hne) as [Hin Hdev]. split; [now right|exact Hdev].
Qed.

Lemma scanQueue_fresh_device (vs : Map ComputeModuleState) (x : string)
    (rest : list string) :
  scanQueue vs (x :: rest) Device_None = (device (at_ vs x), x).
Proof.
  simpl. replace (Device_eqb Device_None Device_None) with true by reflexivity.
  replace (Device_eqb (device (at_ vs x)) (device (at_ vs x))) with true.
  - reflexivity.
  - symmetry. apply Device_eqb_eq. reflexivity.
Qed.

Lemma orderStep_reset vs cache visit st dev :
  scanQueue vs visit (lastDevice st) = (dev, "") ->
  orderStep vs cache visit st = resetOf st.
Proof. intros H. unfold orderStep. rewrite H. reflexivity. Qed.

Lemma orderStep_select vs cache visit st dev name :
  scanQueue vs visit (lastDevice st) = (dev, name) ->
  name <> "" ->
  orderStep vs cache visit st
  = mkOrderState
      (snd (release vs cache name (degrees st, sset_erase name (queue st))))
      (fst (release vs cache name (degrees st, sset_erase name (queue st))))
      dev (order st ++ [name]).
Proof.
  intros H Hne. unfold orderStep. rewrite H.
  destruct (String.eqb name "") eqn:E; [|reflexivity].
  apply String.eqb_eq in E. congruence.
Qed.

Lemma orderStep_inv vs visit st :
  fitsU64 vs -> orderInv vs st -> incl visit (queue st) ->
  orderInv vs (orderStep vs (buildInputCache vs) visit st).
Proof.
  intros Hfit Hinv Hincl.
  destruct (scanQueue vs visit (lastDevice st)) as [dev name] eqn:Hscan.
  destruct (string_dec name "") as [->|Hne].
  - rewrite (orderStep_reset _ _ _ _ _ Hscan).
    destruct Hinv. constructor; assumption.
  - rewrite (orderStep_select _ _ _ _ _ _ Hscan Hne).
    apply select_inv; try assumption.
    apply Hincl. apply (scanQueue_found _ _ _ _ _ Hscan Hne).
Qed.

Lemma orderStep_selects vs visit st dev name :
  fitsU64 vs -> orderInv vs st -> incl visit (queue st) ->
  scanQueue vs visit (lastDevice st) = (dev, name) ->
  name <> "" ->
  selects st (orderStep vs (buildInputCache vs) visit st).
Proof.
  intros Hfit Hinv Hincl Hscan Hne.
  pose proof (orderStep_inv vs visit st Hfit Hinv Hincl) as Hinv'.
  rewrite (orderStep_select _ _ _ _ _ _ Hscan Hne) in *.
  exists name. split; [|split].
  - apply Hincl. apply (scanQueue_found _ _ _ _ _ Hscan Hne).
  - reflexivity.
  - intros Hq. apply (inv_disjoint _ _ Hinv' name Hq). simpl.
    apply in_or_app. right. now left.
Qed.

(** From a state with a ready module, a pass schedules a module, or it resets
    the device and the pass after it schedules one. *)
Lemma orderStep_progress vs st visit1 visit2 :
  fitsU64 vs -> ~ In "" (keys vs) -> orderInv vs st ->
  queue st <> [] ->
  Permutation visit1 (queue st) -> Permutation visit2 (queue st) ->
  selects st (orderStep vs (buildInputCache vs) visit1 st)
  \/ (orderStep vs (buildInputCache vs) visit1 st = resetOf st
      /\ lastDevice st <> Device_None
      /\ selects (resetOf st)
           (orderStep vs (buildInputCache vs) visit2 (resetOf st))).
Proof.
  intros Hfit Hnames Hinv Hne Hp1 Hp2.
  assert (Hnonempty : forall x, In x (queue st) -> x <> "").
  { intros x Hx ->. apply Hnames. apply (inv_keys _ _ Hinv). now left. }
  assert (Hincl : forall visit, Permutation visit (queue st) -> incl visit (queue st)).
  { intros visit Hp y Hy. eapply Permutation_in; eassumption. }
  assert (Hfresh : forall visit st0,
             queue st0 = queue st -> lastDevice st0 = Device_None ->
             orderInv vs st0 -> Permutation visit (queue st) ->
             selects st0 (orderStep vs (buildInputCache vs) visit st0)).
  { intros visit st0 Hq Hld Hinv0 Hp.
    destruct visit as [|x rest].
    - apply Permutation_nil in Hp. congruence.
    - apply (orderStep_selects vs (x :: rest) st0 (device (at_ vs x)) x);
        try assumption.
      + rewrite Hq. apply Hincl. exact Hp.
      + rewrite Hld. apply scanQueue_fresh_device.
      + apply Hnonempty. apply (Hincl _ Hp). now left. }
  destruct (scanQueue vs visit1 (lastDevice st)) as [dev name] eqn:Hscan.
  destruct (string_dec name "") as [->|Hnamed].
  - right. split; [exact (orderStep_reset _ _ _ _ _ Hscan)|]. split.
    + intros Hld.
      pose proof (Hfresh visit1 st eq_refl Hld Hinv Hp1) as [n (Hn & Ho & _)].
      rewrite (orderStep_reset _ _ _ _ _ Hscan) in Ho. simpl in Ho.
      apply (f_equal (@length string)) in Ho. rewrite length_app in Ho.
      simpl in Ho. lia.
    + apply Hfresh; try reflexivity; [|exact Hp2].
      destruct Hinv. constructor; assumption.
  - left. eapply orderStep_selects; try eassumption. apply Hincl. exact Hp1.
Qed.

Lemma orderInv_room vs st :
  NoDup (keys vs) -> orderInv vs st -> queue st <> [] ->
  (length (order st) < length vs)%nat.
Proof.
  intros Hnd Hinv Hne.
  assert (Hnd' : NoDup (queue st ++ order st)).
  { apply NoDup_app.
    - exact (inv_queue_nodup _ _ Hinv).
    - exact (inv_order_nodup _ _ Hinv).
    - exact (inv_disjoint _ _ Hinv). }
  assert (Hincl : incl (queue st ++ order st) (keys vs)).
  { intros y Hy. apply in_app_or in Hy. apply (inv_keys _ _ Hinv). exact Hy. }
  pose proof (NoDup_incl_length Hnd' Hincl) as Hlen.
  rewrite length_app in Hlen. unfold keys in Hlen. rewrite length_map in Hlen.
  destruct (queue st); [congruence|]. simpl in Hlen. lia.
Qed.

(** The loop ends with an empty ready set as soon as the fuel covers
    [passesLeft]. *)
Lemma orderLoop_ends queueIter vs :
  (forall k q, Permutation (queueIter k q) q) ->
  NoDup (keys vs) -> ~ In "" (keys vs) -> fitsU64 vs ->
  forall fuel k st,
    orderInv vs st ->
    (passesLeft vs st <= fuel)%nat ->
    exists st',
      orderLoop queueIter vs (buildInputCache vs) fuel k st = Some st'
      /\ queue st' = [] /\ orderInv vs st'.
Proof.
  intros Hperm Hnd Hnames Hfit.
  induction fuel as [|fuel IH]; intros k st Hinv Hfuel.
  - destruct (queue st) eqn:Hq.
    + exists st. simpl. rewrite Hq. auto.
    + assert (Hroom : (length (order st) < length vs)%nat).
      { apply orderInv_room; try assumption. congruence. }
      unfold passesLeft in Hfuel. lia.
  - destruct (queue st) as [|q0 qs] eqn:Hq.
    + exists st. simpl. rewrite Hq. auto.
    + simpl. rewrite Hq. rewrite <- Hq.
      assert (Hne : queue st <> []) by congruence.
      pose proof (orderInv_room vs st Hnd Hinv Hne) as Hroom.
      assert (Hincl : incl (queueIter k (queue st)) (queue st)).
      { intros y Hy. eapply Permutation_in; [apply Hperm|exact Hy]. }
      pose proof (orderStep_inv vs _ st Hfit Hinv Hincl) as Hinv'.
      apply IH; [exact Hinv'|].
      destruct (orderStep_progress vs st _ _ Hfit Hnames Hinv Hne
                  (Hperm k (queue st)) (Hperm k (queue st)))
        as [[name (_ & Ho & _)]|(Hreset & Hld & _)].
      * unfold passesLeft in *. rewrite Ho, length_app. cbn [length].
        destruct (Device_eqb (lastDevice (orderStep _ _ _ st)) Device_None);
          destruct (Device_eqb (lastDevice st) Device_None); lia.
      * rewrite Hreset. unfold passesLeft, resetOf in *. cbn [order lastDevice].
        replace (Device_eqb Device_None Device_None) with true by reflexivity.
        destruct (Device_eqb (lastDevice st) Device_None) eqn:E; [|lia].
        apply Device_eqb_eq in E. contradiction.
Qed.

(** C8 (as amended).  On valid modules whose keys are distinct non-empty
    strings and whose counters fit 64 bits, whatever the order in which the
    ready set is visited: from every state the loop reaches with a ready
    module, a pass schedules a module and takes it off the ready set, or it
    resets the device and the very next pass does so; and the loop ends,
    with an empty ready set, within two passes per valid module. *)
Theorem orderLoop_terminates queueIter vs :
  (forall k q, Permutation (queueIter k q) q) ->
  NoDup (keys vs) -> ~ In "" (keys vs) -> fitsU64 vs ->
  (forall st visit1 visit2,
      orderInv vs st -> queue st <> [] ->
      Permutation visit1 (queue st) -> Permutation visit2 (queue st) ->
      selects st (orderStep vs (buildInputCache vs) visit1 st)
      \/ (orderStep vs (buildInputCache vs) visit1 st = resetOf st
          /\ selects (resetOf st)
               (orderStep vs (buildInputCache vs) visit2 (resetOf st))))
  /\ orderInv vs (initOrderState vs)
  /\ exists st',
       orderLoop queueIter vs (buildInputCache vs) (2 * length vs) 0
         (initOrderState vs) = Some st'
       /\ queue st' = [].
Proof.
  intros Hperm Hnd Hnames Hfit. split; [|split].
  - intros st visit1 visit2 Hinv Hne Hp1 Hp2.
    destruct (orderStep_progress vs st visit1 visit2 Hfit Hnames Hinv Hne Hp1 Hp2)
      as [H|(H1 & _ & H2)]; auto.
  - apply initOrderState_inv; assumption.
  - destruct (orderLoop_ends queueIter vs Hperm Hnd Hnames Hfit
                (2 * length vs)%nat 0%nat (initOrderState vs))
      as (st' & Hloop & Hq & _).
    + apply initOrderState_inv; assumption.
    + unfold passesLeft, initOrderState. simpl. lia.
    + eauto.
Qed.

Lemma pipelineStates_keys : keys pipelineStates = ["A"; "B"; "C"; "P"; "Q"].
Proof. reflexivity. Qed.

Lemma pipelineStates_NoDup : NoDup (keys pipelineStates).
Proof.
  rewrite pipelineStates_keys.
  repeat (constructor; [simpl; intuition discriminate|]). constructor.
Qed.

Lemma pipelineStates_fitsU64 : fitsU64 pipelineStates.
Proof.
  intros name Hin. rewrite pipelineStates_keys in Hin. simpl in Hin.
  repeat (destruct Hin as [<-|Hin]; [vm_compute; split; reflexivity|]).
  contradiction.
Qed.

Lemma insertionOrder_Permutation (k : nat) (q : list string) :
  Permutation (insertionOrder k q) q.
Proof. apply Permutation_refl. Qed.

Lemma orderLoop_terminates_witness :
  exists st',
    orderLoop insertionOrder pipelineStates (buildInputCache pipelineStates)
      (2 * length pipelineStates) 0 (initOrderState pipelineStates) = Some st'
    /\ queue st' = [].
Proof.
  apply (orderLoop_terminates insertionOrder pipelineStates).
  - exact insertionOrder_Permutation.
  - exact pipelineStates_NoDup.
  - rewrite pipelineStates_keys. simpl. intuition discriminate.
  - exact pipelineStates_fitsU64.
Defined.

(** C8 (as stated) fails when a valid module is registered under the empty
    key: the pass that picks it finds [nextName] empty, takes it for "no
    module found", resets the device and starts over, for ever. *)
Lemma orderLoop_spins_on_empty_key :
  queue (initOrderState namelessStates) = [""]
  /\ ~ exists fuel st',
         orderLoop insertionOrder namelessStates (buildInputCache namelessStates)
           fuel 0 (initOrderState namelessStates) = Some st'.
Proof.
  split; [reflexivity|].
  assert (Hstep : orderStep namelessStates (buildInputCache namelessStates)
                    (insertionOrder 0 (queue (initOrderState namelessStates)))
                    (initOrderState namelessStates)
                  = initOrderState namelessStates) by reflexivity.
  assert (Hnone : forall fuel k,
             orderLoop insertionOrder namelessStates
               (buildInputCache namelessStates) fuel k
               (initOrderState namelessStates) = None).
  { induction fuel as [|fuel IH]; intros k.
    - reflexivity.
    - change (orderLoop insertionOrder namelessStates
                (buildInputCache namelessStates) fuel (S k)
                (orderStep namelessStates (buildInputCache namelessStates)
                   (insertionOrder 0 (queue (initOrderState namelessStates)))
                   (initOrderState namelessStates)) = None).
      rewrite Hstep. apply IH. }
  intros (fuel & st' & H). rewrite Hnone in H. discriminate.
Qed.

(** ** Phase 2: the order is topological *)

Lemma memZ_In (l : list Z) (x : Z) : memZ l x = true <-> In x l.
Proof.
  unfold memZ. rewrite existsb_exists. split.
  - intros [y [Hin Heq]]. apply Z.eqb_eq in Heq. congruence.
  - intros Hin. exists x. split; [exact Hin|apply Z.eqb_refl].
Qed.

Lemma NoDup_flat_map_incl {A : Type} (f : A -> list Z) (l l' : list A) :
  NoDup l -> incl l l' -> NoDup (flat_map f l') -> NoDup (flat_map f l).
Proof.
  intros Hnd Hincl Hall. apply (NoDup_count_occ Z.eq_dec). intros x.
  rewrite (NoDup_count_occ Z.eq_dec) in Hall. specialize (Hall x).
  pose proof (count_flat_map_incl Z.eq_dec f x l l' Hnd Hincl). lia.
Qed.

Lemma filter_cons_count (a : Z) (A B : list Z) :
  ~ In a A ->
  length (filter (memZ (a :: A)) B)
  = (count_occ Z.eq_dec B a + length (filter (memZ A) B))%nat.
Proof.
  intros Hnotin. induction B as [|b B IH]; simpl.
  - reflexivity.
  - unfold memZ at 1. simpl. fold (memZ A b).
    destruct (Z.eq_dec b a) as [->|Hne].
    + rewrite Z.eqb_refl. simpl.
      assert (Hm : memZ A a = false).
      { destruct (memZ A a) eqn:E; [|reflexivity].
        apply memZ_In in E. contradiction. }
      rewrite Hm. rewrite IH. lia.
    + assert (Hb : (b =? a) = false) by (apply Z.eqb_neq; exact Hne).
      rewrite Hb. simpl. destruct (memZ A b); simpl; rewrite IH; lia.
Qed.

(** With one producer per locale hash, the decrements a module has received
    count its active inputs that the scheduled modules produce. *)
Lemma count_cache_produced (vs : Map ComputeModuleState) (name : string)
    (A : list Z) :
  NoDup (keys vs) -> In name (keys vs) -> NoDup A ->
  count_occ string_dec (flat_map (buildInputCache vs) A) name
  = length (filter (memZ A) (inLhs vs name)).
Proof.
  intros Hnd Hin. induction A as [|a A IH]; intros HA; simpl.
  - induction (inLhs vs name); [reflexivity|exact IHl].
  - inversion HA as [|? ? Hnotin HA']; subst.
    rewrite count_occ_app, (count_consumers vs a name Hnd Hin), (IH HA').
    rewrite filter_cons_count by exact Hnotin. reflexivity.
Qed.

Lemma flat_map_targets (vs : Map ComputeModuleState) (done : list string) :
  flat_map (targets vs) done
  = flat_map (buildInputCache vs) (flat_map (outLhs vs) done).
Proof.
  induction done as [|p done IH]; simpl.
  - reflexivity.
  - rewrite flat_map_app, IH. reflexivity.
Qed.

Lemma decrements_produced (vs : Map ComputeModuleState) (done : list string)
    (name : string) :
  NoDup (keys vs) -> In name (keys vs) ->
  NoDup (flat_map (outLhs vs) done) ->
  decrements vs done name
  = length (filter (memZ (flat_map (outLhs vs) done)) (inLhs vs name)).
Proof.
  intros Hnd Hin HA. unfold decrements. rewrite flat_map_targets.
  apply count_cache_produced; assumption.
Qed.

(** With one producer per locale hash a module receives at most one decrement
    per active input, so the counters fit as soon as the sizes do. *)
Lemma fitsU64_unique (vs : Map ComputeModuleState) :
  NoDup (keys vs) -> uniqueProducers vs -> sizesFitU64 vs -> fitsU64 vs.
Proof.
  intros Hnd Huniq Hsize name Hin. split; [exact (Hsize name Hin)|].
  rewrite (decrements_produced vs (keys vs) name Hnd Hin Huniq).
  pose proof (filter_length_le (memZ (flat_map (outLhs vs) (keys vs)))
                (inLhs vs name)) as Hle.
  specialize (Hsize name Hin). unfold inLhs in *. rewrite length_map in Hle. lia.
Qed.

Lemma filter_length_all {A : Type} (f : A -> bool) (l : list A) :
  (length l <= length (filter f l))%nat -> forall x, In x l -> f x = true.
Proof.
  induction l as [|a l IH]; simpl; intros Hlen x Hin.
  - contradiction.
  - pose proof (filter_length_le f l) as Hle.
    destruct (f a) eqn:E; simpl in Hlen.
    + destruct Hin as [<-|Hin]; [exact E|]. apply IH; [lia|exact Hin].
    + lia.
Qed.

(** A ready module has all its active inputs produced by scheduled modules. *)
Lemma ready_inputs_produced (vs : Map ComputeModuleState) (st : OrderState)
    (name : string) (lh : Z) :
  NoDup (keys vs) -> uniqueProducers vs -> orderInv vs st ->
  In name (queue st) -> In lh (inLhs vs name) ->
  exists producer, In producer (order st) /\ In lh (outLhs vs producer).
Proof.
  intros Hnd Huniq Hinv Hq Hlh.
  assert (Hk : In name (keys vs)) by (apply (inv_keys _ _ Hinv); now left).
  assert (Hincl : incl (order st) (keys vs)).
  { intros y Hy. apply (inv_keys _ _ Hinv). now right. }
  assert (HA : NoDup (flat_map (outLhs vs) (order st))).
  { apply (NoDup_flat_map_incl _ _ (keys vs));
      [exact (inv_order_nodup _ _ Hinv)|exact Hincl|exact Huniq]. }
  assert (Hready : degreeOf vs name <= Z.of_nat (decrements vs (order st) name)).
  { apply (inv_ready _ _ Hinv name Hk). now left. }
  rewrite (decrements_produced vs _ name Hnd Hk HA) in Hready.
  assert (Hall : forall x, In x (inLhs vs name) ->
                           memZ (flat_map (outLhs vs) (order st)) x = true).
  { apply filter_length_all. unfold degreeOf in Hready. unfold inLhs in *.
    rewrite length_map. lia. }
  specialize (Hall lh Hlh). apply memZ_In in Hall.
  apply in_flat_map in Hall. exact Hall.
Qed.

Lemma snoc_split {A : Type} (pre post l : list A) (x y : A) :
  pre ++ x :: post = l ++ [y] ->
  (post = [] /\ pre = l /\ x = y)
  \/ exists post', post = post' ++ [y] /\ l = pre ++ x :: post'.
Proof.
  intros H. destruct (exists_last (l := x :: post)) as (body & z & Hlast);
    [discriminate|].
  destruct post as [|p post].
  - left. change (pre ++ [x] = l ++ [y]) in H. apply app_inj_tail in H.
    tauto.
  - right. destruct (exists_last (l := p :: post)) as (post' & z' & Hz);
      [discriminate|].
    rewrite Hz in H.
    replace (pre ++ x :: post' ++ [z']) with ((pre ++ x :: post') ++ [z']) in H
      by (rewrite <- app_assoc; reflexivity).
    apply app_inj_tail in H. destruct H as [Hl Hy]. subst.
    exists post'. split; [exact Hz|reflexivity].
Qed.

Lemma orderStep_topo vs visit st :
  NoDup (keys vs) -> uniqueProducers vs -> orderInv vs st -> topoInv vs st ->
  incl visit (queue st) ->
  topoInv vs (orderStep vs (buildInputCache vs) visit st).
Proof.
  intros Hnd Huniq Hinv Htopo Hincl.
  destruct (scanQueue vs visit (lastDevice st)) as [dev name] eqn:Hscan.
  destruct (string_dec name "") as [->|Hne].
  - rewrite (orderStep_reset _ _ _ _ _ Hscan). exact Htopo.
  - rewrite (orderStep_select _ _ _ _ _ _ Hscan Hne).
    assert (Hq : In name (queue st)).
    { apply Hincl. apply (scanQueue_found _ _ _ _ _ Hscan Hne). }
    intros pre m post lh Hsplit Hlh. simpl in Hsplit.
    symmetry in Hsplit. apply snoc_split in Hsplit.
    destruct Hsplit as [(_ & -> & ->)|(post' & _ & Horder)].
    + eapply ready_inputs_produced; eassumption.
    + eapply Htopo; eassumption.
Qed.

Lemma orderLoop_sound queueIter vs :
  (forall k q, Permutation (queueIter k q) q) ->
  NoDup (keys vs) -> fitsU64 vs -> uniqueProducers vs ->
  forall fuel k st st',
    orderInv vs st -> topoInv vs st ->
    orderLoop queueIter vs (buildInputCache vs) fuel k st = Some st' ->
    orderInv vs st' /\ topoInv vs st'.
Proof.
  intros Hperm Hnd Hfit Huniq.
  induction fuel as [|fuel IH]; intros k st st' Hinv Htopo Hloop; simpl in Hloop.
  - destruct (queue st); [|discriminate]. inversion Hloop; subst. auto.
  - destruct (queue st) as [|q0 qs] eqn:Hq.
    + inversion Hloop; subst. auto.
    + rewrite <- Hq in Hloop.
      assert (Hincl : incl (queueIter k (queue st)) (queue st)).
      { intros y Hy. eapply Permutation_in; [apply Hperm|exact Hy]. }
      eapply IH; [| |exact Hloop].
      * apply orderStep_inv; assumption.
      * apply orderStep_topo; assumption.
Qed.

Lemma writeOutputs_spec (name : string) (ports : RecordMap) :
  forall (cache : DMap Z string) (lh : Z),
    fold_left (fun cache p => dsetZ cache (localeHash (snd p)) name) ports cache lh
    = if memZ (map (fun p => localeHash (snd p)) ports) lh then name
      else cache lh.
Proof.
  induction ports as [|[pin meta] rest IH]; intros cache lh; simpl.
  - reflexivity.
  - rewrite IH. unfold memZ. simpl.
    fold (memZ (map (fun p => localeHash (snd p)) rest) lh).
    destruct (memZ (map (fun p => localeHash (snd p)) rest) lh).
    + rewrite orb_true_r. reflexivity.
    + rewrite orb_false_r. unfold dsetZ. reflexivity.
Qed.

(** [moduleOutputCache] answers with a module that has the locale hash among
    its active outputs, whenever there is one. *)
Lemma buildOutputCache_producer (vs : Map ComputeModuleState) (lh : Z) :
  (exists name state,
      In (name, state) vs
      /\ In lh (map (fun p => localeHash (snd p)) (activeOutputs state))) ->
  exists name state,
    In (name, state) vs
    /\ In lh (map (fun p => localeHash (snd p)) (activeOutputs state))
    /\ buildOutputCache vs lh = name.
Proof.
  unfold buildOutputCache.
  assert (Hgen : forall cache : DMap Z string,
             let r :=
               fold_left
                 (fun cache e =>
                    fold_left
                      (fun cache p => dsetZ cache (localeHash (snd p)) (fst e))
                      (activeOutputs (snd e)) cache)
                 vs cache lh in
             (r = cache lh
              /\ forall name state,
                   In (name, state) vs ->
                   ~ In lh (map (fun p => localeHash (snd p)) (activeOutputs state)))
             \/ exists name state,
                  In (name, state) vs
                  /\ In lh (map (fun p => localeHash (snd p)) (activeOutputs state))
                  /\ r = name).
  { induction vs as [|[n st] rest IH]; intros cache; simpl.
    - left. split; [reflexivity|]. intros ? ? [].
    - destruct (IH (fold_left
                      (fun cache p => dsetZ cache (localeHash (snd p)) n)
                      (activeOutputs st) cache))
        as [[Hr Hnone]|(name & state & Hin & Hlh & Hr)].
      + rewrite writeOutputs_spec in Hr.
        destruct (memZ (map (fun p => localeHash (snd p)) (activeOutputs st)) lh)
          eqn:E.
        * right. exists n, st. apply memZ_In in E. auto.
        * left. split; [exact Hr|]. intros name state [Heq|Hin].
          -- inversion Heq; subst. intros Hlh. apply memZ_In in Hlh.
             congruence.
          -- exact (Hnone name state Hin).
      + right. exists name, state. auto. }
  intros (name & state & Hin & Hlh).
  destruct (Hgen (fun _ => "")) as [[_ Hnone]|H]; [|exact H].
  exfalso. exact (Hnone name state Hin Hlh).
Qed.

Lemma NoDup_app_disjoint {A : Type} (l1 l2 : list A) (x : A) :
  NoDup (l1 ++ l2) -> In x l1 -> In x l2 -> False.
Proof.
  induction l1 as [|a l1 IH]; simpl; intros Hnd H1 H2.
  - contradiction.
  - inversion Hnd as [|? ? Hnotin Hnd']; subst. destruct H1 as [->|H1].
    + apply Hnotin. apply in_or_app. now right.
    + exact (IH Hnd' H1 H2).
Qed.

Lemma unique_owner {A : Type} (f : A -> list Z) (l : list A) (a b : A) (y : Z) :
  NoDup (flat_map f l) -> In a l -> In b l -> In y (f a) -> In y (f b) -> a = b.
Proof.
  induction l as [|c l IH]; simpl; intros Hnd Ha Hb Hya Hyb.
  - contradiction.
  - pose proof (NoDup_app_remove_l _ _ Hnd) as Hnd'.
    destruct Ha as [->|Ha], Hb as [->|Hb].
    + reflexivity.
    + exfalso. apply (NoDup_app_disjoint _ _ y Hnd Hya).
      apply in_flat_map. exists b. auto.
    + exfalso. apply (NoDup_app_disjoint _ _ y Hnd Hyb).
      apply in_flat_map. exists a. auto.
    + exact (IH Hnd' Ha Hb Hya Hyb).
Qed.

Lemma arrangeDependencyOrder_success queueIter fuel s s' :
  arrangeDependencyOrder queueIter fuel s = Returns (SUCCESS, s') ->
  exists st,
    orderLoop queueIter (validComputeModuleStates s)
      (buildInputCache (validComputeModuleStates s)) fuel 0
      (initOrderState (validComputeModuleStates s)) = Some st
    /\ length (order st) = length (validComputeModuleStates s)
    /\ executionOrder s' = order st.
Proof.
  unfold arrangeDependencyOrder.
  destruct (orderLoop _ _ _ _ _ _) as [st|]; [|discriminate].
  destruct (length (order st) =? length (validComputeModuleStates s))%nat eqn:E;
    simpl; [|discriminate].
  destruct (assignClusters _ _ _ _ _ _) as [vs'|]; [|discriminate].
  destruct (splitRuns _ _) as [deo|]; [|discriminate].
  intros H. inversion H; subst. simpl. exists st.
  apply Nat.eqb_eq in E. auto.
Qed.

(** The order left by a loop that has scheduled as many modules as there are
    valid ones. *)
Lemma orderLoop_topological queueIter vs fuel st :
  (forall k q, Permutation (queueIter k q) q) ->
  NoDup (keys vs) -> fitsU64 vs -> uniqueProducers vs ->
  orderLoop queueIter vs (buildInputCache vs) fuel 0 (initOrderState vs) = Some st ->
  length (order st) = length vs ->
  NoDup (order st)
  /\ Permutation (order st) (keys vs)
  /\ forall name pin meta,
       In name (keys vs) ->
       In (pin, meta) (activeInputs (at_ vs name)) ->
       In (localeHash meta) (outLhs vs (buildOutputCache vs (localeHash meta)))
       /\ before (order st) (buildOutputCache vs (localeHash meta)) name.
Proof.
  intros Hperm Hnd Hfit Huniq Hloop Hlen.
  assert (Htopo0 : topoInv vs (initOrderState vs)).
  { intros pre name post lh Hsplit. simpl in Hsplit.
    destruct pre; discriminate. }
  destruct (orderLoop_sound queueIter vs Hperm Hnd Hfit Huniq fuel 0%nat
              (initOrderState vs) st (initOrderState_inv vs Hnd Hfit) Htopo0 Hloop)
    as [Hinv Htopo].
  assert (Hincl : incl (order st) (keys vs)).
  { intros y Hy. apply (inv_keys _ _ Hinv). now right. }
  assert (Hp : Permutation (order st) (keys vs)).
  { apply NoDup_Permutation_bis.
    - exact (inv_order_nodup _ _ Hinv).
    - unfold keys. rewrite length_map. lia.
    - exact Hincl. }
  split; [exact (inv_order_nodup _ _ Hinv)|]. split; [exact Hp|].
  intros name pin meta Hname Hin.
  assert (Hlh : In (localeHash meta) (inLhs vs name)).
  { unfold inLhs. change (localeHash meta)
      with ((fun p : string * Record_ => localeHash (snd p)) (pin, meta)).
    apply in_map. exact Hin. }
  assert (Hord : In name (order st)).
  { eapply Permutation_in; [apply Permutation_sym; exact Hp|exact Hname]. }
  apply in_split in Hord. destruct Hord as (pre & post & Hsplit).
  destruct (Htopo pre name post (localeHash meta) Hsplit Hlh)
    as (producer & Hpre & Hout).
  assert (Hpk : In producer (keys vs)).
  { apply Hincl. rewrite Hsplit. apply in_or_app. now left. }
  destruct (keys_In vs producer Hpk) as [pstate Hpin].
  destruct (buildOutputCache_producer vs (localeHash meta))
    as (w & wstate & Hw & Hwlh & Hcache).
  { exists producer, pstate. split; [exact Hpin|].
    unfold outLhs in Hout. rewrite (at_In vs producer pstate Hnd Hpin) in Hout.
    exact Hout. }
  assert (Hwout : In (localeHash meta) (outLhs vs w)).
  { unfold outLhs. rewrite (at_In vs w wstate Hnd Hw). exact Hwlh. }
  assert (Heq : w = producer).
  { apply (unique_owner (outLhs vs) (keys vs) w producer (localeHash meta));
      try assumption. eapply In_keys. exact Hw. }
  rewrite Hcache, Heq. split; [exact Hout|].
  exists pre, post. split; [exact Hsplit|exact Hpre].
Qed.

(** C1.  After a rebuild that succeeds, and whatever the order in which the
    ready set is visited: [executionOrder] lists every valid compute module
    exactly once, and for every active input of a module the module that
    produces its locale hash (the one [moduleOutputCache] names, which does
    have that hash among its active outputs) stands strictly before the
    consumer.  The hypotheses are the data model of the scheduler: a locale
    hash has one producer (it is on no two active outputs), the keys of the
    map are distinct, and [activeInputs.size()] is a 64-bit size. *)
Theorem executionOrder_topological queueIter fuel s s' :
  (forall k q, Permutation (queueIter k q) q) ->
  NoDup (keys (validComputeModuleStates s)) ->
  sizesFitU64 (validComputeModuleStates s) ->
  uniqueProducers (validComputeModuleStates s) ->
  arrangeDependencyOrder queueIter fuel s = Returns (SUCCESS, s') ->
  NoDup (executionOrder s')
  /\ Permutation (executionOrder s') (keys (validComputeModuleStates s))
  /\ forall name pin meta,
       In name (keys (validComputeModuleStates s)) ->
       In (pin, meta) (activeInputs (at_ (validComputeModuleStates s) name)) ->
       In (localeHash meta)
         (outLhs (validComputeModuleStates s)
            (buildOutputCache (validComputeModuleStates s) (localeHash meta)))
       /\ before (executionOrder s')
            (buildOutputCache (validComputeModuleStates s) (localeHash meta))
            name.
Proof.
  intros Hperm Hnd Hsize Huniq Hok.
  apply arrangeDependencyOrder_success in Hok.
  destruct Hok as (st & Hloop & Hlen & ->).
  exact (orderLoop_topological queueIter _ fuel st Hperm Hnd
           (fitsU64_unique _ Hnd Huniq Hsize) Huniq Hloop Hlen).
Qed.

Lemma executionOrder_topological_witness :
  executionOrder orderedPipeline = ["A"; "P"; "Q"; "B"; "C"]
  /\ before (executionOrder orderedPipeline)
       (buildOutputCache pipelineStates 200) "C".
Proof.
  split; [vm_compute; reflexivity|].
  destruct (executionOrder_topological insertionOrder 64 prunedPipeline
              orderedPipeline)
    as (_ & _ & H).
  - exact insertionOrder_Permutation.
  - exact pipelineStates_NoDup.
  - intros name Hin. apply pipelineStates_fitsU64. exact Hin.
  - unfold uniqueProducers.
    change (NoDup [100; 200; 300]).
    repeat (constructor; [simpl; intuition discriminate|]). constructor.
  - vm_compute. reflexivity.
  - apply (H "C" "in" (mkRecord 20 200)).
    + vm_compute. tauto.
    + vm_compute. tauto.
Defined.

Lemma alternating_Permutation (k : nat) (q : list string) :
  Permutation (alternating k q) q.
Proof.
  unfold alternating. destruct (Nat.even k).
  - apply Permutation_refl.
  - apply Permutation_sym, Permutation_rev.
Qed.

(** Why [uniqueProducers] is assumed.  Were X and Y both to have an active
    output at locale hash 1, read by M, the rebuild would succeed with the
    order X, M, Y, in which Y, the module that [moduleOutputCache] names for
    M's input, comes after M: [moduleOutputCache] keeps one producer per
    locale hash while every producer decrements the consumer. *)
Lemma two_producers_break_the_order :
  resultOf (arrangeDependencyOrder alternating 64 twoProducers) = Some SUCCESS
  /\ executionOrder (stateOf (arrangeDependencyOrder alternating 64 twoProducers))
     = ["X"; "M"; "Y"]
  /\ In ("in", mkRecord 7 1)
       (activeInputs (at_ (validComputeModuleStates twoProducers) "M"))
  /\ buildOutputCache (validComputeModuleStates twoProducers) 1 = "Y"
  /\ In 1 (outLhs (validComputeModuleStates twoProducers) "Y")
  /\ ~ before
         (executionOrder
            (stateOf (arrangeDependencyOrder alternating 64 twoProducers)))
         "Y" "M".
Proof.
  split; [vm_compute; reflexivity|].
  split; [vm_compute; reflexivity|].
  split; [vm_compute; tauto|].
  split; [vm_compute; reflexivity|].
  split; [vm_compute; tauto|].
  replace (executionOrder
             (stateOf (arrangeDependencyOrder alternating 64 twoProducers)))
    with ["X"; "M"; "Y"] by (vm_compute; reflexivity).
  intros (pre & post & Heq & Hin).
  destruct pre as [|a [|b [|c pre]]]; simpl in Heq; inversion Heq; subst;
    simpl in Hin; try intuition discriminate.
  destruct pre; discriminate.
Qed.

(** ** Phase 2: cycles are detected *)

Lemma NoDup_split_unique {A : Type} (l p1 q1 p2 q2 : list A) (y : A) :
  NoDup l -> l = p1 ++ y :: q1 -> l = p2 ++ y :: q2 -> p1 = p2.
Proof.
  intros Hnd H1. subst l. revert p2.
  induction p1 as [|a p1 IH]; intros p2 H2; simpl in *.
  - destruct p2 as [|b p2]; [reflexivity|]. simpl in H2.
    inversion H2; subst. inversion Hnd as [|? ? Hnotin _]; subst.
    exfalso. apply Hnotin. apply in_or_app. right. now left.
  - destruct p2 as [|b p2]; simpl in H2.
    + inversion H2; subst. inversion Hnd as [|? ? Hnotin _]; subst.
      exfalso. apply Hnotin. apply in_or_app. right. now left.
    + inversion H2; subst. inversion Hnd as [|? ? _ Hnd']; subst.
      f_equal. eapply IH; eassumption.
Qed.

Lemma before_irrefl (l : list string) (x : string) :
  NoDup l -> ~ before l x x.
Proof.
  intros Hnd (pre & post & -> & Hin).
  apply NoDup_remove_2 in Hnd. apply Hnd. apply in_or_app. now left.
Qed.

Lemma before_trans (l : list string) (x y z : string) :
  NoDup l -> before l x y -> before l y z -> before l x z.
Proof.
  intros Hnd (p1 & q1 & H1 & Hx) (p2 & q2 & H2 & Hy).
  apply in_split in Hy. destruct Hy as (a & b & ->).
  assert (Heq : p1 = a).
  { apply (NoDup_split_unique l p1 q1 a (b ++ z :: q2) y Hnd H1).
    rewrite H2, <- app_assoc. reflexivity. }
  subst a. exists (p1 ++ y :: b), q2. split; [exact H2|].
  apply in_or_app. now left.
Qed.

(** X18.  When the ordering loop ends, either its order is topological or the
    size check fails; a chain of dependencies that closes on itself rules the first
    out.  So, on valid modules with one producer per locale hash and distinct
    non-empty keys, a dependency cycle makes [arrangeDependencyOrder] return
    [FATAL], with [graphs] as the call found it. *)
Lemma dependency_cycle_detected queueIter s name :
  (forall k q, Permutation (queueIter k q) q) ->
  NoDup (keys (validComputeModuleStates s)) ->
  ~ In "" (keys (validComputeModuleStates s)) ->
  sizesFitU64 (validComputeModuleStates s) ->
  uniqueProducers (validComputeModuleStates s) ->
  dependsChain (validComputeModuleStates s) name name ->
  exists s',
    arrangeDependencyOrder queueIter (2 * length (validComputeModuleStates s)) s
    = Returns (FATAL, s')
    /\ length (executionOrder s') <> length (validComputeModuleStates s)
    /\ deviceExecutionOrder s' = []
    /\ graphs s' = graphs s.
Proof.
  set (vs := validComputeModuleStates s).
  intros Hperm Hnd Hnames Hsize Huniq Hcycle.
  pose proof (fitsU64_unique vs Hnd Huniq Hsize) as Hfit.
  destruct (orderLoop_ends queueIter vs Hperm Hnd Hnames Hfit
              (2 * length vs)%nat 0%nat (initOrderState vs))
    as (st & Hloop & _ & _).
  { apply initOrderState_inv; assumption. }
  { unfold passesLeft, initOrderState. simpl. lia. }
  destruct (Nat.eq_dec (length (order st)) (length vs)) as [Hlen|Hlen].
  - exfalso.
    destruct (orderLoop_topological queueIter vs _ st Hperm Hnd Hfit Huniq
                Hloop Hlen) as (Hond & _ & Hedges).
    assert (Hchain : forall a b, dependsChain vs a b -> before (order st) a b).
    { intros a b Hc. induction Hc as [a b (Hb & pin & meta & Hin & <-)
                                     |a b c (Hb & pin & meta & Hin & <-) _ IH].
      - apply (Hedges b pin meta Hb Hin).
      - eapply before_trans; [exact Hond| |exact IH].
        apply (Hedges b pin meta Hb Hin). }
    exact (before_irrefl _ _ Hond (Hchain _ _ Hcycle)).
  - unfold arrangeDependencyOrder. fold vs. rewrite Hloop.
    apply Nat.eqb_neq in Hlen. rewrite Hlen. simpl.
    eexists. split; [reflexivity|]. simpl.
    apply Nat.eqb_neq in Hlen. auto.
Qed.

(** ** More on pruning: the valid maps *)

Lemma staleModules_sound (cms : Map ComputeModuleState) (name : string) :
  In name (staleModules cms) ->
  exists state, In (name, state) cms /\ isStale state = true.
Proof.
  unfold staleModules.
  assert (Hgen : forall acc,
             In name (fold_left
                        (fun stale e =>
                           if isStale (snd e) then sset_emplace (fst e) stale
                           else stale) cms acc) ->
             In name acc
             \/ exists state, In (name, state) cms /\ isStale state = true).
  { induction cms as [|[n st] rest IH]; intros acc; simpl.
    - auto.
    - intros H. apply IH in H. destruct H as [H|(state & Hin & Hst)].
      + destruct (isStale st) eqn:E; [|now left].
        apply sset_emplace_In in H. destruct H as [->|H]; [|now left].
        right. exists st. auto.
      + right. exists state. auto. }
  intros H. destruct (Hgen [] H) as [[]|H']. exact H'.
Qed.

Lemma keepValid_filter {V : Type} (stale : list string) (ms : Map V) :
  NoDup (keys ms) ->
  keepValid stale ms
  = filter (fun e => negb (sset_contains (fst e) stale)) ms.
Proof.
  unfold keepValid.
  assert (Hgen : forall acc,
             NoDup (keys acc ++ keys ms) ->
             fold_left
               (fun valid e =>
                  if sset_contains (fst e) stale then valid
                  else assign (fst e) (snd e) valid) ms acc
             = acc ++ filter (fun e => negb (sset_contains (fst e) stale)) ms).
  { induction ms as [|[k v] rest IH]; intros acc Hnd; simpl.
    - rewrite app_nil_r. reflexivity.
    - simpl in Hnd. destruct (sset_contains k stale); simpl.
      + apply IH. apply NoDup_remove_1 in Hnd. exact Hnd.
      + rewrite keys_assign_fresh.
        * rewrite IH.
          -- rewrite <- app_assoc. reflexivity.
          -- unfold keys. rewrite map_app. simpl. rewrite <- app_assoc. exact Hnd.
        * apply NoDup_remove_2 in Hnd. intros Hin. apply Hnd.
          apply in_or_app. now left. }
  intros Hnd. rewrite Hgen; [reflexivity|exact Hnd].
Qed.

Lemma keys_activated (cms : Map ComputeModuleState) (valid : DMap Z nat) :
  keys (map (fun e => (fst e, activateState valid (snd e))) cms) = keys cms.
Proof. unfold keys. rewrite map_map. reflexivity. Qed.

Lemma stale_name_iff (cms : Map ComputeModuleState) name state :
  NoDup (keys cms) -> In (name, state) cms ->
  sset_contains name (staleModules cms) = isStale state.
Proof.
  intros Hnd Hin. destruct (isStale state) eqn:E.
  - apply sset_contains_In. eapply staleModules_complete; eassumption.
  - apply sset_contains_false. intros Hs.
    apply staleModules_sound in Hs. destruct Hs as (st' & Hin' & Hst').
    assert (st' = state).
    { pose proof (In_find _ _ _ Hnd Hin) as H1.
      pose proof (In_find _ _ _ Hnd Hin') as H2. congruence. }
    congruence.
Qed.

Lemma removeInactive_valid_compute (s : Scheduler) :
  NoDup (keys (computeModuleStates s)) ->
  validComputeModuleStates (snd (removeInactive s))
  = filter (fun e => negb (isStale (snd e)))
      (computeModuleStates (snd (removeInactive s))).
Proof.
  intros Hc. unfold removeInactive. simpl.
  set (cms := map (fun e => (fst e, activateState (countAll (computeModuleStates s)) (snd e)))
                (computeModuleStates s)).
  assert (Hc' : NoDup (keys cms)).
  { unfold cms. rewrite keys_activated. exact Hc. }
  rewrite keepValid_filter by exact Hc'.
  apply filter_ext_in. intros [name state] Hin. simpl.
  rewrite (stale_name_iff cms name state Hc' Hin). reflexivity.
Qed.

Lemma NoDup_keys_filter {V : Type} (f : string * V -> bool) (m : Map V) :
  NoDup (keys m) -> NoDup (keys (filter f m)).
Proof.
  unfold keys. induction m as [|e rest IH]; simpl; intros Hnd.
  - constructor.
  - inversion Hnd as [|? ? Hnotin Hnd']; subst.
    destruct (f e); simpl; [|exact (IH Hnd')].
    constructor; [|exact (IH Hnd')].
    intros Hin. apply Hnotin. apply in_map_iff in Hin.
    destruct Hin as (e' & Heq & Hin). apply filter_In in Hin.
    apply in_map_iff. exists e'. tauto.
Qed.

(** X1.  After [removeInactive], on maps with distinct keys: the entries of
    [validComputeModuleStates] are exactly the entries of
    [computeModuleStates] that are not stale (they have an active input or an
    active output), with the states they have there, and the entries of
    [validPresentModuleStates] are exactly the entries of
    [presentModuleStates] whose key is not that of a stale compute module;
    the keys of both stay distinct.  A present module with no compute state
    under its key is therefore always kept.  Nothing is said of the order in
    which the two new maps iterate. *)
Theorem removeInactive_valid_maps (s : Scheduler) :
  NoDup (keys (computeModuleStates s)) ->
  NoDup (keys (presentModuleStates s)) ->
  let s' := snd (removeInactive s) in
  NoDup (keys (validComputeModuleStates s'))
  /\ NoDup (keys (validPresentModuleStates s'))
  /\ (forall name state,
        In (name, state) (validComputeModuleStates s')
        <-> In (name, state) (computeModuleStates s') /\ isStale state = false)
  /\ (forall name p,
        In (name, p) (validPresentModuleStates s')
        <-> In (name, p) (presentModuleStates s)
            /\ ~ (exists state, In (name, state) (computeModuleStates s')
                                /\ isStale state = true))
  /\ (forall name p,
        In (name, p) (presentModuleStates s) ->
        ~ In name (keys (computeModuleStates s)) ->
        In (name, p) (validPresentModuleStates s')).
Proof.
  intros Hc Hp s'.
  pose proof (removeInactive_valid_compute s Hc) as Hvalid. fold s' in Hvalid.
  assert (Hcms : computeModuleStates s'
                 = map (fun e => (fst e,
                                  activateState (countAll (computeModuleStates s))
                                    (snd e)))
                     (computeModuleStates s)) by reflexivity.
  assert (Hc' : NoDup (keys (computeModuleStates s'))).
  { rewrite Hcms, keys_activated. exact Hc. }
  assert (Hpresent : validPresentModuleStates s'
                     = filter
                         (fun e =>
                            negb (sset_contains (fst e)
                                    (staleModules (computeModuleStates s'))))
                         (presentModuleStates s)).
  { unfold s', removeInactive. simpl. apply keepValid_filter. exact Hp. }
  assert (Hstale : forall name,
             sset_contains name (staleModules (computeModuleStates s')) = false
             <-> ~ (exists state, In (name, state) (computeModuleStates s')
                                  /\ isStale state = true)).
  { intros name. split.
    - intros Hs (state & Hin & Hst).
      apply sset_contains_false in Hs. apply Hs.
      eapply staleModules_complete; eassumption.
    - intros Hnone. apply sset_contains_false. intros Hs.
      apply Hnone. apply staleModules_sound. exact Hs. }
  split; [rewrite Hvalid; apply NoDup_keys_filter; exact Hc'|].
  split; [rewrite Hpresent; apply NoDup_keys_filter; exact Hp|].
  split; [|split].
  - intros name state. rewrite Hvalid, filter_In. simpl.
    rewrite negb_true_iff. tauto.
  - intros name p. rewrite Hpresent, filter_In. cbn [fst snd].
    rewrite negb_true_iff, Hstale. tauto.
  - intros name p Hin Hnot. rewrite Hpresent. apply filter_In.
    split; [exact Hin|]. cbn [fst snd]. apply negb_true_iff, Hstale.
    intros (state & Hin' & _). apply Hnot. apply In_keys in Hin'.
    rewrite Hcms, keys_activated in Hin'. exact Hin'.
Qed.

Lemma rawPipeline_keys :
  keys (computeModuleStates rawPipeline) = ["A"; "B"; "C"; "P"; "Q"; "U"].
Proof. vm_compute. reflexivity. Qed.

(** U, which shares no hash, is the one module of [rawPipeline] that is not
    valid. *)
Lemma removeInactive_valid_maps_witness :
  NoDup (keys (computeModuleStates rawPipeline))
  /\ NoDup (keys (presentModuleStates rawPipeline))
  /\ ~ In ("U", at_ (computeModuleStates prunedPipeline) "U")
         (validComputeModuleStates prunedPipeline).
Proof.
  assert (Hc : NoDup (keys (computeModuleStates rawPipeline))).
  { rewrite rawPipeline_keys.
    repeat (constructor; [simpl; intuition discriminate|]). constructor. }
  assert (Hp : NoDup (keys (presentModuleStates rawPipeline)))
    by (vm_compute; constructor).
  assert (Hst : isStale (at_ (computeModuleStates prunedPipeline) "U") = true)
    by (vm_compute; reflexivity).
  split; [exact Hc|]. split; [exact Hp|].
  destruct (removeInactive_valid_maps rawPipeline Hc Hp) as (_ & _ & Hvalid & _).
  intros Hin. apply Hvalid in Hin. destruct Hin as [_ Hns].
  rewrite Hst in Hns. discriminate.
Defined.

Lemma activate_nonempty valid (ports : RecordMap) : forall active,
  active <> [] -> activate valid ports active <> [].
Proof.
  unfold activate.
  induction ports as [|[k v] rest IH]; intros active Hne; simpl.
  - exact Hne.
  - apply IH. destruct (1 <? valid (hash v))%nat; [|exact Hne].
    destruct active as [|[k' v'] active']; [congruence|].
    simpl. destruct (String.eqb k k'); discriminate.
Qed.

Lemma activateState_not_stale valid (state : ComputeModuleState) :
  isStale state = false -> isStale (activateState valid state) = false.
Proof.
  unfold isStale. intros H. apply andb_false_iff in H. apply andb_false_iff.
  simpl. destruct H as [H|H]; [left|right].
  - assert (Hne : activeInputs state <> [])
      by (destruct (activeInputs state); discriminate).
    pose proof (activate_nonempty valid (inputMap state) _ Hne) as Hne'.
    destruct (activate valid (inputMap state) (activeInputs state));
      [congruence|reflexivity].
  - assert (Hne : activeOutputs state <> [])
      by (destruct (activeOutputs state); discriminate).
    pose proof (activate_nonempty valid (outputMap state) _ Hne) as Hne'.
    destruct (activate valid (outputMap state) (activeOutputs state));
      [congruence|reflexivity].
Qed.

(** X2.  [removeInactive] never takes an entry out of [activeInputs] or
    [activeOutputs].  For a registered module, on a map with distinct keys:
    every pin that is active when the phase begins is active when it ends,
    under it stands the record that stood there or a port of that pin of the
    module's map, written again, and a module that enters the phase with an
    active port leaves it valid, whatever the hash counts have become. *)
Theorem removeInactive_never_restales (s : Scheduler) name state :
  NoDup (keys (computeModuleStates s)) ->
  In (name, state) (computeModuleStates s) ->
  let s' := snd (removeInactive s) in
  let state' := at_ (computeModuleStates s') name in
  (forall pin, In pin (keys (activeInputs state)) ->
               In pin (keys (activeInputs state')))
  /\ (forall pin, In pin (keys (activeOutputs state)) ->
                  In pin (keys (activeOutputs state')))
  /\ (forall pin meta,
        find pin (activeInputs state) = Some meta ->
        find pin (activeInputs state') = Some meta
        \/ exists meta', In (pin, meta') (inputMap state)
                         /\ find pin (activeInputs state') = Some meta')
  /\ (forall pin meta,
        find pin (activeOutputs state) = Some meta ->
        find pin (activeOutputs state') = Some meta
        \/ exists meta', In (pin, meta') (outputMap state)
                         /\ find pin (activeOutputs state') = Some meta')
  /\ (isStale state = false -> In (name, state') (validComputeModuleStates s')).
Proof.
  intros Hnd Hin s' state'.
  assert (Hat : state' = activateState (countAll (computeModuleStates s)) state).
  { unfold state', s', removeInactive. simpl. apply at_activated; assumption. }
  pose proof (removeInactive_valid_compute s Hnd) as Hvalid. fold s' in Hvalid.
  rewrite Hat.
  split; [intros pin; apply activate_keys_mono|].
  split; [intros pin; apply activate_keys_mono|].
  split; [intros pin meta; apply activate_value|].
  split; [intros pin meta; apply activate_value|].
  intros Hst. rewrite Hvalid.
  apply filter_In. split.
  - unfold s', removeInactive. simpl.
    apply (in_map (fun e => (fst e, activateState (countAll (computeModuleStates s)) (snd e)))
             _ (name, state)) in Hin.
    exact Hin.
  - simpl. rewrite activateState_not_stale by exact Hst. reflexivity.
Qed.

(** X3.  After [removeInactive], on compute states with distinct keys and a
    64-bit size, the "Stale" row of [drawDebugMessage] is the number of
    registered compute modules that have no active port: the unsigned
    difference of the two sizes does not wrap. *)
Theorem drawDebugMessage_stale_count (s : Scheduler) :
  NoDup (keys (computeModuleStates s)) ->
  Z.of_nat (length (computeModuleStates s)) < 2 ^ 64 ->
  debug_stale (drawDebugMessage (snd (removeInactive s)))
  = Z.of_nat
      (length (filter (fun e => isStale (snd e))
                 (computeModuleStates (snd (removeInactive s)))))
  /\ debug_compute (drawDebugMessage (snd (removeInactive s)))
     = length (filter (fun e => negb (isStale (snd e)))
                 (computeModuleStates (snd (removeInactive s)))).
Proof.
  intros Hnd Hsize. unfold drawDebugMessage. cbn [debug_stale debug_compute].
  rewrite (removeInactive_valid_compute s Hnd).
  set (cms' := computeModuleStates (snd (removeInactive s))).
  assert (Hlen : length cms' = length (computeModuleStates s)).
  { unfold cms', removeInactive. simpl. apply length_map. }
  pose proof (filter_length (fun e : string * ComputeModuleState => isStale (snd e)) cms')
    as Hsum.
  cbv beta in Hsum. split; [|reflexivity].
  rewrite wrap64_small; lia.
Qed.

(** With B gone the hash of A's output is carried by one port only, yet the
    output stays active. *)
Lemma removeInactive_never_restales_witness :
  occurrences (computeModuleStates withoutB) 10 = 1%nat
  /\ In "out"
       (keys (activeOutputs
                (at_ (computeModuleStates (snd (removeInactive withoutB))) "A"))).
Proof.
  assert (Hnd : NoDup (keys (computeModuleStates withoutB))).
  { assert (E : keys (computeModuleStates withoutB) = ["A"; "C"; "P"; "Q"; "U"])
      by (vm_compute; reflexivity).
    rewrite E. repeat (constructor; [simpl; intuition discriminate|]). constructor. }
  assert (Hin : In ("A", at_ (computeModuleStates withoutB) "A")
                  (computeModuleStates withoutB))
    by (vm_compute; left; reflexivity).
  assert (Hout : In "out"
                   (keys (activeOutputs (at_ (computeModuleStates withoutB) "A"))))
    by (vm_compute; left; reflexivity).
  split; [vm_compute; reflexivity|].
  destruct (removeInactive_never_restales withoutB "A" _ Hnd Hin)
    as (_ & Hkeep & _).
  exact (Hkeep "out" Hout).
Defined.

Lemma drawDebugMessage_stale_count_witness :
  debug_stale (drawDebugMessage (snd (removeInactive rawPipeline))) = 1.
Proof.
  rewrite (proj1 (drawDebugMessage_stale_count rawPipeline
                    ltac:(simpl; repeat (constructor; [simpl; intuition discriminate|]);
                          constructor)
                    ltac:(vm_compute; reflexivity))).
  vm_compute. reflexivity.
Defined.

(** ** More on the mutation entry points *)

Lemma checkAll_failure (f : Graph -> Result) (gs : list Graph) (res : Result) :
  checkAll f gs = res -> res <> SUCCESS ->
  exists pre g post,
    gs = pre ++ g :: post
    /\ Forall (fun g => f g = SUCCESS) pre
    /\ f g = res.
Proof.
  induction gs as [|g rest IH]; simpl; intros H Hne.
  - congruence.
  - destruct (f g) eqn:E.
    + destruct (IH H Hne) as (pre & g' & post & -> & Hpre & Hg).
      exists (g :: pre), g', post. repeat split; auto.
    + exists [], g, rest. repeat split; auto; congruence.
    + exists [], g, rest. repeat split; auto; congruence.
    + exists [], g, rest. repeat split; auto; congruence.
    + exists [], g, rest. repeat split; auto; congruence.
Qed.

(** Registering a module under a key that is not in use leaves no record
    behind. *)
Lemma staleRecords_fresh (cms cms' : Map ComputeModuleState) name inputs outputs :
  ~ In name (keys cms) ->
  staleRecords (at_ cms name) cms' inputs outputs = false.
Proof.
  intros H. apply find_None_keys in H. unfold at_. rewrite H. reflexivity.
Qed.

(** B registered a second time.  With the ports it had, both of its active
    entries are written again and the rebuild goes through; with an input that
    nothing else carries, the active input of the first registration is not
    written again and [arrangeDependencyOrder] reads the record it pointed
    at, which the assignment of the new map has replaced. *)
Lemma addModule_again :
  resultOf (addModule allSuccess insertionOrder 64 "B" Device_CUDA
              [("in", mkRecord 10 100)] [("out", mkRecord 20 200)]
              (Some 1%nat) None chainABC) = Some SUCCESS
  /\ addModule allSuccess insertionOrder 64 "B" Device_CUDA
       [("in", mkRecord 99 990)] [("out", mkRecord 20 200)]
       (Some 1%nat) None chainABC = Undefined.
Proof. split; vm_compute; reflexivity. Qed.

(** X4.  On a scheduler whose [computeWait] flag is lowered, when every
    executor lets itself be destroyed, [destroy] returns [SUCCESS] and leaves
    a scheduler that is not running, holds no module, no order and no graph,
    and has its halt, wait and sync flags lowered; on that scheduler
    [removeModule] and [compute] return [SUCCESS] at once and change nothing.
    With [computeWait] raised, [destroy] does not return. *)
Theorem destroy_clears (ex : Executors) (s : Scheduler) :
  (computeWait s = true -> destroy ex s = Diverges)
  /\ (computeWait s = false ->
      checkAll (graph_destroy ex) (graphs s) = SUCCESS ->
      exists s',
        destroy ex s = Returns (SUCCESS, s')
        /\ running s' = false
        /\ computeModuleStates s' = [] /\ presentModuleStates s' = []
        /\ validComputeModuleStates s' = [] /\ validPresentModuleStates s' = []
        /\ executionOrder s' = [] /\ deviceExecutionOrder s' = [] /\ graphs s' = []
        /\ computeHalt s' = false /\ presentHalt s' = false
        /\ computeWait s' = false
        /\ computeSync s' = false /\ presentSync s' = false
        /\ (forall ex' queueIter fuel name,
              removeModule ex' queueIter fuel name s' = Returns (SUCCESS, s'))
        /\ (forall ex' fuel, compute ex' fuel s' = Returns (SUCCESS, s'))).
Proof.
  split.
  - intros Hw. unfold destroy. apply lockState_blocked. exact Hw.
  - intros Hw Hd. unfold destroy, lockState. rewrite Hw. simpl. rewrite Hd.
    eexists. split; [reflexivity|]. simpl. rewrite Hw.
    repeat split; reflexivity.
Qed.

Lemma destroy_clears_witness :
  computeWait chainABC = false
  /\ checkAll (graph_destroy allSuccess) (graphs chainABC) = SUCCESS
  /\ exists s',
       destroy allSuccess chainABC = Returns (SUCCESS, s') /\ graphs s' = [].
Proof.
  assert (Hw : computeWait chainABC = false) by (vm_compute; reflexivity).
  assert (Hd : checkAll (graph_destroy allSuccess) (graphs chainABC) = SUCCESS)
    by (vm_compute; reflexivity).
  split; [exact Hw|]. split; [exact Hd|].
  destruct (proj2 (destroy_clears allSuccess chainABC) Hw Hd) as (s' & H & Hrest).
  exists s'. split; [exact H|]. tauto.
Defined.

(** X5.  On a scheduler whose [computeWait] flag is lowered, when an executor
    refuses to be destroyed, [destroy] returns that failure with [running]
    already lowered and nothing cleared: the modules, the order and the graphs
    are as they were, and from then on [removeModule] returns [SUCCESS]
    without removing anything. *)
Theorem destroy_failure_keeps_state (ex : Executors) (s : Scheduler) (res : Result) :
  computeWait s = false ->
  checkAll (graph_destroy ex) (graphs s) = res ->
  res <> SUCCESS ->
  exists s',
    destroy ex s = Returns (res, s')
    /\ running s' = false
    /\ computeModuleStates s' = computeModuleStates s
    /\ presentModuleStates s' = presentModuleStates s
    /\ validComputeModuleStates s' = validComputeModuleStates s
    /\ validPresentModuleStates s' = validPresentModuleStates s
    /\ executionOrder s' = executionOrder s
    /\ deviceExecutionOrder s' = deviceExecutionOrder s
    /\ graphs s' = graphs s
    /\ (forall ex' queueIter fuel name,
          removeModule ex' queueIter fuel name s' = Returns (SUCCESS, s')).
Proof.
  intros Hw Hd Hne. unfold destroy, lockState. rewrite Hw. simpl. rewrite Hd.
  destruct res; [congruence| | | |];
    (eexists; split; [reflexivity|]; simpl; repeat split; reflexivity).
Qed.

Lemma destroy_failure_keeps_state_witness :
  computeWait chainABC = false
  /\ checkAll (graph_destroy failsDestroy) (graphs chainABC) = ERROR
  /\ exists s',
       destroy failsDestroy chainABC = Returns (ERROR, s')
       /\ running s' = false
       /\ keys (computeModuleStates s') = ["A"; "B"; "C"].
Proof.
  assert (Hw : computeWait chainABC = false) by (vm_compute; reflexivity).
  assert (Hd : checkAll (graph_destroy failsDestroy) (graphs chainABC) = ERROR)
    by (vm_compute; reflexivity).
  assert (Hne : ERROR <> SUCCESS) by discriminate.
  assert (Hk : keys (computeModuleStates chainABC) = ["A"; "B"; "C"])
    by (vm_compute; reflexivity).
  split; [exact Hw|]. split; [exact Hd|].
  destruct (destroy_failure_keeps_state failsDestroy chainABC ERROR Hw Hd Hne)
    as (s' & H & Hrun & Hc & _).
  exists s'. split; [exact H|]. split; [exact Hrun|]. rewrite Hc. exact Hk.
Defined.

Lemma keys_erase_not_in {V : Type} (name : string) (m : Map V) :
  ~ In name (keys (erase name m)).
Proof.
  unfold keys, erase. rewrite in_map_iff. intros [[k v] [Hk Hin]].
  simpl in Hk. subst k. apply filter_In in Hin. destruct Hin as [_ H].
  simpl in H. rewrite String.eqb_refl in H. discriminate.
Qed.

Lemma keys_erase_incl {V : Type} (name x : string) (m : Map V) :
  In x (keys (erase name m)) -> In x (keys m).
Proof.
  unfold keys, erase. rewrite !in_map_iff. intros [e [Hk Hin]].
  apply filter_In in Hin. exists e. tauto.
Qed.

Lemma keepValid_keys_incl {V : Type} (stale : list string) (ms : Map V) (k : string) :
  In k (keys (keepValid stale ms)) -> In k (keys ms).
Proof.
  unfold keepValid.
  assert (Hgen : forall acc,
             In k (keys (fold_left
                           (fun valid e =>
                              if sset_contains (fst e) stale then valid
                              else assign (fst e) (snd e) valid) ms acc)) ->
             In k (keys acc) \/ In k (keys ms)).
  { induction ms as [|[name v] rest IH]; intros acc; simpl.
    - auto.
    - intros H. apply IH in H. destruct H as [H|H]; [|auto].
      destruct (sset_contains name stale); [now left|].
      apply keys_assign_incl in H. destruct H as [->|H]; auto. }
  intros H. destruct (Hgen [] H) as [[]|H']. exact H'.
Qed.

Lemma decrement_queue_incl (l : list string)
    (acc : DMap string Z * list string) (x : string) :
  In x (snd (fold_left decrement l acc)) -> In x (snd acc) \/ In x l.
Proof.
  intros H. destruct (in_dec string_dec x l) as [Hin|Hout]; [now right|].
  left. apply (decrement_queue_absent l acc x Hout). exact H.
Qed.

(** The ready and the scheduled modules are valid modules, at every pass. *)
Lemma orderStep_within_keys vs visit st :
  incl visit (queue st) ->
  (forall x, In x (queue st) \/ In x (order st) -> In x (keys vs)) ->
  forall x,
    In x (queue (orderStep vs (buildInputCache vs) visit st))
    \/ In x (order (orderStep vs (buildInputCache vs) visit st)) ->
    In x (keys vs).
Proof.
  intros Hincl Hk x.
  destruct (scanQueue vs visit (lastDevice st)) as [dev name] eqn:Hscan.
  destruct (string_dec name "") as [->|Hne].
  - rewrite (orderStep_reset _ _ _ _ _ Hscan). simpl. apply Hk.
  - rewrite (orderStep_select _ _ _ _ _ _ Hscan Hne). simpl.
    rewrite release_targets.
    assert (Hq : In name (queue st)).
    { apply Hincl. apply (scanQueue_found _ _ _ _ _ Hscan Hne). }
    intros [H|H].
    + apply decrement_queue_incl in H. simpl in H. destruct H as [H|H].
      * apply sset_erase_In in H. apply Hk. left. tauto.
      * eapply targets_are_keys. exact H.
    + apply in_app_or in H. destruct H as [H|[<-|[]]]; apply Hk; auto.
Qed.

Lemma orderLoop_within_keys queueIter vs :
  (forall k q, Permutation (queueIter k q) q) ->
  forall fuel k st st',
    (forall x, In x (queue st) \/ In x (order st) -> In x (keys vs)) ->
    orderLoop queueIter vs (buildInputCache vs) fuel k st = Some st' ->
    incl (order st') (keys vs).
Proof.
  intros Hperm. induction fuel as [|fuel IH]; intros k st st' Hk Hloop;
    simpl in Hloop.
  - destruct (queue st); [|discriminate]. inversion Hloop; subst.
    intros x Hx. apply Hk. now right.
  - destruct (queue st) as [|q0 qs] eqn:Hq.
    + inversion Hloop; subst. intros x Hx. apply Hk. now right.
    + rewrite <- Hq in Hloop, Hk. eapply IH; [|exact Hloop].
      apply orderStep_within_keys; [|exact Hk].
      intros y Hy. eapply Permutation_in; [apply Hperm|exact Hy].
Qed.

Lemma initOrderState_within_keys vs x :
  In x (queue (initOrderState vs)) \/ In x (order (initOrderState vs)) ->
  In x (keys vs).
Proof.
  unfold initOrderState. simpl. intros [H|[]].
  unfold initDegrees in H. apply initDegrees_queue in H. simpl in H.
  destruct H as [[]|(state & Hin & _)]. eapply In_keys. exact Hin.
Qed.

(** Whatever [arrangeDependencyOrder] returns, the order it leaves lists valid
    modules only, and the runs spell that order. *)
Lemma arrangeDependencyOrder_within_keys queueIter fuel s res s' :
  (forall k q, Permutation (queueIter k q) q) ->
  arrangeDependencyOrder queueIter fuel s = Returns (res, s') ->
  incl (executionOrder s') (keys (validComputeModuleStates s))
  /\ forall e, In e (deviceExecutionOrder s') -> incl (snd e) (executionOrder s').
Proof.
  intros Hperm. unfold arrangeDependencyOrder.
  destruct (orderLoop _ _ _ _ _ _) as [st|] eqn:Hloop; [|discriminate].
  pose proof (orderLoop_within_keys queueIter _ Hperm _ _ _ _
                (initOrderState_within_keys _) Hloop) as Hincl.
  destruct (negb _).
  - intros H. inversion H; subst. simpl. split; [exact Hincl|]. intros e [].
  - destruct (assignClusters _ _ _ _ _ _) as [vs'|]; [|discriminate].
    destruct (splitRuns vs' (order st)) as [deo|] eqn:Hsplit; [|discriminate].
    intros H. inversion H; subst. simpl. split; [exact Hincl|].
    intros e He x Hx. apply splitRuns_spec in Hsplit.
    destruct Hsplit as (Hcat & _ & _). rewrite <- Hcat.
    apply in_concat. exists (snd e). split; [|exact Hx].
    apply in_map. exact He.
Qed.

Lemma processModules_within_keys ex queueIter fuel s res s' :
  (forall k q, Permutation (queueIter k q) q) ->
  processModules ex queueIter fuel s = Returns (res, s') ->
  incl (executionOrder s') (keys (computeModuleStates s))
  /\ (forall e, In e (deviceExecutionOrder s') -> incl (snd e) (executionOrder s'))
  /\ (forall x, In x (keys (validPresentModuleStates s')) ->
                In x (keys (presentModuleStates s))).
Proof.
  intros Hperm. unfold processModules, removeInactive.
  destruct (arrangeDependencyOrder _ _ _) as [[r2 s2]| |] eqn:Harr;
    try discriminate.
  pose proof (arrangeDependencyOrder_within_keys _ _ _ _ _ Hperm Harr)
    as [Ho Hd]. simpl in Ho.
  assert (Ho' : incl (executionOrder s2) (keys (computeModuleStates s))).
  { intros x Hx. apply Ho in Hx. apply keepValid_keys_incl in Hx.
    rewrite keys_activated in Hx. exact Hx. }
  assert (Hp : forall x, In x (keys (validPresentModuleStates s2)) ->
                         In x (keys (presentModuleStates s))).
  { intros x Hx. unfold arrangeDependencyOrder in Harr.
    destruct (orderLoop _ _ _ _ _ _) as [st|]; [|discriminate].
    destruct (negb _).
    - inversion Harr; subst. simpl in Hx. eapply keepValid_keys_incl. exact Hx.
    - destruct (assignClusters _ _ _ _ _ _) as [vs'|]; [|discriminate].
      destruct (splitRuns _ _) as [deo|]; [|discriminate].
      inversion Harr; subst. simpl in Hx. eapply keepValid_keys_incl. exact Hx. }
  destruct r2; unfold checkSequenceValidity, createExecutionGraphs;
    intros H; inversion H; subst; simpl; auto.
Qed.

(** X6.  When the scheduler is running and the teardown of its executors
    succeeds, whatever [removeModule] then returns, the module is registered
    neither as a compute nor as a present module, it is not a valid present
    module, it is not in [executionOrder] and it is in no run of
    [deviceExecutionOrder]. *)
Theorem removeModule_forgets ex queueIter fuel name s res s' :
  (forall k q, Permutation (queueIter k q) q) ->
  running s = true ->
  checkAll (graph_destroy ex) (graphs s) = SUCCESS ->
  removeModule ex queueIter fuel name s = Returns (res, s') ->
  ~ In name (keys (computeModuleStates s'))
  /\ ~ In name (keys (presentModuleStates s'))
  /\ ~ In name (keys (validPresentModuleStates s'))
  /\ ~ In name (executionOrder s')
  /\ forall e, In e (deviceExecutionOrder s') -> ~ In name (snd e).
Proof.
  intros Hperm Hrun Hd H. unfold removeModule in H. rewrite Hrun in H.
  simpl in H. apply lockState_returns in H. destruct H as (s1 & Hf & ->).
  unfold removeModuleBody in Hf. simpl in Hf. rewrite Hd in Hf.
  pose proof (processModules_frame _ _ _ _ _ _ Hf) as (_ & Hc & Hp).
  pose proof (processModules_within_keys _ _ _ _ _ _ Hperm Hf) as (Ho & Hdeo & Hvp).
  simpl in *.
  assert (Horder : ~ In name (executionOrder s1)).
  { intros Hin. apply Ho in Hin. exact (keys_erase_not_in name _ Hin). }
  repeat split.
  - rewrite Hc. unfold activated. rewrite keys_activated.
    apply keys_erase_not_in.
  - rewrite Hp. apply keys_erase_not_in.
  - intros Hin. apply Hvp in Hin. exact (keys_erase_not_in name _ Hin).
  - exact Horder.
  - intros e He Hin. apply Horder. exact (Hdeo e He name Hin).
Qed.

Lemma removeModule_forgets_witness :
  resultOf (removeModule allSuccess insertionOrder 64 "B" chainABC) = Some FATAL
  /\ ~ In "B" (executionOrder
                 (stateOf (removeModule allSuccess insertionOrder 64 "B" chainABC))).
Proof.
  split; [vm_compute; reflexivity|].
  assert (Hrun : running chainABC = true) by (vm_compute; reflexivity).
  assert (Hd : checkAll (graph_destroy allSuccess) (graphs chainABC) = SUCCESS)
    by (vm_compute; reflexivity).
  assert (Hret : removeModule allSuccess insertionOrder 64 "B" chainABC
                 = Returns (FATAL,
                            stateOf (removeModule allSuccess insertionOrder 64 "B"
                                       chainABC)))
    by (vm_compute; reflexivity).
  destruct (removeModule_forgets allSuccess insertionOrder 64 "B" chainABC FATAL _
              insertionOrder_Permutation Hrun Hd Hret) as (_ & _ & _ & H & _).
  exact H.
Defined.

(** ** More on [compute] and [present] *)

Lemma readinessBarrier_not_TIMEOUT (ex : Executors) (gs : list Graph) :
  forall fuel poll res,
    readinessBarrier ex fuel poll gs = Some res -> res <> TIMEOUT.
Proof.
  induction fuel as [|fuel IH]; intros poll res; simpl;
    destruct (readyPass ex poll gs) as [r poll'];
    destruct r; try (intros H; inversion H; subst; discriminate).
  apply IH.
Qed.

(** X7.  [compute()] never returns [TIMEOUT]: a [TIMEOUT] of [computeReady]
    restarts the readiness loop and a [TIMEOUT] of the pass is absorbed.  When
    the readiness loop ends on a failure, that failure is what [compute()]
    returns, with [computeWait] left raised; [SKIP] can only be returned that
    way. *)
Theorem compute_never_TIMEOUT (ex : Executors) (fuel : nat) (s : Scheduler)
    (res : Result) (s' : Scheduler) :
  compute ex fuel s = Returns (res, s') ->
  res <> TIMEOUT
  /\ (res = SKIP ->
      readinessBarrier ex fuel 0 (graphs s) = Some SKIP /\ computeWait s' = true)
  /\ (forall r, graphs s <> [] -> computeHalt s = false ->
        readinessBarrier ex fuel 0 (graphs s) = Some r -> r <> SUCCESS ->
        res = r /\ s' = set_computeWait s true).
Proof.
  unfold compute. intros H.
  destruct (isEmpty (graphs s)) eqn:Hempty.
  { injection H as <- <-. split; [discriminate|]. split; [discriminate|].
    intros r Hne. destruct (graphs s); [congruence|discriminate]. }
  destruct (computeHalt s) eqn:Hhalt.
  { injection H as <- <-. split; [discriminate|]. split; [discriminate|].
    intros r _ Hh. discriminate Hh. }
  destruct (readinessBarrier ex fuel 0 (graphs s)) as [r|] eqn:Hb; [|discriminate].
  pose proof (readinessBarrier_not_TIMEOUT _ _ _ _ _ Hb) as Hnt.
  destruct r; try congruence.
  2-4: injection H as <- <-; (split; [discriminate|]);
    (split; [first [discriminate | intros _; split; reflexivity]|]);
    intros r _ _ Hr _; injection Hr as <-; split; reflexivity.
  destruct (computePass ex (graphs s));
    injection H as <- <-; (split; [discriminate|]); (split; [discriminate|]);
    intros r _ _ Hr Hne; injection Hr as <-; congruence.
Qed.

Lemma compute_never_TIMEOUT_witness :
  compute (byDevice TIMEOUT SUCCESS) 1 chainABC
  = Returns (SUCCESS, set_computeWait chainABC false)
  /\ SUCCESS <> TIMEOUT.
Proof.
  assert (E : compute (byDevice TIMEOUT SUCCESS) 1 chainABC
              = Returns (SUCCESS, set_computeWait chainABC false))
    by (vm_compute; reflexivity).
  split; [exact E|].
  exact (proj1 (compute_never_TIMEOUT _ _ _ _ _ E)).
Defined.

Lemma readyPass_stuck (ex : Executors) (pre post : list Graph) (g : Graph) :
  forall poll,
    (forall n h, In h pre -> graph_computeReady ex n h = SUCCESS) ->
    (forall n, graph_computeReady ex n g = TIMEOUT) ->
    fst (readyPass ex poll (pre ++ g :: post)) = TIMEOUT.
Proof.
  induction pre as [|h pre IH]; intros poll Hpre Hg; simpl.
  - rewrite Hg. reflexivity.
  - rewrite (Hpre poll h (or_introl eq_refl)). apply IH; [|exact Hg].
    intros n h' Hin. apply Hpre. now right.
Qed.

(** X8.  While an executor keeps answering [TIMEOUT] to [computeReady] (the
    executors before it being ready), [compute()] stays in its readiness loop:
    it does not return, however many polls it is given. *)
Theorem compute_waits_for_ready (ex : Executors) (s : Scheduler)
    (pre post : list Graph) (g : Graph) :
  graphs s = pre ++ g :: post ->
  computeHalt s = false ->
  (forall n h, In h pre -> graph_computeReady ex n h = SUCCESS) ->
  (forall n, graph_computeReady ex n g = TIMEOUT) ->
  forall fuel, compute ex fuel s = Diverges.
Proof.
  intros Hgs Hhalt Hpre Hg fuel. unfold compute. rewrite Hgs, Hhalt.
  assert (Hempty : isEmpty (pre ++ g :: post) = false)
    by (destruct pre; reflexivity).
  rewrite Hempty.
  assert (Hb : forall fuel poll,
             readinessBarrier ex fuel poll (pre ++ g :: post) = None).
  { induction fuel0 as [|fuel0 IH]; intros poll; simpl;
      pose proof (readyPass_stuck ex pre post g poll Hpre Hg) as Hs;
      destruct (readyPass ex poll (pre ++ g :: post)) as [r poll'];
      simpl in Hs; subst r; [reflexivity|apply IH]. }
  rewrite Hb. reflexivity.
Qed.

(** An executor that is never ready on CUDA. *)
Lemma compute_waits_for_ready_witness :
  compute
    (mkExecutors (fun _ => SUCCESS) (fun _ => SUCCESS)
       (fun _ g => match graph_device g with Device_CUDA => TIMEOUT | _ => SUCCESS end)
       (fun _ => SUCCESS))
    1000 chainABC = Diverges.
Proof.
  apply (compute_waits_for_ready _ chainABC
           [List.hd (NewGraph Device_None) (graphs chainABC)]
           [List.nth 2 (graphs chainABC) (NewGraph Device_None)]
           (List.nth 1 (graphs chainABC) (NewGraph Device_None))).
  - vm_compute. reflexivity.
  - vm_compute. reflexivity.
  - intros n h [<-|[]]. vm_compute. reflexivity.
  - intros n. vm_compute. reflexivity.
Defined.

Lemma readyPass_all_ready (ex : Executors) (gs : list Graph) :
  forall poll,
    (forall n g, (poll <= n)%nat -> In g gs -> graph_computeReady ex n g = SUCCESS) ->
    readyPass ex poll gs = (SUCCESS, (poll + length gs)%nat).
Proof.
  induction gs as [|g gs IH]; intros poll Hall; simpl.
  - rewrite Nat.add_0_r. reflexivity.
  - rewrite (Hall poll g (Nat.le_refl _) (or_introl eq_refl)).
    rewrite IH.
    + f_equal. lia.
    + intros n g' Hn Hin. apply Hall; [lia|now right].
Qed.

Lemma readyPass_advances (ex : Executors) (gs : list Graph) :
  forall poll, fst (readyPass ex poll gs) <> SUCCESS ->
               (poll < snd (readyPass ex poll gs))%nat.
Proof.
  induction gs as [|g gs IH]; intros poll; simpl.
  - congruence.
  - destruct (graph_computeReady ex poll g); simpl; try lia.
    intros H. specialize (IH (S poll) H). lia.
Qed.

Lemma readyPass_result (ex : Executors) (gs : list Graph) :
  forall poll,
    fst (readyPass ex poll gs) = SUCCESS
    \/ exists n g, In g gs /\ fst (readyPass ex poll gs) = graph_computeReady ex n g.
Proof.
  induction gs as [|g gs IH]; intros poll; simpl.
  - now left.
  - destruct (graph_computeReady ex poll g) eqn:E; simpl;
      try (right; exists poll, g; split; [now left|congruence]).
    destruct (IH (S poll)) as [H|(n & g' & Hin & H)]; [now left|].
    right. exists n, g'. split; [now right|exact H].
Qed.

(** X9.  If the executors only ever answer [SUCCESS] or [TIMEOUT] to
    [computeReady] and all answer [SUCCESS] from the [N]-th poll on, the
    readiness loop lets [compute()] through after at most [N] restarts. *)
Theorem readinessBarrier_passes (ex : Executors) (gs : list Graph) (N : nat) :
  (forall n g, In g gs ->
     graph_computeReady ex n g = SUCCESS \/ graph_computeReady ex n g = TIMEOUT) ->
  (forall n g, (N <= n)%nat -> In g gs -> graph_computeReady ex n g = SUCCESS) ->
  readinessBarrier ex N 0 gs = Some SUCCESS.
Proof.
  intros Hkind Hlate.
  assert (Hgen : forall fuel poll,
             (N <= poll + fuel)%nat ->
             readinessBarrier ex fuel poll gs = Some SUCCESS).
  { induction fuel as [|fuel IH]; intros poll Hle.
    - simpl. rewrite readyPass_all_ready; [reflexivity|].
      intros n g Hn Hin. apply Hlate; [lia|exact Hin].
    - simpl. pose proof (readyPass_advances ex gs poll) as Hadv.
      pose proof (readyPass_result ex gs poll) as Hres.
      destruct (readyPass ex poll gs) as [r poll'] eqn:E. simpl in *.
      destruct r; try reflexivity;
        try (destruct Hres as [H|(n & g & Hin & H)]; [discriminate|];
             destruct (Hkind n g Hin); congruence).
      apply IH. assert (poll < poll')%nat by (apply Hadv; discriminate). lia. }
  apply Hgen. lia.
Qed.

Lemma readinessBarrier_passes_witness :
  readinessBarrier
    (mkExecutors (fun _ => SUCCESS) (fun _ => SUCCESS)
       (fun n _ => if (n <? 4)%nat then TIMEOUT else SUCCESS) (fun _ => SUCCESS))
    4 0 (graphs chainABC) = Some SUCCESS.
Proof.
  apply readinessBarrier_passes.
  - intros n g _. simpl. destruct (n <? 4)%nat; auto.
  - intros n g Hn _. simpl. destruct (n <? 4)%nat eqn:E; [|reflexivity].
    apply Nat.ltb_lt in E. lia.
Defined.

Lemma presentPass_all_success (pr : nat -> Result) (ms : Map PresentModuleState) :
  Forall (fun e => pr (present_module (snd e)) = SUCCESS) ms ->
  presentPass pr ms = SUCCESS.
Proof.
  induction 1 as [|e rest He _ IH]; simpl; [reflexivity|].
  rewrite He. exact IH.
Qed.

Lemma presentPass_first_failure (pr : nat -> Result)
    (pre post : Map PresentModuleState) (e : string * PresentModuleState) :
  Forall (fun e => pr (present_module (snd e)) = SUCCESS) pre ->
  pr (present_module (snd e)) <> SUCCESS ->
  presentPass pr (pre ++ e :: post) = pr (present_module (snd e)).
Proof.
  induction 1 as [|h rest Hh _ IH]; intros He; simpl.
  - destruct (pr (present_module (snd e))); congruence.
  - rewrite Hh. apply IH. exact He.
Qed.

(** X10.  With a valid present module and no halt pending, [present()]
    returns [SUCCESS] with [presentSync] lowered when every module presents
    successfully; otherwise it stops at the first module that fails and
    returns that module's result as it is ([TIMEOUT] and [SKIP] included),
    leaving [presentSync] raised. *)
Theorem present_first_failure (pr : nat -> Result) (s : Scheduler) :
  validPresentModuleStates s <> [] ->
  presentHalt s = false ->
  (Forall (fun e => pr (present_module (snd e)) = SUCCESS)
     (validPresentModuleStates s) ->
   present pr s = (SUCCESS, set_presentSync s false))
  /\ (forall pre e post,
        validPresentModuleStates s = pre ++ e :: post ->
        Forall (fun e => pr (present_module (snd e)) = SUCCESS) pre ->
        pr (present_module (snd e)) <> SUCCESS ->
        present pr s = (pr (present_module (snd e)), set_presentSync s true)).
Proof.
  intros Hne Hhalt. unfold present.
  assert (Hempty : isEmpty (validPresentModuleStates s) = false)
    by (destruct (validPresentModuleStates s); [congruence|reflexivity]).
  rewrite Hempty, Hhalt. split.
  - intros Hall. rewrite (presentPass_all_success pr _ Hall). reflexivity.
  - intros pre e post Hms Hpre He. rewrite Hms.
    rewrite (presentPass_first_failure pr pre post e Hpre He).
    destruct (pr (present_module (snd e))); congruence.
Qed.

Lemma present_first_failure_witness :
  present skipsEight presenting = (SKIP, set_presentSync presenting true).
Proof.
  assert (Hne : validPresentModuleStates presenting <> [])
    by (vm_compute; discriminate).
  assert (Hhalt : presentHalt presenting = false) by (vm_compute; reflexivity).
  assert (Hms : validPresentModuleStates presenting
                = [("V", mkPresentModuleState 7 [] [])]
                  ++ ("W", mkPresentModuleState 8 [] []) :: [])
    by (vm_compute; reflexivity).
  assert (Hpre : Forall (fun e => skipsEight (present_module (snd e)) = SUCCESS)
                   [("V", mkPresentModuleState 7 [] [])])
    by (repeat constructor).
  assert (He : skipsEight (present_module (snd ("W", mkPresentModuleState 8 [] [])))
               <> SUCCESS)
    by (vm_compute; discriminate).
  exact (proj2 (present_first_failure skipsEight presenting Hne Hhalt) _ _ _
           Hms Hpre He).
Defined.

(** ** More on the executor assembly *)

Lemma uset_insert_In (x y : Z) (s : list Z) :
  In y (uset_insert x s) <-> y = x \/ In y s.
Proof.
  induction s as [|z s IH]; simpl.
  - intuition congruence.
  - destruct (x <? z); simpl; [intuition congruence|].
    destruct (x =? z) eqn:E; simpl.
    + apply Z.eqb_eq in E. subst z. intuition congruence.
    + rewrite IH. intuition congruence.
Qed.

Lemma wireInputs_fields (ports : RecordMap) : forall g,
  let g' := fold_left (fun g p => setWiredInput (localeHash (snd p)) g) ports g in
  graph_device g' = graph_device g
  /\ graph_modules g' = graph_modules g
  /\ wiredOutputs g' = wiredOutputs g
  /\ externallyWiredInputs g' = externallyWiredInputs g
  /\ externallyWiredOutputs g' = externallyWiredOutputs g
  /\ forall y, In y (wiredInputs g')
               <-> In y (wiredInputs g)
                   \/ In y (map (fun p => localeHash (snd p)) ports).
Proof.
  induction ports as [|p rest IH]; intros g; simpl.
  - repeat split; auto. intros [H|[]]. exact H.
  - destruct (IH (setWiredInput (localeHash (snd p)) g))
      as (H1 & H2 & H3 & H4 & H5 & H6).
    simpl in *. repeat split; auto.
    + intros H. apply H6 in H. rewrite uset_insert_In in H. intuition.
    + intros H. apply H6. rewrite uset_insert_In. intuition.
Qed.

Lemma wireOutputs_fields (ports : RecordMap) : forall g,
  let g' := fold_left (fun g p => setWiredOutput (localeHash (snd p)) g) ports g in
  graph_device g' = graph_device g
  /\ graph_modules g' = graph_modules g
  /\ wiredInputs g' = wiredInputs g
  /\ externallyWiredInputs g' = externallyWiredInputs g
  /\ externallyWiredOutputs g' = externallyWiredOutputs g
  /\ forall y, In y (wiredOutputs g')
               <-> In y (wiredOutputs g)
                   \/ In y (map (fun p => localeHash (snd p)) ports).
Proof.
  induction ports as [|p rest IH]; intros g; simpl.
  - repeat split; auto. intros [H|[]]. exact H.
  - destruct (IH (setWiredOutput (localeHash (snd p)) g))
      as (H1 & H2 & H3 & H4 & H5 & H6).
    simpl in *. repeat split; auto.
    + intros H. apply H6 in H. rewrite uset_insert_In in H. intuition.
    + intros H. apply H6. rewrite uset_insert_In. intuition.
Qed.

Lemma wireModule_fields vs g name :
  graph_device (wireModule vs g name) = graph_device g
  /\ graph_modules (wireModule vs g name)
     = graph_modules g ++ [module (at_ vs name)]
  /\ externallyWiredInputs (wireModule vs g name) = externallyWiredInputs g
  /\ externallyWiredOutputs (wireModule vs g name) = externallyWiredOutputs g
  /\ (forall y, In y (wiredInputs (wireModule vs g name))
                <-> In y (wiredInputs g) \/ In y (inLhs vs name))
  /\ (forall y, In y (wiredOutputs (wireModule vs g name))
                <-> In y (wiredOutputs g) \/ In y (outLhs vs name)).
Proof.
  unfold wireModule, inLhs, outLhs.
  destruct (wireInputs_fields (activeInputs (at_ vs name)) g)
    as (A1 & A2 & A3 & A4 & A5 & A6).
  destruct (wireOutputs_fields (activeOutputs (at_ vs name))
              (fold_left (fun g p => setWiredInput (localeHash (snd p)) g)
                 (activeInputs (at_ vs name)) g))
    as (B1 & B2 & B3 & B4 & B5 & B6).
  simpl in *. repeat split.
  - congruence.
  - congruence.
  - congruence.
  - congruence.
  - rewrite B3. apply A6.
  - rewrite B3. apply A6.
  - intros H. apply B6 in H. rewrite A3 in H. exact H.
  - intros H. apply B6. rewrite A3. exact H.
Qed.

Lemma wireRun_fields vs (run : list string) : forall g,
  let g' := fold_left (wireModule vs) run g in
  graph_device g' = graph_device g
  /\ graph_modules g'
     = graph_modules g ++ map (fun name => module (at_ vs name)) run
  /\ externallyWiredInputs g' = externallyWiredInputs g
  /\ externallyWiredOutputs g' = externallyWiredOutputs g
  /\ (forall y, In y (wiredInputs g')
                <-> In y (wiredInputs g)
                    \/ exists name, In name run /\ In y (inLhs vs name))
  /\ (forall y, In y (wiredOutputs g')
                <-> In y (wiredOutputs g)
                    \/ exists name, In name run /\ In y (outLhs vs name)).
Proof.
  induction run as [|name rest IH]; intros g; simpl.
  - rewrite app_nil_r. repeat split; auto; intros [H|(n & [] & _)]; exact H.
  - destruct (IH (wireModule vs g name)) as (H1 & H2 & H3 & H4 & H5 & H6).
    destruct (wireModule_fields vs g name) as (W1 & W2 & W3 & W4 & W5 & W6).
    simpl in *. repeat split.
    + congruence.
    + rewrite H2, W2, <- app_assoc. reflexivity.
    + congruence.
    + congruence.
    + intros H. apply H5 in H. destruct H as [H|(n & Hn & Hy)].
      * apply W5 in H. destruct H as [H|H]; [now left|]. right. eauto.
      * right. eauto.
    + intros [H|(n & [<-|Hn] & Hy)]; apply H5.
      * left. apply W5. now left.
      * left. apply W5. now right.
      * right. eauto.
    + intros H. apply H6 in H. destruct H as [H|(n & Hn & Hy)].
      * apply W6 in H. destruct H as [H|H]; [now left|]. right. eauto.
      * right. eauto.
    + intros [H|(n & [<-|Hn] & Hy)]; apply H6.
      * left. apply W6. now left.
      * left. apply W6. now right.
      * right. eauto.
Qed.

Lemma extInputs_fields (items : list Z) : forall g,
  let g' := fold_left (fun g item => setExternallyWiredInput item g) items g in
  graph_device g' = graph_device g
  /\ graph_modules g' = graph_modules g
  /\ wiredInputs g' = wiredInputs g
  /\ wiredOutputs g' = wiredOutputs g
  /\ externallyWiredOutputs g' = externallyWiredOutputs g
  /\ forall y, In y (externallyWiredInputs g')
               <-> In y (externallyWiredInputs g) \/ In y items.
Proof.
  induction items as [|x rest IH]; intros g; simpl.
  - repeat split; auto. intros [H|[]]. exact H.
  - destruct (IH (setExternallyWiredInput x g)) as (H1 & H2 & H3 & H4 & H5 & H6).
    simpl in *. repeat split; auto.
    + intros H. apply H6 in H. rewrite uset_insert_In in H. intuition.
    + intros H. apply H6. rewrite uset_insert_In. intuition.
Qed.

Lemma extOutputs_fields (items : list Z) : forall g,
  let g' := fold_left (fun g item => setExternallyWiredOutput item g) items g in
  graph_device g' = graph_device g
  /\ graph_modules g' = graph_modules g
  /\ wiredInputs g' = wiredInputs g
  /\ wiredOutputs g' = wiredOutputs g
  /\ externallyWiredInputs g' = externallyWiredInputs g
  /\ forall y, In y (externallyWiredOutputs g')
               <-> In y (externallyWiredOutputs g) \/ In y items.
Proof.
  induction items as [|x rest IH]; intros g; simpl.
  - repeat split; auto. intros [H|[]]. exact H.
  - destruct (IH (setExternallyWiredOutput x g)) as (H1 & H2 & H3 & H4 & H5 & H6).
    simpl in *. repeat split; auto.
    + intros H. apply H6 in H. rewrite uset_insert_In in H. intuition.
    + intros H. apply H6. rewrite uset_insert_In. intuition.
Qed.

Lemma uset_insert_sorted (x : Z) (s : list Z) :
  StronglySorted Z.lt s -> StronglySorted Z.lt (uset_insert x s).
Proof.
  induction 1 as [|z s Hs IH Hz]; simpl.
  - repeat constructor.
  - destruct (x <? z) eqn:E1.
    + apply Z.ltb_lt in E1. constructor.
      * constructor; assumption.
      * constructor; [exact E1|].
        rewrite Forall_forall in *. intros w Hw. specialize (Hz w Hw). lia.
    + destruct (x =? z) eqn:E2.
      * constructor; assumption.
      * apply Z.ltb_ge in E1. apply Z.eqb_neq in E2. constructor; [exact IH|].
        rewrite Forall_forall in *. intros w Hw.
        apply uset_insert_In in Hw. destruct Hw as [->|Hw]; [lia|auto].
Qed.

Lemma set_intersection_cons (x y : Z) (a b : list Z) :
  set_intersection (x :: a) (y :: b)
  = if x <? y then set_intersection a (y :: b)
    else if y <? x then set_intersection (x :: a) b
         else x :: set_intersection a b.
Proof. reflexivity. Qed.

Lemma set_intersection_nil_r (a : list Z) : set_intersection a [] = [].
Proof. destruct a; reflexivity. Qed.

(** On strictly increasing lists the merge walk yields the common elements. *)
Lemma set_intersection_In (a : list Z) : forall b z,
  StronglySorted Z.lt a -> StronglySorted Z.lt b ->
  (In z (set_intersection a b) <-> In z a /\ In z b).
Proof.
  induction a as [|x a IHa]; intros b z Ha Hb.
  - simpl. tauto.
  - inversion Ha as [|? ? Ha' Hx]; subst.
    induction b as [|y b IHb].
    + rewrite set_intersection_nil_r. simpl. tauto.
    + inversion Hb as [|? ? Hb' Hy]; subst.
      rewrite set_intersection_cons.
      rewrite Forall_forall in Hx, Hy.
      destruct (x <? y) eqn:E1.
      * apply Z.ltb_lt in E1. rewrite (IHa (y :: b) z Ha' Hb). simpl.
        split; [tauto|]. intros [[->|H1] H2]; [|tauto].
        exfalso. destruct H2 as [H2|H2]; [lia|]. specialize (Hy z H2). lia.
      * destruct (y <? x) eqn:E2.
        -- apply Z.ltb_lt in E2. rewrite (IHb Hb'). simpl.
           split; [tauto|]. intros [H1 [->|H2]]; [|tauto].
           exfalso. destruct H1 as [H1|H1]; [lia|]. specialize (Hx z H1). lia.
        -- apply Z.ltb_ge in E1. apply Z.ltb_ge in E2.
           assert (x = y) by lia. subst y. simpl.
           rewrite (IHa b z Ha' Hb'). tauto.
Qed.

Lemma wireRun_sorted vs (run : list string) : forall g,
  wiredSorted g -> wiredSorted (fold_left (wireModule vs) run g).
Proof.
  assert (Hin : forall (ports : RecordMap) g,
             wiredSorted g ->
             wiredSorted
               (fold_left (fun g p => setWiredInput (localeHash (snd p)) g) ports g)).
  { induction ports as [|p rest IH]; intros g Hg; simpl; [exact Hg|].
    apply IH. destruct Hg as [H1 H2]. split; simpl; [|exact H2].
    apply uset_insert_sorted. exact H1. }
  assert (Hout : forall (ports : RecordMap) g,
             wiredSorted g ->
             wiredSorted
               (fold_left (fun g p => setWiredOutput (localeHash (snd p)) g) ports g)).
  { induction ports as [|p rest IH]; intros g Hg; simpl; [exact Hg|].
    apply IH. destruct Hg as [H1 H2]. split; simpl; [exact H1|].
    apply uset_insert_sorted. exact H2. }
  induction run as [|name rest IH]; intros g Hg; simpl; [exact Hg|].
  apply IH. unfold wireModule.
  assert (H := Hout (activeOutputs (at_ vs name)) _
                 (Hin (activeInputs (at_ vs name)) g Hg)).
  destruct H as [H1 H2]. split; simpl; assumption.
Qed.

Lemma linkFold_spec (wo : list Z) (rest : list Graph) :
  forall acc : Graph * list Graph,
    wiredOutputs (fst acc) = wo ->
    let r := fold_left linkStep rest acc in
    snd r = snd acc ++ map (linkOne wo) rest
    /\ graph_device (fst r) = graph_device (fst acc)
    /\ graph_modules (fst r) = graph_modules (fst acc)
    /\ wiredInputs (fst r) = wiredInputs (fst acc)
    /\ wiredOutputs (fst r) = wo
    /\ externallyWiredInputs (fst r) = externallyWiredInputs (fst acc)
    /\ forall y,
         In y (externallyWiredOutputs (fst r))
         <-> In y (externallyWiredOutputs (fst acc))
             \/ exists g, In g rest /\ In y (set_intersection wo (wiredInputs g)).
Proof.
  induction rest as [|cur rest IH]; intros acc Hwo; simpl.
  - rewrite app_nil_r. repeat split; auto. intros [H|(g & [] & _)]. exact H.
  - destruct (extOutputs_fields
                (set_intersection (wiredOutputs (fst acc)) (wiredInputs cur))
                (fst acc)) as (E1 & E2 & E3 & E4 & E5 & E6).
    destruct (IH (linkStep acc cur)) as (H1 & H2 & H3 & H4 & H5 & H6 & H7).
    { rewrite linkStep_previous_wired. exact Hwo. }
    unfold linkStep in *. simpl in *. rewrite Hwo in *.
    repeat split.
    + rewrite H1, <- app_assoc. reflexivity.
    + congruence.
    + congruence.
    + congruence.
    + exact H5.
    + congruence.
    + intros H. apply H7 in H. destruct H as [H|(g & Hg & Hy)].
      * apply E6 in H. destruct H as [H|H]; [now left|]. right. eauto.
      * right. eauto.
    + intros [H|(g & [<-|Hg] & Hy)]; apply H7.
      * left. apply E6. now left.
      * left. apply E6. now right.
      * right. eauto.
Qed.

Lemma linkGraphs_map {A : Type} (f : Graph -> A) (gs : list Graph) :
  (forall items g,
     f (fold_left (fun g item => setExternallyWiredInput item g) items g) = f g) ->
  (forall items g,
     f (fold_left (fun g item => setExternallyWiredOutput item g) items g) = f g) ->
  map f (linkGraphs gs) = map f gs.
Proof.
  intros Hin Hout. destruct gs as [|first rest]; [reflexivity|].
  unfold linkGraphs. simpl.
  assert (Hgen : forall rest acc,
             f (fst (fold_left linkStep rest acc)) = f (fst acc)
             /\ map f (snd (fold_left linkStep rest acc))
                = map f (snd acc) ++ map f rest).
  { induction rest0 as [|cur rest0 IH]; intros acc; simpl.
    - rewrite app_nil_r. auto.
    - destruct (IH (linkStep acc cur)) as [H1 H2]. rewrite H1, H2.
      unfold linkStep. simpl. rewrite Hout, map_app, <- app_assoc. simpl.
      rewrite Hin. auto. }
  destruct (Hgen rest (first, [])) as [H1 H2]. simpl in *. congruence.
Qed.

Lemma instantiateGraphs_fields vs (e : Device * list string) :
  let g := fold_left (wireModule vs) (snd e) (NewGraph (fst e)) in
  graph_device g = fst e
  /\ graph_modules g = map (fun name => module (at_ vs name)) (snd e)
  /\ externallyWiredInputs g = []
  /\ externallyWiredOutputs g = []
  /\ wiredSorted g
  /\ (forall y, In y (wiredInputs g)
                <-> exists name, In name (snd e) /\ In y (inLhs vs name))
  /\ (forall y, In y (wiredOutputs g)
                <-> exists name, In name (snd e) /\ In y (outLhs vs name)).
Proof.
  destruct (wireRun_fields vs (snd e) (NewGraph (fst e)))
    as (H1 & H2 & H3 & H4 & H5 & H6).
  simpl in *. repeat split; auto.
  - apply wireRun_sorted. split; constructor.
  - apply wireRun_sorted. split; constructor.
  - intros H. apply H5 in H. destruct H as [[]|H]. exact H.
  - intros H. apply H5. now right.
  - intros H. apply H6 in H. destruct H as [[]|H]. exact H.
  - intros H. apply H6. now right.
Qed.

(** X11.  [createExecutionGraphs] builds one graph per entry of
    [deviceExecutionOrder], in the same order: the graph has the device of its
    entry, holds the module handles of the run in the order of the run, and
    its wired inputs (outputs) are the locale hashes of the active inputs
    (outputs) of the modules of the run. *)
Theorem createExecutionGraphs_per_run (s : Scheduler) :
  let vs := validComputeModuleStates s in
  let gs := graphs (snd (createExecutionGraphs s)) in
  map graph_device gs = map fst (deviceExecutionOrder s)
  /\ map graph_modules gs
     = map (fun e => map (fun name => module (at_ vs name)) (snd e))
         (deviceExecutionOrder s)
  /\ Forall2
       (fun wired e =>
          forall y, In y wired
                    <-> exists name, In name (snd e) /\ In y (inLhs vs name))
       (map wiredInputs gs) (deviceExecutionOrder s)
  /\ Forall2
       (fun wired e =>
          forall y, In y wired
                    <-> exists name, In name (snd e) /\ In y (outLhs vs name))
       (map wiredOutputs gs) (deviceExecutionOrder s).
Proof.
  intros vs gs. unfold gs, createExecutionGraphs. simpl. fold vs.
  rewrite !linkGraphs_map;
    try (intros items g; first [apply (extInputs_fields items g)
                               |apply (extOutputs_fields items g)]).
  unfold instantiateGraphs. rewrite !map_map.
  repeat split.
  - apply map_ext. intros e. apply (instantiateGraphs_fields vs e).
  - apply map_ext. intros e. apply (instantiateGraphs_fields vs e).
  - induction (deviceExecutionOrder s) as [|e rest IH]; simpl; constructor.
    + apply (instantiateGraphs_fields vs e).
    + exact IH.
  - induction (deviceExecutionOrder s) as [|e rest IH]; simpl; constructor.
    + apply (instantiateGraphs_fields vs e).
    + exact IH.
Qed.

(** X12.  What [createExecutionGraphs] marks as externally wired.  The first
    graph gets no externally wired input, and as externally wired outputs
    exactly those of its wired outputs that a later graph has among its wired
    inputs.  Every later graph gets no externally wired output, and as
    externally wired inputs exactly those of its wired inputs that are wired
    outputs of the first graph. *)
Theorem createExecutionGraphs_external (s : Scheduler) (first : Graph)
    (rest : list Graph) :
  graphs (snd (createExecutionGraphs s)) = first :: rest ->
  externallyWiredInputs first = []
  /\ (forall y, In y (externallyWiredOutputs first)
                <-> In y (wiredOutputs first)
                    /\ exists g, In g rest /\ In y (wiredInputs g))
  /\ Forall
       (fun g =>
          externallyWiredOutputs g = []
          /\ forall y, In y (externallyWiredInputs g)
                       <-> In y (wiredInputs g) /\ In y (wiredOutputs first))
       rest.
Proof.
  unfold createExecutionGraphs. simpl. unfold instantiateGraphs.
  destruct (deviceExecutionOrder s) as [|e es]; [discriminate|]. simpl.
  set (vs := validComputeModuleStates s).
  set (first0 := fold_left (wireModule vs) (snd e) (NewGraph (fst e))).
  set (rest0 := map (fun e => fold_left (wireModule vs) (snd e) (NewGraph (fst e))) es).
  destruct (instantiateGraphs_fields vs e) as (_ & _ & F3 & F4 & [F5 F6] & _).
  fold first0 in F3, F4, F5, F6.
  destruct (linkFold_spec (wiredOutputs first0) rest0 (first0, []) eq_refl)
    as (H1 & _ & _ & _ & H5 & H6 & H7).
  simpl in H1, H5, H6, H7.
  assert (Hrest0 : forall g, In g rest0 ->
             externallyWiredInputs g = [] /\ externallyWiredOutputs g = []
             /\ wiredSorted g).
  { intros g Hg. unfold rest0 in Hg. apply in_map_iff in Hg.
    destruct Hg as (e' & <- & _).
    destruct (instantiateGraphs_fields vs e') as (_ & _ & G3 & G4 & G5 & _).
    auto. }
  intros Heq. injection Heq as Hfirst Hrest.
  rewrite H1 in Hrest. subst rest. rewrite Hfirst in *.
  split; [congruence|]. split.
  - intros y. rewrite H7, F4. split.
    + intros [[]|(g & Hg & Hy)].
      destruct (Hrest0 g Hg) as (_ & _ & [Gs _]).
      apply set_intersection_In in Hy; [|exact F6|exact Gs].
      rewrite H5. split; [tauto|].
      exists (linkOne (wiredOutputs first0) g). split.
      * apply in_map. exact Hg.
      * unfold linkOne.
        rewrite (proj1 (proj2 (proj2 (extInputs_fields _ g)))). tauto.
    + intros [Hy (g' & Hg' & Hy')]. right.
      apply in_map_iff in Hg'. destruct Hg' as (g & <- & Hg).
      exists g. split; [exact Hg|].
      destruct (Hrest0 g Hg) as (_ & _ & [Gs _]).
      apply set_intersection_In; [exact F6|exact Gs|].
      rewrite H5 in Hy. split; [exact Hy|].
      unfold linkOne in Hy'.
      rewrite (proj1 (proj2 (proj2 (extInputs_fields _ g)))) in Hy'. exact Hy'.
  - apply Forall_forall. intros g' Hg'.
    apply in_map_iff in Hg'. destruct Hg' as (g & <- & Hg).
    destruct (Hrest0 g Hg) as (G1 & G2 & [Gs _]).
    unfold linkOne.
    destruct (extInputs_fields
                (set_intersection (wiredOutputs first0) (wiredInputs g)) g)
      as (_ & _ & E3 & _ & E5 & E6).
    simpl in *. split; [congruence|].
    intros y. rewrite E6, E3, G1, H5.
    rewrite (set_intersection_In _ _ y F6 Gs). simpl. tauto.
Qed.

Lemma createExecutionGraphs_external_witness :
  exists first rest,
    graphs (snd (createExecutionGraphs chainABC)) = first :: rest
    /\ externallyWiredInputs first = []
    /\ Forall (fun g => externallyWiredOutputs g = []) rest.
Proof.
  exists (List.hd (NewGraph Device_None) (graphs (snd (createExecutionGraphs chainABC)))),
         (List.tl (graphs (snd (createExecutionGraphs chainABC)))).
  assert (Heq : graphs (snd (createExecutionGraphs chainABC))
                = List.hd (NewGraph Device_None)
                    (graphs (snd (createExecutionGraphs chainABC)))
                  :: List.tl (graphs (snd (createExecutionGraphs chainABC))))
    by (vm_compute; reflexivity).
  destruct (createExecutionGraphs_external chainABC _ _ Heq) as (H1 & _ & H3).
  split; [exact Heq|]. split; [exact H1|].
  eapply Forall_impl; [|exact H3]. intros g [H _]. exact H.
Defined.

(** ** More on the ordering phase *)

Lemma arrangeDependencyOrder_returns queueIter fuel s res s' :
  arrangeDependencyOrder queueIter fuel s = Returns (res, s') ->
  exists st,
    orderLoop queueIter (validComputeModuleStates s)
      (buildInputCache (validComputeModuleStates s)) fuel 0
      (initOrderState (validComputeModuleStates s)) = Some st
    /\ executionOrder s' = order st
    /\ (res = FATAL \/ res = SUCCESS)
    /\ (res = FATAL <-> length (order st) <> length (validComputeModuleStates s)).
Proof.
  unfold arrangeDependencyOrder.
  destruct (orderLoop _ _ _ _ _ _) as [st|]; [|discriminate].
  destruct (length (order st) =? length (validComputeModuleStates s))%nat eqn:E;
    simpl.
  - apply Nat.eqb_eq in E.
    destruct (assignClusters _ _ _ _ _ _) as [vs'|]; [|discriminate].
    destruct (splitRuns _ _) as [deo|]; [|discriminate].
    intros H. inversion H; subst. exists st. simpl.
    repeat split; auto; [discriminate|congruence].
  - apply Nat.eqb_neq in E. intros H. inversion H; subst. exists st. simpl.
    repeat split; auto.
Qed.

(** X13.  Whatever [arrangeDependencyOrder] returns, [SUCCESS] or [FATAL], on
    valid modules with distinct keys, one producer per locale hash and 64-bit
    input counts: the order it leaves in [executionOrder] lists no module
    twice, lists valid modules only, and every module in it stands after a
    producer of each of its active inputs.  The result is [FATAL] exactly when
    a valid module is missing from the order. *)
Theorem executionOrder_sorted_even_on_failure queueIter fuel s res s' :
  (forall k q, Permutation (queueIter k q) q) ->
  NoDup (keys (validComputeModuleStates s)) ->
  sizesFitU64 (validComputeModuleStates s) ->
  uniqueProducers (validComputeModuleStates s) ->
  arrangeDependencyOrder queueIter fuel s = Returns (res, s') ->
  NoDup (executionOrder s')
  /\ incl (executionOrder s') (keys (validComputeModuleStates s))
  /\ (forall pre name post lh,
        executionOrder s' = pre ++ name :: post ->
        In lh (inLhs (validComputeModuleStates s) name) ->
        exists producer,
          In producer pre /\ In lh (outLhs (validComputeModuleStates s) producer))
  /\ (res = FATAL
      <-> exists name,
            In name (keys (validComputeModuleStates s))
            /\ ~ In name (executionOrder s')).
Proof.
  set (vs := validComputeModuleStates s).
  intros Hperm Hnd Hsize Huniq Hok.
  pose proof (fitsU64_unique vs Hnd Huniq Hsize) as Hfit.
  apply arrangeDependencyOrder_returns in Hok. fold vs in Hok.
  destruct Hok as (st & Hloop & -> & _ & Hfatal).
  assert (Htopo0 : topoInv vs (initOrderState vs)).
  { intros pre name post lh Hsplit. simpl in Hsplit. destruct pre; discriminate. }
  destruct (orderLoop_sound queueIter vs Hperm Hnd Hfit Huniq fuel 0%nat
              (initOrderState vs) st (initOrderState_inv vs Hnd Hfit) Htopo0 Hloop)
    as [Hinv Htopo].
  assert (Hincl : incl (order st) (keys vs)).
  { intros y Hy. apply (inv_keys _ _ Hinv). now right. }
  pose proof (inv_order_nodup _ _ Hinv) as Hond.
  split; [exact Hond|]. split; [exact Hincl|]. split; [exact Htopo|].
  rewrite Hfatal. unfold keys in *. split.
  - intros Hlen.
    destruct (Forall_dec (fun x => In x (order st))
                (fun x => in_dec string_dec x (order st)) (map fst vs))
      as [Hall|Hnot].
    + exfalso. apply Hlen. rewrite Forall_forall in Hall.
      pose proof (NoDup_incl_length Hond Hincl) as H1.
      pose proof (NoDup_incl_length Hnd Hall) as H2.
      rewrite length_map in *. lia.
    + apply Exists_exists. apply neg_Forall_Exists_neg; [|exact Hnot].
      intros x. apply (in_dec string_dec).
  - intros (name & Hk & Hnot) Hlen.
    assert (Hall : incl (map fst vs) (order st)).
    { apply (NoDup_length_incl Hond); [rewrite length_map; lia|exact Hincl]. }
    exact (Hnot (Hall name Hk)).
Qed.

Lemma danglingC_keys : keys (validComputeModuleStates danglingC) = ["A"; "C"].
Proof. vm_compute. reflexivity. Qed.

Lemma danglingC_NoDup : NoDup (keys (validComputeModuleStates danglingC)).
Proof.
  rewrite danglingC_keys.
  repeat (constructor; [simpl; intuition discriminate|]). constructor.
Qed.

Lemma danglingC_sizes : sizesFitU64 (validComputeModuleStates danglingC).
Proof.
  intros name Hin. rewrite danglingC_keys in Hin. simpl in Hin.
  repeat (destruct Hin as [<-|Hin]; [vm_compute; reflexivity|]). contradiction.
Qed.

Lemma danglingC_unique : uniqueProducers (validComputeModuleStates danglingC).
Proof.
  unfold uniqueProducers. change (NoDup [100]).
  constructor; [simpl; tauto|constructor].
Qed.

Lemma executionOrder_sorted_even_on_failure_witness :
  resultOf (arrangeDependencyOrder insertionOrder 64 danglingC) = Some FATAL
  /\ NoDup (executionOrder (stateOf (arrangeDependencyOrder insertionOrder 64 danglingC))).
Proof.
  split; [vm_compute; reflexivity|].
  assert (Hret : arrangeDependencyOrder insertionOrder 64 danglingC
                 = Returns (FATAL,
                            stateOf (arrangeDependencyOrder insertionOrder 64 danglingC)))
    by (vm_compute; reflexivity).
  destruct (executionOrder_sorted_even_on_failure insertionOrder 64 danglingC FATAL _
              insertionOrder_Permutation danglingC_NoDup danglingC_sizes
              danglingC_unique Hret) as [H _].
  exact H.
Defined.

(** X14.  An active input that no valid module produces is fatal.  On valid
    modules with distinct non-empty keys, one producer per locale hash and
    64-bit input counts: if a valid module has an active input whose locale
    hash is on no active output, the module is never scheduled and
    [arrangeDependencyOrder] returns [FATAL], the "dependency cycle" error,
    though no cycle is involved. *)
Theorem unproduced_input_is_fatal queueIter s name pin meta :
  (forall k q, Permutation (queueIter k q) q) ->
  NoDup (keys (validComputeModuleStates s)) ->
  ~ In "" (keys (validComputeModuleStates s)) ->
  sizesFitU64 (validComputeModuleStates s) ->
  uniqueProducers (validComputeModuleStates s) ->
  In name (keys (validComputeModuleStates s)) ->
  In (pin, meta) (activeInputs (at_ (validComputeModuleStates s) name)) ->
  (forall producer,
      In producer (keys (validComputeModuleStates s)) ->
      ~ In (localeHash meta) (outLhs (validComputeModuleStates s) producer)) ->
  exists s',
    arrangeDependencyOrder queueIter (2 * length (validComputeModuleStates s)) s
    = Returns (FATAL, s')
    /\ ~ In name (executionOrder s').
Proof.
  set (vs := validComputeModuleStates s).
  intros Hperm Hnd Hnames Hsize Huniq Hname Hin Hnone.
  pose proof (fitsU64_unique vs Hnd Huniq Hsize) as Hfit.
  destruct (orderLoop_ends queueIter vs Hperm Hnd Hnames Hfit
              (2 * length vs)%nat 0%nat (initOrderState vs))
    as (st & Hloop & _ & _).
  { apply initOrderState_inv; assumption. }
  { unfold passesLeft, initOrderState. simpl. lia. }
  assert (Htopo0 : topoInv vs (initOrderState vs)).
  { intros pre n post lh Hsplit. simpl in Hsplit. destruct pre; discriminate. }
  destruct (orderLoop_sound queueIter vs Hperm Hnd Hfit Huniq _ 0%nat
              (initOrderState vs) st (initOrderState_inv vs Hnd Hfit) Htopo0 Hloop)
    as [Hinv Htopo].
  assert (Hincl : incl (order st) (keys vs)).
  { intros y Hy. apply (inv_keys _ _ Hinv). now right. }
  assert (Hnot : ~ In name (order st)).
  { intros Hord. apply in_split in Hord. destruct Hord as (pre & post & Hsplit).
    destruct (Htopo pre name post (localeHash meta) Hsplit) as (p & Hp & Hout).
    - unfold inLhs. change (localeHash meta)
        with ((fun p : string * Record_ => localeHash (snd p)) (pin, meta)).
      apply in_map. exact Hin.
    - apply (Hnone p); [|exact Hout]. apply Hincl. rewrite Hsplit.
      apply in_or_app. now left. }
  assert (Hlen : length (order st) <> length vs).
  { intros Hlen.
    assert (Hall : incl (keys vs) (order st)).
    { apply (NoDup_length_incl (inv_order_nodup _ _ Hinv)); [|exact Hincl].
      unfold keys. rewrite length_map. lia. }
    exact (Hnot (Hall name Hname)). }
  unfold arrangeDependencyOrder. fold vs. rewrite Hloop.
  apply Nat.eqb_neq in Hlen. rewrite Hlen. simpl.
  eexists. split; [reflexivity|]. exact Hnot.
Qed.

Lemma unproduced_input_is_fatal_witness :
  exists s',
    arrangeDependencyOrder insertionOrder
      (2 * length (validComputeModuleStates danglingC)) danglingC
    = Returns (FATAL, s')
    /\ ~ In "C" (executionOrder s').
Proof.
  assert (Hnames : ~ In "" (keys (validComputeModuleStates danglingC)))
    by (rewrite danglingC_keys; simpl; intuition discriminate).
  assert (Hname : In "C" (keys (validComputeModuleStates danglingC)))
    by (rewrite danglingC_keys; simpl; tauto).
  assert (Hin : In ("in", mkRecord 20 200)
                  (activeInputs (at_ (validComputeModuleStates danglingC) "C")))
    by (vm_compute; left; reflexivity).
  assert (Hnone : forall producer,
             In producer (keys (validComputeModuleStates danglingC)) ->
             ~ In (localeHash (mkRecord 20 200))
                 (outLhs (validComputeModuleStates danglingC) producer)).
  { intros producer Hp. rewrite danglingC_keys in Hp. simpl in Hp.
    repeat (destruct Hp as [<-|Hp]; [vm_compute; intuition discriminate|]).
    contradiction. }
  exact (unproduced_input_is_fatal insertionOrder danglingC "C" "in"
           (mkRecord 20 200) insertionOrder_Permutation danglingC_NoDup Hnames
           danglingC_sizes danglingC_unique Hname Hin Hnone).
Defined.

Lemma cycleXY_keys : keys (validComputeModuleStates cycleXY) = ["X"; "Y"].
Proof. vm_compute. reflexivity. Qed.

Lemma dependency_cycle_detected_witness :
  exists s',
    arrangeDependencyOrder insertionOrder
      (2 * length (validComputeModuleStates cycleXY)) cycleXY
    = Returns (FATAL, s')
    /\ length (executionOrder s') <> length (validComputeModuleStates cycleXY).
Proof.
  assert (Hnd : NoDup (keys (validComputeModuleStates cycleXY))).
  { rewrite cycleXY_keys.
    repeat (constructor; [simpl; intuition discriminate|]). constructor. }
  assert (Hnames : ~ In "" (keys (validComputeModuleStates cycleXY)))
    by (rewrite cycleXY_keys; simpl; intuition discriminate).
  assert (Hsize : sizesFitU64 (validComputeModuleStates cycleXY)).
  { intros name Hin. rewrite cycleXY_keys in Hin. simpl in Hin.
    repeat (destruct Hin as [<-|Hin]; [vm_compute; reflexivity|]). contradiction. }
  assert (Huniq : uniqueProducers (validComputeModuleStates cycleXY)).
  { unfold uniqueProducers.
    assert (E : flat_map (outLhs (validComputeModuleStates cycleXY))
                  (keys (validComputeModuleStates cycleXY)) = [10; 20])
      by (vm_compute; reflexivity).
    rewrite E. repeat (constructor; [simpl; intuition discriminate|]). constructor. }
  assert (Hxy : dependsOn (validComputeModuleStates cycleXY) "X" "Y").
  { split; [rewrite cycleXY_keys; simpl; tauto|].
    exists "in", (mkRecord 1 10).
    split; [vm_compute; left; reflexivity|vm_compute; reflexivity]. }
  assert (Hyx : dependsOn (validComputeModuleStates cycleXY) "Y" "X").
  { split; [rewrite cycleXY_keys; simpl; tauto|].
    exists "in", (mkRecord 2 20).
    split; [vm_compute; left; reflexivity|vm_compute; reflexivity]. }
  destruct (dependency_cycle_detected insertionOrder cycleXY "X"
              insertionOrder_Permutation Hnd Hnames Hsize Huniq
              (chain_step _ "X" "Y" "X" Hxy (chain_link _ "Y" "X" Hyx)))
    as (s' & H1 & H2 & _).
  exists s'. split; [exact H1|exact H2].
Defined.

(** *** Phase 4 and [back()] of an empty vector *)

Lemma pushToBack_nonempty name (deo : list (Device * list string)) :
  deo <> [] -> exists deo', pushToBack name deo = Some deo' /\ deo' <> [].
Proof.
  induction deo as [|[d run] rest IH]; intros Hne; [congruence|].
  destruct rest as [|e rest'].
  - simpl. eexists. split; [reflexivity|discriminate].
  - destruct IH as (deo' & H & _); [discriminate|].
    change (pushToBack name ((d, run) :: e :: rest'))
      with (match pushToBack name (e :: rest') with
            | Some rest'' => Some ((d, run) :: rest'')
            | None => None
            end).
    rewrite H. eexists. split; [reflexivity|discriminate].
Qed.

Lemma splitLoop_defined vs (names : list string) : forall st,
  split_deo st <> [] ->
  exists st', splitLoop vs names st = Some st'.
Proof.
  induction names as [|name rest IH]; intros st Hne; simpl.
  - eauto.
  - unfold splitStep.
    set (deo := if Device_and_neq (device (at_ vs name)) (split_lastDevice st)
                   || negb (clusterId (at_ vs name) =? split_lastCluster st)
                then split_deo st ++ [(device (at_ vs name), [])]
                else split_deo st).
    assert (Hdeo : deo <> []).
    { unfold deo. destruct (_ || _); [|exact Hne].
      destruct (split_deo st); discriminate. }
    destruct (pushToBack_nonempty name deo Hdeo) as (deo' & H & Hne').
    rewrite H. apply IH. exact Hne'.
Qed.

(** X15.  Phase 4 reaches [deviceExecutionOrder.back()] with the vector still
    empty exactly when the first module of the order has the device
    [Device::None] and the cluster id 0; for every other order it is defined,
    and an empty order gives an empty result. *)
Theorem splitRuns_defined vs (first : string) (rest : list string) :
  splitRuns vs [] = Some []
  /\ (device (at_ vs first) = Device_None /\ clusterId (at_ vs first) = 0 ->
      splitRuns vs (first :: rest) = None)
  /\ (device (at_ vs first) <> Device_None \/ clusterId (at_ vs first) <> 0 ->
      exists deo, splitRuns vs (first :: rest) = Some deo).
Proof.
  split; [reflexivity|]. split.
  - intros [Hd Hc]. unfold splitRuns. simpl. unfold splitStep. simpl.
    rewrite Hd, Hc. reflexivity.
  - intros Hne. unfold splitRuns. simpl. unfold splitStep. simpl.
    assert (Hnew : Device_and_neq (device (at_ vs first)) Device_None
                   || negb (clusterId (at_ vs first) =? 0) = true).
    { apply orb_true_iff. destruct Hne as [Hd|Hc].
      - left. apply Device_and_neq_spec. exact Hd.
      - right. apply negb_true_iff, Z.eqb_neq. exact Hc. }
    rewrite Hnew. simpl.
    destruct (splitLoop_defined vs rest
                (mkSplitState (device (at_ vs first)) (clusterId (at_ vs first))
                   [(device (at_ vs first), [first])])) as (st' & H).
    { discriminate. }
    rewrite H. eauto.
Qed.

Lemma splitRuns_defined_witness :
  exists deo,
    splitRuns (validComputeModuleStates orderedPipeline)
      (executionOrder orderedPipeline) = Some deo.
Proof.
  assert (E : executionOrder orderedPipeline = "A" :: ["P"; "Q"; "B"; "C"])
    by (vm_compute; reflexivity).
  assert (H : device (at_ (validComputeModuleStates orderedPipeline) "A") <> Device_None
              \/ clusterId (at_ (validComputeModuleStates orderedPipeline) "A") <> 0)
    by (left; vm_compute; discriminate).
  rewrite E.
  exact (proj2 (proj2 (splitRuns_defined (validComputeModuleStates orderedPipeline)
                         "A" ["P"; "Q"; "B"; "C"])) H).
Defined.

(** ** Phase 3: the clusters *)

Lemma walkCluster_unfold edges c fuel current rest visited vs :
  walkCluster edges c (S fuel) (current :: rest) visited vs
  = if sset_contains current visited then
      walkCluster edges c fuel (pushNeighbors visited (edges current) rest)
        visited vs
    else
      walkCluster edges c fuel (pushNeighbors visited (edges current) rest)
        (sset_emplace current visited) (setCluster vs current c).
Proof. reflexivity. Qed.

Lemma pushNeighbors_In visited (neighbors : list string) : forall stack x,
  In x (pushNeighbors visited neighbors stack)
  <-> In x stack \/ (In x neighbors /\ ~ In x visited).
Proof.
  unfold pushNeighbors.
  induction neighbors as [|n rest IH]; intros stack x; simpl.
  - tauto.
  - rewrite IH. destruct (sset_contains n visited) eqn:E.
    + apply sset_contains_In in E. split; [tauto|].
      intros [H|[[->|H] Hn]]; tauto.
    + apply sset_contains_false in E. simpl. split.
      * intros [[->|H]|H]; tauto.
      * intros [H|[[->|H] Hn]]; tauto.
Qed.

Lemma at_setCluster vs current c x :
  at_ (setCluster vs current c) x
  = if String.eqb x current then setClusterId (at_ vs current) c else at_ vs x.
Proof.
  unfold setCluster, at_ at 1.
  destruct (String.eqb x current) eqn:E.
  - apply String.eqb_eq in E. subst x. rewrite find_assign_same. reflexivity.
  - apply String.eqb_neq in E. rewrite find_assign_other by exact E. reflexivity.
Qed.

Lemma clusterOf_setCluster vs current c x :
  clusterOf (setCluster vs current c) x
  = if String.eqb x current then c else clusterOf vs x.
Proof.
  unfold clusterOf. rewrite at_setCluster.
  destruct (String.eqb x current); reflexivity.
Qed.

Lemma walkCluster_inv edges visited0 vs0 c :
  forall fuel stack visited vs visited' vs',
    walkInv edges visited0 vs0 c stack visited vs ->
    walkCluster edges c fuel stack visited vs = Some (visited', vs') ->
    walkInv edges visited0 vs0 c [] visited' vs'.
Proof.
  induction fuel as [|fuel IH]; intros stack visited vs visited' vs' Hinv Hwalk.
  - destruct stack; simpl in Hwalk; [|discriminate].
    inversion Hwalk; subst. exact Hinv.
  - destruct stack as [|current rest].
    + simpl in Hwalk. inversion Hwalk; subst. exact Hinv.
    + rewrite walkCluster_unfold in Hwalk.
      destruct Hinv as (W1 & W2 & W3 & W4).
      destruct (sset_contains current visited) eqn:E.
      * apply sset_contains_In in E. eapply IH; [|exact Hwalk].
        repeat split; auto.
        intros w n Hw Hnew Hn. destruct (W4 w n Hw Hnew Hn) as [H|[<-|H]]; auto.
        right. apply pushNeighbors_In. now left.
      * apply sset_contains_false in E. eapply IH; [|exact Hwalk].
        assert (Hc0 : ~ In current visited0) by (intros H; apply E, W1, H).
        repeat split.
        -- intros x Hx. apply sset_emplace_In. right. apply W1. exact Hx.
        -- intros x Hx Hnew. rewrite clusterOf_setCluster.
           destruct (String.eqb x current) eqn:Ex; [reflexivity|].
           apply String.eqb_neq in Ex. apply sset_emplace_In in Hx.
           destruct Hx as [Hx|Hx]; [congruence|]. apply W2; assumption.
        -- intros x Hx. rewrite clusterOf_setCluster.
           destruct (String.eqb x current) eqn:Ex; [|apply W3; exact Hx].
           apply String.eqb_eq in Ex. subst x. contradiction.
        -- intros w n Hw Hnew Hn. apply sset_emplace_In in Hw.
           rewrite sset_emplace_In, pushNeighbors_In.
           destruct Hw as [->|Hw].
           ++ destruct (in_dec string_dec n visited); tauto.
           ++ destruct (W4 w n Hw Hnew Hn) as [H|[<-|H]]; tauto.
Qed.

Lemma walkCluster_visits edges c :
  forall fuel stack visited vs visited' vs',
    walkCluster edges c fuel stack visited vs = Some (visited', vs') ->
    incl visited visited' /\ incl stack visited'.
Proof.
  induction fuel as [|fuel IH]; intros stack visited vs visited' vs' Hwalk.
  - destruct stack; simpl in Hwalk; [|discriminate].
    inversion Hwalk; subst. split; [apply incl_refl|intros x []].
  - destruct stack as [|current rest].
    + simpl in Hwalk. inversion Hwalk; subst. split; [apply incl_refl|intros x []].
    + rewrite walkCluster_unfold in Hwalk.
      destruct (sset_contains current visited) eqn:E.
      * apply sset_contains_In in E. destruct (IH _ _ _ _ _ Hwalk) as [H1 H2].
        split; [exact H1|]. intros x [<-|Hx]; [apply H1; exact E|].
        apply H2. apply pushNeighbors_In. now left.
      * destruct (IH _ _ _ _ _ Hwalk) as [H1 H2]. split.
        -- intros x Hx. apply H1. apply sset_emplace_In. now right.
        -- intros x [<-|Hx].
           ++ apply H1. apply sset_emplace_In. now left.
           ++ apply H2. apply pushNeighbors_In. now left.
Qed.

(** One walk from a closed set of visited modules leaves a closed set. *)
Lemma walkCluster_closed edges c fuel name visited vs visited' vs' :
  (forall a b, In b (edges a) -> In a (edges b)) ->
  clustersClosed edges visited vs ->
  walkCluster edges c fuel [name] visited vs = Some (visited', vs') ->
  clustersClosed edges visited' vs' /\ incl visited visited' /\ In name visited'.
Proof.
  intros Hsym Hclosed Hwalk.
  assert (Hinit : walkInv edges visited vs c [name] visited vs).
  { repeat split; auto using incl_refl; intros; contradiction. }
  destruct (walkCluster_inv edges visited vs c _ _ _ _ _ _ Hinit Hwalk)
    as (W1 & W2 & W3 & W4).
  destruct (walkCluster_visits edges c _ _ _ _ _ _ Hwalk) as [Hmono Hstack].
  split; [|split; [exact Hmono|apply Hstack; now left]].
  intros w n Hw Hn.
  destruct (in_dec string_dec w visited) as [Hold|Hnew].
  - destruct (Hclosed w n Hold Hn) as [Hnv Hcl].
    split; [apply W1; exact Hnv|]. rewrite (W3 n Hnv), (W3 w Hold). exact Hcl.
  - destruct (W4 w n Hw Hnew Hn) as [Hnv|[]].
    split; [exact Hnv|].
    destruct (in_dec string_dec n visited) as [Hnold|Hnnew].
    + exfalso. apply Hnew. apply (Hclosed n w Hnold (Hsym w n Hn)).
    + rewrite (W2 n Hnv Hnnew), (W2 w Hw Hnew). reflexivity.
Qed.

Lemma assignClusters_closed edges fuel :
  (forall a b, In b (edges a) -> In a (edges b)) ->
  forall names c visited vs vs',
    clustersClosed edges visited vs ->
    assignClusters edges fuel names c visited vs = Some vs' ->
    exists visited',
      clustersClosed edges visited' vs'
      /\ incl visited visited' /\ incl names visited'.
Proof.
  intros Hsym. induction names as [|name rest IH]; intros c visited vs vs' Hc H;
    simpl in H.
  - inversion H; subst. exists visited.
    split; [exact Hc|]. split; [apply incl_refl|]. intros x [].
  - destruct (sset_contains name visited) eqn:E.
    + apply sset_contains_In in E.
      destruct (IH _ _ _ _ Hc H) as (v' & H1 & H2 & H3).
      exists v'. split; [exact H1|]. split; [exact H2|].
      intros x [<-|Hx]; [apply H2; exact E|apply H3; exact Hx].
    + destruct (walkCluster edges c fuel [name] visited vs) as [[v1 vs1]|] eqn:Hw;
        [|discriminate].
      destruct (walkCluster_closed _ _ _ _ _ _ _ _ Hsym Hc Hw) as (C1 & C2 & C3).
      destruct (IH _ _ _ _ C1 H) as (v' & H1 & H2 & H3).
      exists v'. split; [exact H1|]. split.
      * intros x Hx. apply H2, C2, Hx.
      * intros x [<-|Hx]; [apply H2; exact C3|apply H3; exact Hx].
Qed.

(** *** The edges *)

Lemma emplace_fold_In (l : list string) : forall acc b,
  In b (fold_left (fun edges m => sset_emplace m edges) l acc)
  <-> In b acc \/ In b l.
Proof.
  induction l as [|m rest IH]; intros acc b; simpl.
  - tauto.
  - rewrite IH, sset_emplace_In. intuition.
Qed.

Lemma edgesOfInputs_In (oc : DMap Z string) (ports : RecordMap) :
  forall acc b,
    In b (fold_left (fun edges p => sset_emplace (oc (localeHash (snd p))) edges)
            ports acc)
    <-> In b acc \/ exists p, In p ports /\ b = oc (localeHash (snd p)).
Proof.
  induction ports as [|p rest IH]; intros acc b; simpl.
  - split; [auto|]. intros [H|(p & [] & _)]. exact H.
  - rewrite IH, sset_emplace_In. split.
    + intros [[->|H]|(q & Hq & Hb)]; eauto.
    + intros [H|(q & [<-|Hq] & Hb)]; eauto.
Qed.

Lemma edgesOfOutputs_In (ic : DMap Z (list string)) (ports : RecordMap) :
  forall acc b,
    In b (fold_left
            (fun edges p =>
               fold_left (fun edges m => sset_emplace m edges)
                 (ic (localeHash (snd p))) edges)
            ports acc)
    <-> In b acc \/ exists p, In p ports /\ In b (ic (localeHash (snd p))).
Proof.
  induction ports as [|p rest IH]; intros acc b; simpl.
  - split; [auto|]. intros [H|(p & [] & _)]. exact H.
  - rewrite IH, emplace_fold_In. split.
    + intros [[H|H]|(q & Hq & Hb)]; eauto.
    + intros [H|(q & [<-|Hq] & Hb)]; eauto.
Qed.

Lemma buildEdgesCache_In vs ic oc name state b :
  NoDup (keys vs) -> In (name, state) vs ->
  (In b (buildEdgesCache vs ic oc name)
   <-> (exists p, In p (activeInputs state) /\ b = oc (localeHash (snd p)))
       \/ (exists p, In p (activeOutputs state) /\ In b (ic (localeHash (snd p))))).
Proof.
  unfold buildEdgesCache.
  set (step := fun (cache : DMap string (list string)) (e : string * ComputeModuleState) =>
                 dsetS cache (fst e)
                   (fold_left
                      (fun edges p =>
                         fold_left (fun edges m => sset_emplace m edges)
                           (ic (localeHash (snd p))) edges)
                      (activeOutputs (snd e))
                      (fold_left
                         (fun edges p => sset_emplace (oc (localeHash (snd p))) edges)
                         (activeInputs (snd e)) (cache (fst e))))).
  assert (Hframe : forall l cache x,
             ~ In x (keys l) -> fold_left step l cache x = cache x).
  { induction l as [|[n st] rest IH]; intros cache x Hx; simpl; [reflexivity|].
    simpl in Hx. rewrite IH by tauto. unfold step, dsetS. simpl.
    destruct (String.eqb x n) eqn:E; [|reflexivity].
    apply String.eqb_eq in E. subst. tauto. }
  assert (Hgen : forall l cache,
             NoDup (keys l) -> In (name, state) l -> cache name = [] ->
             (In b (fold_left step l cache name)
              <-> (exists p, In p (activeInputs state) /\ b = oc (localeHash (snd p)))
                  \/ (exists p, In p (activeOutputs state)
                                /\ In b (ic (localeHash (snd p)))))).
  { induction l as [|[n st] rest IH]; intros cache Hnd Hin Hc; simpl.
    - contradiction.
    - simpl in Hnd. inversion Hnd as [|? ? Hnotin Hnd']; subst.
      destruct Hin as [Heq|Hin].
      + inversion Heq; subst. rewrite Hframe by exact Hnotin.
        unfold step, dsetS. simpl. rewrite String.eqb_refl, Hc.
        rewrite edgesOfOutputs_In, edgesOfInputs_In. simpl. tauto.
      + apply IH; try assumption. unfold step, dsetS. simpl.
        destruct (String.eqb name n) eqn:E; [|exact Hc].
        apply String.eqb_eq in E. subst n. exfalso. apply Hnotin.
        eapply In_keys. exact Hin. }
  intros Hnd Hin. apply Hgen; auto.
Qed.

Lemma buildEdgesCache_nonkey vs ic oc name :
  ~ In name (keys vs) -> buildEdgesCache vs ic oc name = [].
Proof.
  unfold buildEdgesCache.
  set (step := fun (cache : DMap string (list string)) (e : string * ComputeModuleState) =>
                 dsetS cache (fst e)
                   (fold_left
                      (fun edges p =>
                         fold_left (fun edges m => sset_emplace m edges)
                           (ic (localeHash (snd p))) edges)
                      (activeOutputs (snd e))
                      (fold_left
                         (fun edges p => sset_emplace (oc (localeHash (snd p))) edges)
                         (activeInputs (snd e)) (cache (fst e))))).
  assert (Hframe : forall l cache x,
             ~ In x (keys l) -> fold_left step l cache x = cache x).
  { induction l as [|[n st] rest IH]; intros cache x Hx; simpl; [reflexivity|].
    simpl in Hx. rewrite IH by tauto. unfold step, dsetS. simpl.
    destruct (String.eqb x n) eqn:E; [|reflexivity].
    apply String.eqb_eq in E. subst. tauto. }
  intros Hx. exact (Hframe vs (fun _ => []) name Hx).
Qed.

Lemma buildInputCache_In vs lh b :
  In b (buildInputCache vs lh)
  <-> exists state,
        In (b, state) vs
        /\ In lh (map (fun p => localeHash (snd p)) (activeInputs state)).
Proof.
  rewrite buildInputCache_spec, in_flat_map. unfold consumersOf. split.
  - intros ([n st] & Hin & Hb). simpl in Hb. apply in_map_iff in Hb.
    destruct Hb as (p & <- & Hp). apply filter_In in Hp. destruct Hp as [Hp Hlh].
    apply Z.eqb_eq in Hlh. exists st. split; [exact Hin|].
    apply in_map_iff. exists p. auto.
  - intros (state & Hin & Hlh). exists (b, state). split; [exact Hin|]. simpl.
    apply in_map_iff in Hlh. destruct Hlh as (p & Hlh & Hp).
    apply in_map_iff. exists p. split; [reflexivity|].
    apply filter_In. split; [exact Hp|]. apply Z.eqb_eq. exact Hlh.
Qed.

Lemma buildOutputCache_unique vs lh producer :
  NoDup (keys vs) -> uniqueProducers vs ->
  In producer (keys vs) -> In lh (outLhs vs producer) ->
  buildOutputCache vs lh = producer.
Proof.
  intros Hnd Huniq Hk Hout.
  destruct (keys_In vs producer Hk) as [pstate Hpin].
  destruct (buildOutputCache_producer vs lh) as (w & wstate & Hw & Hwlh & Hcache).
  { exists producer, pstate. split; [exact Hpin|].
    unfold outLhs in Hout. rewrite (at_In vs producer pstate Hnd Hpin) in Hout.
    exact Hout. }
  rewrite Hcache.
  apply (unique_owner (outLhs vs) (keys vs) w producer lh); try assumption.
  - eapply In_keys. exact Hw.
  - unfold outLhs. rewrite (at_In vs w wstate Hnd Hw). exact Hwlh.
Qed.

(** When every active input has a producer, and one only, the edges join
    valid modules and go both ways. *)
Lemma buildEdgesCache_symmetric vs :
  NoDup (keys vs) -> uniqueProducers vs ->
  (forall name lh, In name (keys vs) -> In lh (inLhs vs name) ->
                   exists producer, In producer (keys vs)
                                    /\ In lh (outLhs vs producer)) ->
  let edges := buildEdgesCache vs (buildInputCache vs) (buildOutputCache vs) in
  (forall a b, In b (edges a) -> In b (keys vs))
  /\ (forall a b, In b (edges a) -> In a (edges b)).
Proof.
  intros Hnd Huniq Hprod edges.
  assert (Hedge : forall a b, In b (edges a) ->
             In a (keys vs) /\ In b (keys vs)
             /\ ((exists lh, In lh (inLhs vs a) /\ In lh (outLhs vs b))
                 \/ (exists lh, In lh (outLhs vs a) /\ In lh (inLhs vs b)))).
  { intros a b Hb.
    destruct (in_dec string_dec a (keys vs)) as [Ha|Ha].
    2:{ unfold edges in Hb. rewrite buildEdgesCache_nonkey in Hb by exact Ha.
        contradiction. }
    destruct (keys_In vs a Ha) as [astate Hain].
    unfold edges in Hb.
    rewrite (buildEdgesCache_In vs _ _ a astate b Hnd Hain) in Hb.
    split; [exact Ha|].
    destruct Hb as [(p & Hp & ->)|(p & Hp & Hb)].
    - assert (Hlh : In (localeHash (snd p)) (inLhs vs a)).
      { unfold inLhs. rewrite (at_In vs a astate Hnd Hain).
        apply in_map_iff. exists p. split; [reflexivity|exact Hp]. }
      destruct (Hprod a _ Ha Hlh) as (producer & Hk & Hout).
      rewrite (buildOutputCache_unique vs _ producer Hnd Huniq Hk Hout).
      split; [exact Hk|]. left. eauto.
    - apply buildInputCache_In in Hb. destruct Hb as (bstate & Hbin & Hlh).
      split; [eapply In_keys; exact Hbin|]. right.
      exists (localeHash (snd p)). split.
      + unfold outLhs. rewrite (at_In vs a astate Hnd Hain).
        apply in_map_iff. exists p. split; [reflexivity|exact Hp].
      + unfold inLhs. rewrite (at_In vs b bstate Hnd Hbin). exact Hlh. }
  assert (Hback : forall a b lh,
             In a (keys vs) -> In b (keys vs) ->
             In lh (inLhs vs a) -> In lh (outLhs vs b) ->
             In b (edges a) /\ In a (edges b)).
  { intros a b lh Ha Hb Hin Hout.
    destruct (keys_In vs a Ha) as [astate Hain].
    destruct (keys_In vs b Hb) as [bstate Hbin].
    unfold inLhs in Hin. rewrite (at_In vs a astate Hnd Hain) in Hin.
    unfold outLhs in Hout. rewrite (at_In vs b bstate Hnd Hbin) in Hout.
    pose proof Hin as Hin'. pose proof Hout as Hout'.
    apply in_map_iff in Hin. destruct Hin as (p & Hplh & Hp).
    apply in_map_iff in Hout. destruct Hout as (q & Hqlh & Hq).
    split.
    - unfold edges. rewrite (buildEdgesCache_In vs _ _ a astate b Hnd Hain).
      left. exists p. split; [exact Hp|]. rewrite Hplh. symmetry.
      apply buildOutputCache_unique; try assumption.
      unfold outLhs. rewrite (at_In vs b bstate Hnd Hbin). exact Hout'.
    - unfold edges. rewrite (buildEdgesCache_In vs _ _ b bstate a Hnd Hbin).
      right. exists q. split; [exact Hq|]. rewrite Hqlh.
      apply buildInputCache_In. exists astate. auto. }
  split.
  - intros a b Hb. apply (Hedge a b Hb).
  - intros a b Hb. destruct (Hedge a b Hb) as (Ha & Hbk & [(lh & H1 & H2)|(lh & H1 & H2)]).
    + apply (Hback a b lh Ha Hbk H1 H2).
    + apply (Hback b a lh Hbk Ha H2 H1).
Qed.

(** *** Phase 3 changes cluster ids only *)

Lemma setCluster_eraseCluster vs current c :
  In current (keys vs) ->
  map eraseCluster (setCluster vs current c) = map eraseCluster vs.
Proof.
  unfold setCluster, at_.
  induction vs as [|[k v] rest IH]; simpl; intros Hin.
  - contradiction.
  - destruct (String.eqb current k) eqn:E.
    + apply String.eqb_eq in E. subst k. simpl. reflexivity.
    + simpl. f_equal. apply IH. destruct Hin as [Hin|Hin]; [|exact Hin].
      subst. rewrite String.eqb_refl in E. discriminate.
Qed.

Lemma keys_eraseCluster (vs vs' : Map ComputeModuleState) :
  map eraseCluster vs' = map eraseCluster vs -> keys vs' = keys vs.
Proof.
  intros H. apply (f_equal (map fst)) in H. rewrite !map_map in H. exact H.
Qed.

Lemma walkCluster_eraseCluster edges c vs0 :
  (forall a b, In b (edges a) -> In b (keys vs0)) ->
  forall fuel stack visited vs visited' vs',
    incl stack (keys vs0) ->
    map eraseCluster vs = map eraseCluster vs0 ->
    walkCluster edges c fuel stack visited vs = Some (visited', vs') ->
    map eraseCluster vs' = map eraseCluster vs0.
Proof.
  intros Hclosed.
  induction fuel as [|fuel IH]; intros stack visited vs visited' vs' Hst Heq Hwalk.
  - destruct stack; simpl in Hwalk; [|discriminate]. inversion Hwalk; subst.
    exact Heq.
  - destruct stack as [|current rest].
    + simpl in Hwalk. inversion Hwalk; subst. exact Heq.
    + rewrite walkCluster_unfold in Hwalk.
      assert (Hst' : incl (pushNeighbors visited (edges current) rest) (keys vs0)).
      { intros x Hx. apply pushNeighbors_In in Hx. destruct Hx as [Hx|[Hx _]].
        - apply Hst. now right.
        - eapply Hclosed. exact Hx. }
      destruct (sset_contains current visited).
      * eapply IH; eassumption.
      * eapply IH; [exact Hst'| |exact Hwalk].
        rewrite setCluster_eraseCluster; [exact Heq|].
        rewrite (keys_eraseCluster _ _ Heq). apply Hst. now left.
Qed.

Lemma assignClusters_eraseCluster edges fuel vs0 :
  (forall a b, In b (edges a) -> In b (keys vs0)) ->
  forall names c visited vs vs',
    incl names (keys vs0) ->
    map eraseCluster vs = map eraseCluster vs0 ->
    assignClusters edges fuel names c visited vs = Some vs' ->
    map eraseCluster vs' = map eraseCluster vs0.
Proof.
  intros Hclosed. induction names as [|name rest IH];
    intros c visited vs vs' Hn Heq H; simpl in H.
  - inversion H; subst. exact Heq.
  - assert (Hrest : incl rest (keys vs0)) by (intros x Hx; apply Hn; now right).
    destruct (sset_contains name visited).
    + eapply IH; eassumption.
    + destruct (walkCluster edges c fuel [name] visited vs) as [[v1 vs1]|] eqn:Hw;
        [|discriminate].
      eapply IH; [exact Hrest| |exact H].
      eapply walkCluster_eraseCluster; [exact Hclosed| |exact Heq|exact Hw].
      intros x [<-|[]]. apply Hn. now left.
Qed.

Lemma arrangeDependencyOrder_success_clusters queueIter fuel s s' :
  arrangeDependencyOrder queueIter fuel s = Returns (SUCCESS, s') ->
  let vs := validComputeModuleStates s in
  exists st,
    orderLoop queueIter vs (buildInputCache vs) fuel 0 (initOrderState vs) = Some st
    /\ length (order st) = length vs
    /\ assignClusters
         (buildEdgesCache vs (buildInputCache vs) (buildOutputCache vs))
         fuel (keys vs) 0 [] vs
       = Some (validComputeModuleStates s').
Proof.
  unfold arrangeDependencyOrder.
  destruct (orderLoop _ _ _ _ _ _) as [st|]; [|discriminate].
  destruct (length (order st) =? length (validComputeModuleStates s))%nat eqn:E;
    simpl; [|discriminate].
  destruct (assignClusters _ _ _ _ _ _) as [vs'|]; [|discriminate].
  destruct (splitRuns _ _) as [deo|]; [|discriminate].
  intros H. inversion H; subst. simpl. exists st.
  apply Nat.eqb_eq in E. auto.
Qed.

(** After the size check has passed, every active input has a producer. *)
Lemma success_all_produced queueIter fuel vs st :
  (forall k q, Permutation (queueIter k q) q) ->
  NoDup (keys vs) -> sizesFitU64 vs -> uniqueProducers vs ->
  orderLoop queueIter vs (buildInputCache vs) fuel 0 (initOrderState vs) = Some st ->
  length (order st) = length vs ->
  forall name lh, In name (keys vs) -> In lh (inLhs vs name) ->
                  exists producer, In producer (keys vs)
                                   /\ In lh (outLhs vs producer).
Proof.
  intros Hperm Hnd Hsize Huniq Hloop Hlen name lh Hname Hlh.
  destruct (orderLoop_topological queueIter vs fuel st Hperm Hnd
              (fitsU64_unique vs Hnd Huniq Hsize) Huniq Hloop Hlen)
    as (_ & Hp & Hedges).
  unfold inLhs in Hlh. apply in_map_iff in Hlh. destruct Hlh as ([pin meta] & <- & Hin).
  destruct (Hedges name pin meta Hname Hin) as (Hout & pre & post & Hsplit & Hpre).
  exists (buildOutputCache vs (localeHash meta)). split; [|exact Hout].
  eapply Permutation_in; [exact Hp|]. rewrite Hsplit.
  apply in_or_app. now left.
Qed.

(** X16.  After a rebuild that succeeds on valid modules with distinct keys,
    one producer per locale hash and 64-bit input counts, a module and the
    producer of each of its active inputs carry the same cluster id; more
    generally, so do any two modules joined by an edge of
    [moduleEdgesCache]. *)
Theorem connected_modules_share_cluster queueIter fuel s s' :
  let vs := validComputeModuleStates s in
  let vs' := validComputeModuleStates s' in
  (forall k q, Permutation (queueIter k q) q) ->
  NoDup (keys vs) -> sizesFitU64 vs -> uniqueProducers vs ->
  arrangeDependencyOrder queueIter fuel s = Returns (SUCCESS, s') ->
  (forall name pin meta,
      In name (keys vs) ->
      In (pin, meta) (activeInputs (at_ vs name)) ->
      clusterOf vs' name = clusterOf vs' (buildOutputCache vs (localeHash meta)))
  /\ (forall a b,
        In b (buildEdgesCache vs (buildInputCache vs) (buildOutputCache vs) a) ->
        clusterOf vs' a = clusterOf vs' b).
Proof.
  intros vs vs' Hperm Hnd Hsize Huniq Hok.
  destruct (arrangeDependencyOrder_success_clusters _ _ _ _ Hok)
    as (st & Hloop & Hlen & Hcl).
  fold vs in Hloop, Hlen, Hcl. fold vs' in Hcl.
  pose proof (success_all_produced queueIter fuel vs st Hperm Hnd Hsize Huniq
                Hloop Hlen) as Hprod.
  destruct (buildEdgesCache_symmetric vs Hnd Huniq Hprod) as [Hclosed Hsym].
  destruct (assignClusters_closed _ fuel Hsym (keys vs) 0 [] vs vs')
    as (visited & Hcc & _ & Hall); [intros w n []|exact Hcl|].
  assert (Hedges : forall a b,
             In b (buildEdgesCache vs (buildInputCache vs) (buildOutputCache vs) a) ->
             clusterOf vs' a = clusterOf vs' b).
  { intros a b Hb. symmetry. apply (Hcc a b); [|exact Hb].
    apply Hall. destruct (in_dec string_dec a (keys vs)) as [Ha|Ha]; [exact Ha|].
    rewrite buildEdgesCache_nonkey in Hb by exact Ha. contradiction. }
  split; [|exact Hedges].
  intros name pin meta Hname Hin. apply Hedges.
  destruct (keys_In vs name Hname) as [state Hstate].
  rewrite (buildEdgesCache_In vs _ _ name state _ Hnd Hstate).
  left. exists (pin, meta). split; [|reflexivity].
  rewrite (at_In vs name state Hnd Hstate) in Hin. exact Hin.
Qed.

Lemma connected_modules_share_cluster_witness :
  clusterOf (validComputeModuleStates orderedPipeline) "C"
  = clusterOf (validComputeModuleStates orderedPipeline) "B"
  /\ clusterOf (validComputeModuleStates orderedPipeline) "C" = 0
  /\ clusterOf (validComputeModuleStates orderedPipeline) "Q" = 1.
Proof.
  split; [|split; vm_compute; reflexivity].
  destruct (connected_modules_share_cluster insertionOrder 64 prunedPipeline
              orderedPipeline) as [H _].
  - exact insertionOrder_Permutation.
  - exact pipelineStates_NoDup.
  - intros name Hin. apply pipelineStates_fitsU64. exact Hin.
  - unfold uniqueProducers. change (NoDup [100; 200; 300]).
    repeat (constructor; [simpl; intuition discriminate|]). constructor.
  - vm_compute. reflexivity.
  - apply (H "C" "in" (mkRecord 20 200)).
    + vm_compute. tauto.
    + vm_compute. tauto.
Defined.

(** X17.  A rebuild that succeeds (same hypotheses) changes nothing in the
    valid states but the cluster ids: [validComputeModuleStates] keeps its
    keys, their order, and every other field of every state. *)
Theorem clusters_change_cluster_ids_only queueIter fuel s s' :
  (forall k q, Permutation (queueIter k q) q) ->
  NoDup (keys (validComputeModuleStates s)) ->
  sizesFitU64 (validComputeModuleStates s) ->
  uniqueProducers (validComputeModuleStates s) ->
  arrangeDependencyOrder queueIter fuel s = Returns (SUCCESS, s') ->
  map eraseCluster (validComputeModuleStates s')
  = map eraseCluster (validComputeModuleStates s).
Proof.
  set (vs := validComputeModuleStates s).
  intros Hperm Hnd Hsize Huniq Hok.
  destruct (arrangeDependencyOrder_success_clusters _ _ _ _ Hok)
    as (st & Hloop & Hlen & Hcl).
  fold vs in Hloop, Hlen, Hcl.
  pose proof (success_all_produced queueIter fuel vs st Hperm Hnd Hsize Huniq
                Hloop Hlen) as Hprod.
  destruct (buildEdgesCache_symmetric vs Hnd Huniq Hprod) as [Hclosed _].
  eapply (assignClusters_eraseCluster _ fuel vs Hclosed (keys vs) 0 [] vs);
    [apply incl_refl|reflexivity|exact Hcl].
Qed.

Lemma clusters_change_cluster_ids_only_witness :
  keys (validComputeModuleStates orderedPipeline)
  = keys (validComputeModuleStates prunedPipeline).
Proof.
  apply keys_eraseCluster.
  apply (clusters_change_cluster_ids_only insertionOrder 64).
  - exact insertionOrder_Permutation.
  - exact pipelineStates_NoDup.
  - intros name Hin. apply pipelineStates_fitsU64. exact Hin.
  - unfold uniqueProducers. change (NoDup [100; 200; 300]).
    repeat (constructor; [simpl; intuition discriminate|]). constructor.
  - vm_compute. reflexivity.
Defined.

(** ** The three threads together *)

Lemma lockInv_idle (s : Scheduler) : lockInv (idleWorld s).
Proof. unfold lockInv. simpl. repeat split; discriminate. Qed.

Lemma stepCompute_lockInv ex w w' :
  lockInv w -> stepCompute ex w = Some w' -> lockInv w'.
Proof.
  destruct w as [s m c p q n tr]. intros Hinv H.
  unfold stepCompute, acquire in H. simpl in H.
  destruct c; open_step H; close_lockInv.
Qed.

Lemma stepPresent_lockInv pr w w' :
  lockInv w -> stepPresent pr w = Some w' -> lockInv w'.
Proof.
  destruct w as [s m c p q n tr]. intros Hinv H.
  unfold stepPresent, acquire in H. simpl in H.
  destruct p; open_step H; close_lockInv.
Qed.

Lemma stepMutate_lockInv func w w' :
  lockInv w -> stepMutate func w = Some w' -> lockInv w'.
Proof.
  destruct w as [s m c p q n tr]. intros Hinv H.
  unfold stepMutate, acquire in H. simpl in H.
  destruct q; open_step H; close_lockInv.
Qed.

Lemma exec_lockInv p w t : lockInv w -> lockInv (exec p w t).
Proof.
  intros Hinv. unfold exec. destruct (step p t w) as [w'|] eqn:E; [|exact Hinv].
  destruct t; simpl in E.
  - exact (stepCompute_lockInv _ _ _ Hinv E).
  - exact (stepPresent_lockInv _ _ _ Hinv E).
  - exact (stepMutate_lockInv _ _ _ Hinv E).
Qed.

Lemma run_lockInv p schedule : forall w, lockInv w -> lockInv (run p schedule w).
Proof.
  unfold run. induction schedule as [|t rest IH]; intros w Hinv; simpl.
  - exact Hinv.
  - apply IH. apply exec_lockInv. exact Hinv.
Qed.

Lemma lockInv_busyRegions w : lockInv w -> (busyRegions w <= 1)%nat.
Proof.
  unfold lockInv, busyRegions, inComputePass, inPresentPass, inMutation.
  intros (HC & HP & HM).
  assert (Hc : forall b, b = true -> holdsC (pcC w) = true -> b = true) by auto.
  destruct (holdsM (pcM w)) eqn:EM.
  - pose proof (proj1 HM eq_refl) as Hm.
    assert (EC : holdsC (pcC w) = false).
    { destruct (holdsC (pcC w)); [|reflexivity].
      pose proof (proj1 HC eq_refl). congruence. }
    assert (EP : holdsP (pcP w) = false).
    { destruct (holdsP (pcP w)); [|reflexivity].
      pose proof (proj1 HP eq_refl). congruence. }
    destruct (pcC w); try discriminate EC;
      destruct (pcP w); try discriminate EP; simpl; lia.
  - destruct (holdsP (pcP w)) eqn:EP.
    + pose proof (proj1 HP eq_refl) as Hm.
      assert (EC : holdsC (pcC w) = false).
      { destruct (holdsC (pcC w)); [|reflexivity].
        pose proof (proj1 HC eq_refl). congruence. }
      destruct (pcC w); try discriminate EC; destruct (pcP w); simpl; lia.
    + destruct (pcP w); try discriminate EP; destruct (pcC w); simpl; lia.
Qed.

(** X19.  At most one of the compute pass (the statements of [compute()]
    under a raised [computeSync]), the present pass (the statements of
    [present()] under a raised [presentSync] with the mutex held) and a
    mutation (the statements of [lockState()] from its lock to its unlock) is
    under way, at every moment of every interleaving of the three threads
    that starts with all of them between two calls. *)
Theorem mutual_exclusion (p : Programs) (schedule : list Thread) (s : Scheduler) :
  (busyRegions (run p schedule (idleWorld s)) <= 1)%nat.
Proof.
  apply lockInv_busyRegions. apply run_lockInv. apply lockInv_idle.
Qed.

(** C10.  A call of [compute()] can straddle a call of [lockState()], though
    the compute pass, the present pass and the mutation exclude one another.
    With the pipeline A -> B -> C running and [removeModule] called for C: a
    call of
    [compute()] polls the three executors, lowers [computeWait], and before
    it takes the mutex a whole call of [lockState()] goes by (the halt flags
    come too late for a call that has passed its test, and [computeWait] is
    lowered already); the call of [compute()] then runs the pass over the two
    executors that the mutation has built, none of which it has polled.  And
    when [lockState()] starts between the test of [computeHalt] and the
    raising of [computeWait], [func] destroys and rebuilds the executors while
    [computeWait] is raised and [compute()] stands in its readiness loop. *)
Theorem compute_straddles_lockState :
  let w := run removingC lateMutation (idleWorld chainABC) in
  let v := run removingC earlyMutation (idleWorld chainABC) in
  trace w
  = [ComputeEnters; ComputePolls (graphs chainABC);
     MutationEnters; MutationRuns; MutationLeaves SUCCESS;
     ComputeRuns (graphs (shared w)); ComputeLeaves SUCCESS]
  /\ length (graphs chainABC) = 3%nat
  /\ length (graphs (shared w)) = 2%nat
  /\ straddles (trace w)
  /\ trace v = [ComputeEnters; MutationEnters; ComputePolls (graphs chainABC)]
  /\ pcC v = CClearWait
  /\ pcM v = MFunc
  /\ computeWait (shared v) = true
  /\ exists v',
       step removingC MutatingThread v = Some v'
       /\ trace v' = trace v ++ [MutationRuns]
       /\ computeWait (shared v') = true
       /\ length (graphs (shared v')) = 2%nat.
Proof.
  intros w v.
  assert (Htrace : trace w
                   = [ComputeEnters; ComputePolls (graphs chainABC);
                      MutationEnters; MutationRuns; MutationLeaves SUCCESS;
                      ComputeRuns (graphs (shared w)); ComputeLeaves SUCCESS])
    by (vm_compute; reflexivity).
  split; [exact Htrace|].
  split; [vm_compute; reflexivity|].
  split; [vm_compute; reflexivity|].
  split.
  { exists [ComputeEnters], (graphs chainABC), [], SUCCESS, [],
      (graphs (shared w)), [ComputeLeaves SUCCESS].
    split; [exact Htrace|].
    split; split; simpl; tauto. }
  split; [vm_compute; reflexivity|].
  split; [vm_compute; reflexivity|].
  split; [vm_compute; reflexivity|].
  split; [vm_compute; reflexivity|].
  exists (exec removingC v MutatingThread).
  split; [vm_compute; reflexivity|].
  split; [vm_compute; reflexivity|].
  split; vm_compute; reflexivity.
Qed.

Lemma run_app p (a b : list Thread) (w : World) :
  run p (a ++ b) w = run p b (run p a w).
Proof. unfold run. apply fold_left_app. Qed.

Lemma run_cons p t (rest : list Thread) (w : World) :
  run p (t :: rest) w = run p rest (exec p w t).
Proof. reflexivity. Qed.

Lemma exec_step p t w w' : step p t w = Some w' -> exec p w t = w'.
Proof. unfold exec. intros ->. reflexivity. Qed.

Lemma stepPresent_frame pr w w' :
  stepPresent pr w = Some w' ->
  pcC w' = pcC w /\ pcM w' = pcM w
  /\ computeWait (shared w') = computeWait (shared w)
  /\ computeHalt (shared w') = computeHalt (shared w).
Proof.
  destruct w as [s m c p q n tr]. intros H.
  unfold stepPresent, acquire in H. simpl in H.
  destruct p; open_step H; simpl; auto.
Qed.

Lemma exec_deadlocked p w t : deadlocked w -> deadlocked (exec p w t).
Proof.
  intros Hd. unfold exec. destruct (step p t w) as [w'|] eqn:E; [|exact Hd].
  destruct Hd as (HM & Hw & Hh & HC). destruct t; simpl in E.
  - destruct w as [s m c pp q n tr]. simpl in *.
    unfold stepCompute in E. simpl in E. rewrite Hh in E.
    destruct HC as [-> | [-> | [-> | ->]]]; open_step E;
      unfold deadlocked; simpl; auto 10.
  - destruct (stepPresent_frame _ _ _ E) as (E1 & E2 & E3 & E4).
    unfold deadlocked. rewrite E1, E2, E3, E4. auto.
  - destruct w as [s m c pp q n tr]. simpl in *. subst q.
    unfold stepMutate in E. simpl in E. rewrite Hw in E. discriminate.
Qed.

(** X20.  A mutation that starts while [computeWait] is raised and the compute
    thread is between two calls never gets past [computeWait.wait(true)], and
    takes the compute thread with it: in every interleaving that follows the
    raising of the halt flags, [lockState()] stands at its wait, [computeWait]
    and [computeHalt] stay raised, and [compute()] returns at once on an empty
    [graphs] or stands at [computeHalt.wait(true)]. *)
Theorem mutation_deadlocks (p : Programs) (s : Scheduler) (schedule : list Thread) :
  computeWait s = true ->
  deadlocked (run p (repeat MutatingThread 3 ++ schedule) (idleWorld s)).
Proof.
  intros Hw. rewrite run_app.
  assert (H0 : deadlocked (run p (repeat MutatingThread 3) (idleWorld s))).
  { unfold deadlocked. simpl. rewrite Hw. auto. }
  revert H0. generalize (run p (repeat MutatingThread 3) (idleWorld s)).
  unfold run. induction schedule as [|t rest IH]; intros w Hd; simpl.
  - exact Hd.
  - apply IH. apply exec_deadlocked. exact Hd.
Qed.

(** The scheduler that a call of [compute()] leaves when an executor answers
    [ERROR] to [computeReady()]. *)
Lemma mutation_deadlocks_witness :
  computeWait (stateOf (compute failsReady 1 chainABC)) = true
  /\ deadlocked
       (run removingC
          (repeat MutatingThread 3
           ++ [ComputeThread; PresentThread; MutatingThread; ComputeThread;
               ComputeThread; ComputeThread; MutatingThread; ComputeThread])
          (idleWorld (stateOf (compute failsReady 1 chainABC)))).
Proof.
  assert (Hw : computeWait (stateOf (compute failsReady 1 chainABC)) = true)
    by (vm_compute; reflexivity).
  split; [exact Hw|].
  exact (mutation_deadlocks removingC _ _ Hw).
Defined.

(** X21.  Run with the other two threads between two calls, and with
    [computeWait] lowered, the statements of [lockState()] are the function
    [lockState] of the sequential reading: thirteen steps bring the thread
    back between two calls, with [func] run under the four raised flags, the
    flags lowered again and the mutex free. *)
Theorem lockState_alone (p : Programs) (s : Scheduler) (res : Result)
    (s' : Scheduler) :
  computeWait s = false ->
  mutation p (set_flags s true true true true) = Returns (res, s') ->
  lockState (mutation p) s = Returns (res, set_flags s' false false false false)
  /\ run p (repeat MutatingThread 13) (idleWorld s)
     = mkWorld (set_flags s' false false false false) None CIdle PIdle MIdle 0%nat
         [MutationEnters; MutationRuns; MutationLeaves res].
Proof.
  intros Hw Hf.
  set (W := mkWorld (set_flags s' false false false false) None CIdle PIdle
              MIdle 0%nat [MutationEnters; MutationRuns; MutationLeaves res]).
  split.
  - unfold lockState. rewrite Hw, Hf. reflexivity.
  - destruct p as [ex pr func].
    destruct s as [r cms pms vcs vps eo deo gs ch ph cw cs ps].
    simpl in Hw. subst cw. cbv in Hf.
    unfold idleWorld. cbn [repeat].
    do 7 (rewrite run_cons; erewrite exec_step by (cbv; reflexivity)).
    rewrite run_cons; erewrite exec_step by (cbv; rewrite Hf; reflexivity).
    do 5 (rewrite run_cons; erewrite exec_step by (cbv; reflexivity)).
    reflexivity.
Qed.

Lemma lockState_alone_witness :
  computeWait chainABC = false
  /\ trace (run removingC (repeat MutatingThread 13) (idleWorld chainABC))
     = [MutationEnters; MutationRuns; MutationLeaves SUCCESS].
Proof.
  assert (Hw : computeWait chainABC = false) by (vm_compute; reflexivity).
  assert (Hf : mutation removingC (set_flags chainABC true true true true)
               = Returns (SUCCESS,
                          stateOf (mutation removingC
                                     (set_flags chainABC true true true true))))
    by (vm_compute; reflexivity).
  split; [exact Hw|].
  rewrite (proj2 (lockState_alone removingC chainABC SUCCESS _ Hw Hf)).
  reflexivity.
Defined.

Ltac world_norm :=
  cbv [observe set_polls set_pcC set_pcP set_pcM set_shared
       set_mutex shared mutex pcC pcP pcM polls trace].

Ltac alone_step tac :=
  rewrite run_cons;
  erewrite exec_step
    by (unfold step, stepCompute, stepPresent, acquire; simpl; tac; reflexivity).

(** X22.  Run while the other two threads are between two calls and
    [computeSync] is lowered, the statements of [present()] are the function
    [present] of the sequential reading: the thread comes back between two
    calls with the mutex free, the scheduler is the one [present] gives, and
    the call leaves with the result [present] gives. *)
Theorem present_alone (p : Programs) (s : Scheduler) :
  computeSync s = false ->
  exists n tr,
    run p (repeat PresentThread n) (idleWorld s)
    = mkWorld (snd (present (presenters p) s)) None CIdle PIdle MIdle 0%nat
        (PresentEnters :: tr ++ [PresentLeaves (fst (present (presenters p) s))]).
Proof.
  intros Hs. destruct p as [ex pr func].
  destruct s as [r cms pms vcs vps eo deo gs ch ph cw cs ps].
  simpl in Hs. subst cs. unfold present, idleWorld. simpl.
  destruct (isEmpty vps) eqn:He.
  { exists 2%nat, []. cbn [repeat].
    alone_step idtac. alone_step ltac:(rewrite He). reflexivity. }
  destruct ph.
  { exists 3%nat, []. cbn [repeat].
    alone_step idtac. alone_step ltac:(rewrite He). alone_step idtac.
    reflexivity. }
  destruct (presentPass pr vps) eqn:Ep.
  { exists 9%nat, [PresentRuns]. cbn [repeat].
    alone_step idtac. alone_step ltac:(rewrite He).
    do 4 (alone_step idtac). alone_step ltac:(rewrite Ep).
    do 2 (alone_step idtac). reflexivity. }
  all: exists 7%nat, [PresentRuns]; cbn [repeat];
    alone_step idtac; alone_step ltac:(rewrite He);
    do 4 (alone_step idtac); alone_step ltac:(rewrite Ep); reflexivity.
Qed.

Lemma present_alone_witness :
  computeSync presenting = false
  /\ exists n tr,
       run (mkPrograms allSuccess skipsEight (fun s => Returns (SUCCESS, s)))
         (repeat PresentThread n) (idleWorld presenting)
       = mkWorld (set_presentSync presenting true) None CIdle PIdle MIdle 0%nat
           (PresentEnters :: tr ++ [PresentLeaves SKIP]).
Proof.
  assert (Hs : computeSync presenting = false) by (vm_compute; reflexivity).
  assert (Hp : present skipsEight presenting = (SKIP, set_presentSync presenting true))
    by (vm_compute; reflexivity).
  split; [exact Hs|].
  destruct (present_alone
              (mkPrograms allSuccess skipsEight (fun s => Returns (SUCCESS, s)))
              presenting Hs) as (n & tr & H).
  exists n, tr. rewrite H. cbn [presenters]. rewrite Hp. reflexivity.
Defined.

(** The readiness loop of [compute()], run alone: it ends as
    [readinessBarrier] says, at [computeWait.clear()] when every executor is
    ready and out of the call on a failure. *)
Lemma readiness_alone (p : Programs) :
  forall fuel (w : World) r,
    pcC w = CReadiness ->
    readinessBarrier (executors p) fuel (polls w) (graphs (shared w)) = Some r ->
    exists n m tr,
      run p (repeat ComputeThread n) w
      = mkWorld (shared w) (mutex w)
          (match r with SUCCESS => CClearWait | _ => CIdle end)
          (pcP w) (pcM w) m
          (trace w ++ tr
           ++ match r with SUCCESS => [] | _ => [ComputeLeaves r] end).
Proof.
  destruct p as [ex pr func]. cbn [executors].
  induction fuel as [|fuel IH]; intros [s mx c pp q k t] r Hpc Hb;
    simpl in Hpc; subst c; cbn [polls shared graphs mutex pcP pcM trace] in *;
    simpl in Hb; destruct (readyPass ex k (graphs s)) as [res k'] eqn:Er.
  - destruct res; try discriminate Hb; injection Hb as <-;
      exists 1%nat, k', [ComputePolls (graphs s)]; cbn [repeat];
      alone_step ltac:(rewrite Er); cbv [run fold_left]; world_norm;
      rewrite <- ?app_assoc; reflexivity.
  - destruct res.
    5:{ destruct (IH (mkWorld s mx CReadiness pp q k'
                        (t ++ [ComputePolls (graphs s)])) r eq_refl Hb)
          as (n & m & tr & Hrun).
        exists (S n), m, (ComputePolls (graphs s) :: tr). cbn [repeat].
        alone_step ltac:(rewrite Er).
        world_norm. rewrite Hrun. world_norm.
        rewrite <- app_assoc. reflexivity. }
    all: injection Hb as <-;
      exists 1%nat, k', [ComputePolls (graphs s)]; cbn [repeat];
      alone_step ltac:(rewrite Er); cbv [run fold_left]; world_norm;
      rewrite <- ?app_assoc; reflexivity.
Qed.

(** X23.  Run while the other two threads are between two calls, with
    [computeHalt] and the two sync flags lowered, the statements of
    [compute()] are the function [compute] of the sequential reading: when
    [compute] returns, so does the thread, with the mutex free, the scheduler
    [compute] gives and the result [compute] gives. *)
Theorem compute_alone (p : Programs) (s : Scheduler) (fuel : nat)
    (res : Result) (s' : Scheduler) :
  computeHalt s = false -> computeSync s = false -> presentSync s = false ->
  compute (executors p) fuel s = Returns (res, s') ->
  exists n m tr,
    run p (repeat ComputeThread n) (idleWorld s)
    = mkWorld s' None CIdle PIdle MIdle m
        (ComputeEnters :: tr ++ [ComputeLeaves res]).
Proof.
  intros Hh Hcs Hps Hc. destruct p as [ex pr func]. cbn [executors] in Hc.
  destruct s as [r cms pms vcs vps eo deo gs ch ph cw cs ps].
  simpl in Hh, Hcs, Hps. subst ch cs ps.
  unfold compute in Hc. cbn [graphs computeHalt] in Hc. unfold idleWorld.
  destruct (isEmpty gs) eqn:He.
  { injection Hc as <- <-. exists 2%nat, 0%nat, []. cbn [repeat].
    alone_step idtac. alone_step ltac:(rewrite He). reflexivity. }
  destruct (readinessBarrier ex fuel 0 gs) as [rb|] eqn:Hb; [|discriminate].
  set (P := mkPrograms ex pr func).
  set (s1 := mkScheduler r cms pms vcs vps eo deo gs false ph true false false).
  set (w4 := mkWorld s1 None CReadiness PIdle MIdle 0%nat [ComputeEnters]).
  assert (H4 : run P (repeat ComputeThread 4)
                 (mkWorld (mkScheduler r cms pms vcs vps eo deo gs false ph cw
                             false false)
                    None CIdle PIdle MIdle 0%nat [])
               = w4).
  { cbn [repeat]. alone_step idtac. alone_step ltac:(rewrite He).
    do 2 (alone_step idtac). reflexivity. }
  destruct (readiness_alone P fuel w4 rb eq_refl Hb) as (n & m & tr & Hrun).
  destruct rb.
  - exists (4 + n + 7)%nat, m, (tr ++ [ComputeRuns gs]).
    rewrite !repeat_app, !run_app, H4, Hrun. cbn [repeat]. unfold w4, s1.
    do 7 (alone_step idtac). cbv [run fold_left]. world_norm.
    unfold set_computeWait in Hc. cbn in Hc.
    destruct (computePass ex gs); injection Hc as <- <-; simpl;
      rewrite <- ?app_assoc; reflexivity.
  - exists (4 + n)%nat, m, tr. rewrite repeat_app, run_app, H4, Hrun.
    injection Hc as <- <-. unfold w4, s1. simpl. reflexivity.
  - exists (4 + n)%nat, m, tr. rewrite repeat_app, run_app, H4, Hrun.
    injection Hc as <- <-. unfold w4, s1. simpl. reflexivity.
  - exists (4 + n)%nat, m, tr. rewrite repeat_app, run_app, H4, Hrun.
    injection Hc as <- <-. unfold w4, s1. simpl. reflexivity.
  - exists (4 + n)%nat, m, tr. rewrite repeat_app, run_app, H4, Hrun.
    injection Hc as <- <-. unfold w4, s1. simpl. reflexivity.
Qed.

(** The first CPU executor answers [TIMEOUT] to [compute()]: the frame is
    skipped and the call returns [SUCCESS]. *)
Lemma compute_alone_witness :
  computeHalt chainABC = false
  /\ computeSync chainABC = false
  /\ presentSync chainABC = false
  /\ exists n m tr,
       run (mkPrograms (byDevice TIMEOUT SUCCESS) (fun _ => SUCCESS)
              (fun s => Returns (SUCCESS, s)))
         (repeat ComputeThread n) (idleWorld chainABC)
       = mkWorld (set_computeWait chainABC false) None CIdle PIdle MIdle m
           (ComputeEnters :: tr ++ [ComputeLeaves SUCCESS]).
Proof.
  assert (Hh : computeHalt chainABC = false) by (vm_compute; reflexivity).
  assert (Hcs : computeSync chainABC = false) by (vm_compute; reflexivity).
  assert (Hps : presentSync chainABC = false) by (vm_compute; reflexivity).
  assert (Hc : compute
                 (executors
                    (mkPrograms (byDevice TIMEOUT SUCCESS) (fun _ => SUCCESS)
                       (fun s => Returns (SUCCESS, s))))
                 1 chainABC
               = Returns (SUCCESS, set_computeWait chainABC false))
    by (vm_compute; reflexivity).
  split; [exact Hh|]. split; [exact Hcs|]. split; [exact Hps|].
  exact (compute_alone _ chainABC 1%nat SUCCESS _ Hh Hcs Hps Hc).
Defined.
